(** * Pipeline stall simulator: timeline calculator and cycle simulator

    A shallow embedding of the two C programs of the repository:

    - [pipeline_sim.c] (the closed-form timeline calculator), and
    - [extended_simulator.c] (the cycle-by-cycle simulator),

    and of the line parser and the reading loop they share, followed by
    the properties of the hazard rule, of the computed schedule, of the
    simulator's state machine and of the parser.

    Conventions.  C [int] and [long] variables are modelled as [Z].  A
    program holds at most [MAX_INSTR] = 4096 instructions, and the lemmas
    [TimelineFacts.schedule_in_int_range] and
    [SimulatorFacts.counters_in_int_range]
    show that every counter stays far below 2^31, so no wrap-around is
    ever taken.  Register names are the C strings [rd], [rs[0]], [rs[1]];
    they are compared with [strcmp], here [String.eqb].  Console traces
    and CSV output are not modelled, and neither is the [finished] flag
    of [extended_simulator.c], which is written by [write_back_action]
    and never read. *)

From Stdlib Require Import ZArith NArith List Ascii String Bool Lia ZifyBool.
Import ListNotations.
Local Open Scope string_scope.
Local Open Scope Z_scope.

Set Implicit Arguments.

(** ** Instruction model (both programs share it) *)

Module Isa.

Definition MAX_INSTR : Z := 4096.

Inductive Op : Type := OP_ADD | OP_SUB | OP_MOV | OP_BAD.

(** [rs0] and [rs1] are the two cells of the array [rs[2]]. *)
Record Instr : Type := mkInstr {
  op : Op;
  rd : string;
  rs0 : string;
  rs1 : string;
  rs_count : Z;
  text : string
}.

(** [ins->rs[i]]; an index outside the array is never read for a parsed
    instruction (its [rs_count] is 1 or 2) and yields the empty string
    here. *)
Definition rs_at (ins : Instr) (i : Z) : string :=
  if i =? 0 then rs0 ins else if i =? 1 then rs1 ins else "".

(** The loop [for (i = 0; i < ins->rs_count; i++)] of [reg_in_sources],
    started at index [i] with [todo] iterations left.  The simulator's
    copy of the function first returns 0 on a null pointer; both callers
    pass addresses of array cells, so that guard is never taken. *)
Fixpoint reg_in_sources_from (reg : string) (ins : Instr) (i : Z) (todo : nat)
  : bool :=
  match todo with
  | O => false
  | S k =>
      if String.eqb reg (rs_at ins i) then true
      else reg_in_sources_from reg ins (i + 1) k
  end.

Definition reg_in_sources (reg : string) (ins : Instr) : bool :=
  reg_in_sources_from reg ins 0 (Z.to_nat (rs_count ins)).

(** The records [parse_line] stores once the opcode and the register
    tokens of a line are known and the arity has been checked: one
    source for [mov], two for [add] and [sub], and the canonical text. *)
Definition op_name (o : Op) : string :=
  match o with OP_ADD => "add" | _ => "sub" end.

Definition mk_mov (d s : string) : Instr :=
  mkInstr OP_MOV d s "" 1 ("mov " ++ d ++ ", " ++ s).

Definition mk_alu (o : Op) (d s1 s2 : string) : Instr :=
  mkInstr o d s1 s2 2 (op_name o ++ " " ++ d ++ ", " ++ s1 ++ ", " ++ s2).

(** The source registers of an instruction, in order: the first
    [rs_count] cells of [rs]. *)
Definition sources (ins : Instr) : list string :=
  map (rs_at ins) (map Z.of_nat (seq 0 (Z.to_nat (rs_count ins)))).

Definition arity (o : Op) : Z :=
  match o with OP_ADD | OP_SUB => 2 | OP_MOV => 1 | OP_BAD => 0 end.

Definition is_empty (s : string) : bool :=
  match s with EmptyString => true | String _ _ => false end.

(** What the parser guarantees about every instruction it stores: a known
    opcode, the matching number of sources and a destination token
    [x<digits>], in particular a non-empty one. *)
Definition valid_instr (ins : Instr) : bool :=
  match op ins with OP_BAD => false | _ => true end
  && (rs_count ins =? arity (op ins))
  && negb (is_empty (rd ins)).

(** A program the core accepts: at least one instruction, at most
    [MAX_INSTR], each of them valid. *)
Definition valid_program (prog : list Instr) : Prop :=
  1 <= Z.of_nat (List.length prog) <= MAX_INSTR
  /\ forallb valid_instr prog = true.

(** The hazard rule in the words of the specification.  A producer that
    exists and whose destination register appears among the consumer's
    sources: *)
Definition writes_source (producer : option Instr) (consumer : Instr) : bool :=
  match producer with
  | Some p => if in_dec string_dec (rd p) (sources consumer) then true else false
  | None => false
  end.

(** 2 for the nearer producer, else 1 for the farther one, else 0. *)
Definition stallsRequired (consumer : Instr) (producer1 producer2 : option Instr)
  : Z :=
  if writes_source producer1 consumer then 2
  else if writes_source producer2 consumer then 1
  else 0.

End Isa.

(** ** The timeline calculator ([pipeline_sim.c]) *)

Module Timeline.
Import Isa.

(** One iteration of the first loop of [main]: [d1] and [d2] are the
    destinations of the two previous instructions, empty when there is
    none. *)
Definition stall_for (d1 d2 : string) (ins : Instr) : Z :=
  let s := 0 in
  let s := if negb (is_empty d1) && reg_in_sources d1 ins then 2 else s in
  let s :=
    if negb (is_empty d2) && reg_in_sources d2 ins
    then (if s >? 1 then s else 1) else s in
  s.

(** The first loop: it fills [stalls[]] and shifts the window
    [d2 <- d1; d1 <- prog[i].rd].  The two [snprintf] calls copy a name
    of at most 15 characters into a buffer of 16, so nothing is cut. *)
Fixpoint stalls_loop (d1 d2 : string) (prog : list Instr) : list Z :=
  match prog with
  | [] => []
  | ins :: rest => stall_for d1 d2 ins :: stalls_loop (rd ins) d1 rest
  end.

Definition stalls (prog : list Instr) : list Z := stalls_loop "" "" prog.

(** One row of the arrays [IFc], [IDc], [EXc], [MEMc], [WBc]. *)
Record Row : Type := mkRow {
  IFc : Z;
  IDc : Z;
  EXc : Z;
  MEMc : Z;
  WBc : Z
}.

(** The second loop, with [curIF] threaded through. *)
Fixpoint schedule_loop (curIF : Z) (st : list Z) : list Row :=
  match st with
  | [] => []
  | s :: rest =>
      let start_if := curIF + s in
      mkRow start_if (start_if + 1) (start_if + 2) (start_if + 3) (start_if + 4)
      :: schedule_loop (start_if + 1) rest
  end.

Definition schedule (prog : list Instr) : list Row :=
  schedule_loop 1 (stalls prog).

Definition row0 : Row := mkRow 0 0 0 0 0.

(** Array reads [stalls[i]], [IFc[i]], ... *)
Definition stalls_at (prog : list Instr) (i : nat) : Z := nth i (stalls prog) 0.
Definition row_at (prog : list Instr) (i : nat) : Row := nth i (schedule prog) row0.

Definition sum_stalls (prog : list Instr) : Z :=
  fold_left Z.add (stalls prog) 0.

Definition base_cycles (prog : list Instr) : Z := Z.of_nat (List.length prog) + 4.

(** [total_cycles = WBc[n-1]]. *)
Definition total_cycles (prog : list Instr) : Z :=
  WBc (row_at prog (List.length prog - 1)).

(** The window as the loop sees it: the destination of a producer, or
    the empty string when there is none. *)
Definition dest_of (p : option Instr) : string :=
  match p with Some q => rd q | None => "" end.

Definition has_dest (p : option Instr) : Prop :=
  match p with Some q => is_empty (rd q) = false | None => True end.

(** The instruction [k] places before index [i], if any. *)
Definition before (prog : list Instr) (i k : nat) : option Instr :=
  if (i <? k)%nat then None else nth_error prog (i - k).

(** No instruction reads the destination of one of its two predecessors:
    for every [i], the register written by instruction [i-1] or [i-2]
    is not among the sources of instruction [i]. *)
Definition hazard_free (prog : list Instr) : Prop :=
  forall (i k : nat) (c p : Instr),
    k = 1%nat \/ k = 2%nat ->
    nth_error prog i = Some c -> before prog i k = Some p ->
    ~ In (rd p) (sources c).

Record Report : Type := mkReport {
  rep_stalls : list Z;
  rep_rows : list Row;
  rep_base_cycles : Z;
  rep_sum_stalls : Z;
  rep_total_cycles : Z
}.

(** [main] after parsing: an empty program is refused (exit code 4). *)
Definition main (prog : list Instr) : option Report :=
  match prog with
  | [] => None
  | _ =>
      Some (mkReport (stalls prog) (schedule prog) (base_cycles prog)
              (sum_stalls prog) (total_cycles prog))
  end.

End Timeline.

(** ** The cycle simulator ([extended_simulator.c]) *)

Module Simulator.
Import Isa.

(** [prog[idx]]; the index is in range wherever the simulator reads it
    (lemma [reads_in_range]). *)
Definition instr0 : Instr := mkInstr OP_BAD "" "" "" 0 "".

Definition prog_at (prog : list Instr) (idx : Z) : Instr :=
  nth (Z.to_nat idx) prog instr0.

Definition needed_stalls_for_id (id_idx ex_idx mem_idx : Z) (prog : list Instr)
  : Z :=
  if id_idx <? 0 then 0
  else if (ex_idx >=? 0)
          && reg_in_sources (rd (prog_at prog ex_idx)) (prog_at prog id_idx)
  then 2
  else if (mem_idx >=? 0)
          && reg_in_sources (rd (prog_at prog mem_idx)) (prog_at prog id_idx)
  then 1
  else 0.

(** The producer found in a slot: none for a bubble. *)
Definition slot_instr (prog : list Instr) (idx : Z) : option Instr :=
  if idx >=? 0 then Some (prog_at prog idx) else None.

(** The local variables of [main].  [pIF .. pWB] are [pipe[0] .. pipe[4]];
    a slot holds an index into the program or -1 for a bubble. *)
Record State : Type := mkState {
  pIF : Z;
  pID : Z;
  pEX : Z;
  pMEM : Z;
  pWB : Z;
  pc : Z;
  completed : Z;
  total_stalls : Z;
  cycle : Z;
  stall_counter : Z
}.

Definition init : State := mkState (-1) (-1) (-1) (-1) (-1) 0 0 0 0 0.

Definition set_pIF (v : Z) (s : State) : State :=
  mkState v (pID s) (pEX s) (pMEM s) (pWB s) (pc s) (completed s)
    (total_stalls s) (cycle s) (stall_counter s).
Definition set_pID (v : Z) (s : State) : State :=
  mkState (pIF s) v (pEX s) (pMEM s) (pWB s) (pc s) (completed s)
    (total_stalls s) (cycle s) (stall_counter s).
Definition set_pEX (v : Z) (s : State) : State :=
  mkState (pIF s) (pID s) v (pMEM s) (pWB s) (pc s) (completed s)
    (total_stalls s) (cycle s) (stall_counter s).
Definition set_pMEM (v : Z) (s : State) : State :=
  mkState (pIF s) (pID s) (pEX s) v (pWB s) (pc s) (completed s)
    (total_stalls s) (cycle s) (stall_counter s).
Definition set_pWB (v : Z) (s : State) : State :=
  mkState (pIF s) (pID s) (pEX s) (pMEM s) v (pc s) (completed s)
    (total_stalls s) (cycle s) (stall_counter s).
Definition set_pc (v : Z) (s : State) : State :=
  mkState (pIF s) (pID s) (pEX s) (pMEM s) (pWB s) v (completed s)
    (total_stalls s) (cycle s) (stall_counter s).
Definition set_completed (v : Z) (s : State) : State :=
  mkState (pIF s) (pID s) (pEX s) (pMEM s) (pWB s) (pc s) v
    (total_stalls s) (cycle s) (stall_counter s).
Definition set_total_stalls (v : Z) (s : State) : State :=
  mkState (pIF s) (pID s) (pEX s) (pMEM s) (pWB s) (pc s) (completed s)
    v (cycle s) (stall_counter s).
Definition set_cycle (v : Z) (s : State) : State :=
  mkState (pIF s) (pID s) (pEX s) (pMEM s) (pWB s) (pc s) (completed s)
    (total_stalls s) v (stall_counter s).
Definition set_stall_counter (v : Z) (s : State) : State :=
  mkState (pIF s) (pID s) (pEX s) (pMEM s) (pWB s) (pc s) (completed s)
    (total_stalls s) (cycle s) v.

(** [cycle++] *)
Definition tick (s : State) : State := set_cycle (cycle s + 1) s.

(** [if (pipe[4] >= 0) { write_back_action(...); completed++; pipe[4] = -1; }] *)
Definition write_back (s : State) : State :=
  if pWB s >=? 0 then set_pWB (-1) (set_completed (completed s + 1) s) else s.

(** [if (pipe[3] >= 0) { pipe[4] = pipe[3]; pipe[3] = -1; }] and its
    three siblings. *)
Definition move_mem_wb (s : State) : State :=
  if pMEM s >=? 0 then set_pMEM (-1) (set_pWB (pMEM s) s) else s.
Definition move_ex_mem (s : State) : State :=
  if pEX s >=? 0 then set_pEX (-1) (set_pMEM (pEX s) s) else s.
Definition move_id_ex (s : State) : State :=
  if pID s >=? 0 then set_pID (-1) (set_pEX (pID s) s) else s.
Definition move_if_id (s : State) : State :=
  if pIF s >=? 0 then set_pIF (-1) (set_pID (pIF s) s) else s.

(** [if (pc < n) { pipe[0] = pc++; } else pipe[0] = -1;] *)
Definition fetch (n : Z) (s : State) : State :=
  if pc s <? n then set_pc (pc s + 1) (set_pIF (pc s) s) else set_pIF (-1) s.

(** The branch [if (stall_counter > 0) { ...; continue; }]. *)
Definition stall_cycle (s : State) : State :=
  let s := move_mem_wb s in
  let s := move_ex_mem s in
  let s := set_total_stalls (total_stalls s + 1) s in
  set_stall_counter (stall_counter s - 1) s.

(** The four moves and the fetch of a normal cycle. *)
Definition shift (n : Z) (s : State) : State :=
  fetch n (move_if_id (move_id_ex (move_ex_mem (move_mem_wb s)))).

Definition required (prog : list Instr) (s : State) : Z :=
  needed_stalls_for_id (pID s) (pEX s) (pMEM s) prog.

(** The condition under which the two assignments
    [pipe[1] = pipe[2]; pipe[2] = -1;] are executed. *)
Definition undo_taken (prog : list Instr) (s : State) : bool :=
  (required prog s >? 0) && (pEX s =? pID s).

(** The block after the moves: hazard detection for the instruction now
    in ID. *)
Definition hazard_check (prog : list Instr) (s : State) : State :=
  let id_idx := pID s in
  let req := required prog s in
  if req >? 0 then
    let s := if pEX s =? id_idx then set_pEX (-1) (set_pID (pEX s) s) else s in
    set_stall_counter req s
  else s.

Definition len (prog : list Instr) : Z := Z.of_nat (List.length prog).

(** One iteration of [while (completed < n)]. *)
Definition step (prog : list Instr) (s : State) : State :=
  let s := write_back (tick s) in
  if stall_counter s >? 0 then stall_cycle s
  else hazard_check prog (shift (len prog) s).

(** The loop, with a bound on the number of iterations. *)
Fixpoint run (prog : list Instr) (fuel : nat) (s : State) : option State :=
  if completed s <? len prog then
    match fuel with
    | O => None
    | S k => run prog k (step prog s)
    end
  else Some s.

(** Enough iterations for every program (theorem [simulate_total]). *)
Definition fuel_for (prog : list Instr) : nat := 3 * List.length prog + 15.

(** [main] after parsing: an empty program is refused (exit code 4);
    otherwise the loop runs from the empty pipeline. *)
Definition simulate (prog : list Instr) : option State :=
  match prog with
  | [] => None
  | _ => run prog (fuel_for prog) init
  end.

(** The state after [k] iterations. *)
Fixpoint iter (prog : list Instr) (k : nat) (s : State) : State :=
  match k with
  | O => s
  | S j => step prog (iter prog j s)
  end.

(** States met at the head of the loop. *)
Inductive reachable (prog : list Instr) : State -> Prop :=
| reach_init : reachable prog init
| reach_step : forall s,
    reachable prog s -> completed s < len prog -> reachable prog (step prog s).

(** *** Definitions used to state the invariants of the loop *)

(** The occupied slots among [slots], read from Write-back to Fetch,
    hold the consecutive indices [k], [k+1], ... up to [last - 1]; an
    empty slot holds exactly -1. *)
Fixpoint in_order (k : Z) (slots : list Z) (last : Z) : Prop :=
  match slots with
  | [] => k = last
  | q :: rest =>
      if q >=? 0 then q = k /\ in_order (k + 1) rest last
      else q = -1 /\ in_order k rest last
  end.

Definition occ (q : Z) : Z := if q >=? 0 then 1 else 0.

(** The number of normal (non-stall) cycles executed so far, read off
    the state: the program counter while instructions remain to be
    fetched, then the progress of the last instruction through the
    pipeline. *)
Definition phase (n : Z) (s : State) : Z :=
  if pc s <? n then pc s
  else n + (if pIF s >=? 0 then 0
            else if pID s >=? 0 then 1
            else if pEX s >=? 0 then 2
            else if pMEM s >=? 0 then 3
            else if pWB s >=? 0 then 4
            else 5).

(** The invariant of the loop head. *)
Record Inv (prog : list Instr) (s : State) : Prop := mkInv {
  inv_order :
    in_order (completed s) [pWB s; pMEM s; pEX s; pID s; pIF s] (pc s);
  inv_completed : 0 <= completed s;
  inv_pc : pc s <= len prog;
  inv_sc : 0 <= stall_counter s <= 2;
  inv_sc2 : stall_counter s = 2 -> pEX s >= 0 /\ pID s >= 0;
  inv_sc1 : stall_counter s = 1 -> pMEM s >= 0 /\ pID s >= 0;
  inv_cycle : cycle s = total_stalls s + phase (len prog) s;
  inv_stalls :
    0 <= total_stalls s
    /\ total_stalls s + stall_counter s <= 2 * (pc s - occ (pIF s))
}.

(** What a stall cycle and a normal cycle amount to on a state that
    satisfies the invariant (lemmas [step_stall] and [step_normal]). *)
Definition stall_result (s : State) : State :=
  mkState (pIF s) (pID s) (-1) (pEX s) (pMEM s) (pc s)
    (completed s + occ (pWB s)) (total_stalls s + 1) (cycle s + 1)
    (stall_counter s - 1).

Definition normal_result (prog : list Instr) (s : State) : State :=
  mkState (if pc s <? len prog then pc s else -1) (pIF s) (pID s) (pEX s)
    (pMEM s) (if pc s <? len prog then pc s + 1 else pc s)
    (completed s + occ (pWB s)) (total_stalls s) (cycle s + 1)
    (needed_stalls_for_id (pIF s) (pID s) (pEX s) prog).

(** Where instruction [i] is: 0 not fetched yet, 1 Fetch, 2 Decode,
    3 Execute, 4 Memory, 5 Write-back, 6 retired. *)
Definition pos (s : State) (i : Z) : Z :=
  if pIF s =? i then 1
  else if pID s =? i then 2
  else if pEX s =? i then 3
  else if pMEM s =? i then 4
  else if pWB s =? i then 5
  else if i <? completed s then 6
  else 0.

(** The occupants of the five slots, bubbles left out. *)
Definition occupants (s : State) : list Z :=
  filter (fun q => q >=? 0) [pIF s; pID s; pEX s; pMEM s; pWB s].

(** The stall the simulator charges to instruction [i]: the hazard check
    made when [i] enters Decode sees instruction [i-1] in Execute, and
    instruction [i-2] in Memory only if [i-1] went through Decode without
    a stall; otherwise Memory has drained and holds a bubble. *)
Fixpoint sim_stall (prog : list Instr) (i : nat) : Z :=
  match i with
  | O => 0
  | S j =>
      needed_stalls_for_id (Z.of_nat i) (Z.of_nat j)
        (if sim_stall prog j =? 0 then Z.of_nat j - 1 else -1) prog
  end.

Fixpoint sum_upto (g : nat -> Z) (k : nat) : Z :=
  match k with
  | O => 0
  | S j => sum_upto g j + g j
  end.

(** The part of the invariant that ties the stall counters to
    [sim_stall]. *)
Record Inv2 (prog : list Instr) (s : State) : Prop := mkInv2 {
  j_if : pIF s >= 0 -> pID s = pIF s - 1;
  j_fetch : pIF s < 0 -> pc s = 0 \/ pc s = len prog;
  j_sum :
    total_stalls s + stall_counter s
    = sum_upto (sim_stall prog) (Z.to_nat (pc s - occ (pIF s)));
  j_busy : stall_counter s > 0 -> sim_stall prog (Z.to_nat (pID s)) > 0;
  j_ex :
    stall_counter s = 0 -> pID s >= 0 ->
    pEX s = if sim_stall prog (Z.to_nat (pID s)) =? 0 then pID s - 1 else -1
}.

(** Every slot holds an index or the bubble marker. *)
Definition wf_slots (s : State) : Prop :=
  -1 <= pIF s /\ -1 <= pID s /\ -1 <= pEX s /\ -1 <= pMEM s /\ -1 <= pWB s.

(** The variant of the loop: three units per normal cycle still to come,
    one per pending stall cycle. *)
Definition measure (n : Z) (s : State) : Z :=
  3 * (n + 5 - phase n s) + stall_counter s.

(** An upper bound on the number of cycles until the next retirement. *)
Definition dist (s : State) : Z :=
  if pWB s >=? 0 then 1
  else if pMEM s >=? 0 then 2
  else if pEX s >=? 0 then 3
  else if pID s >=? 0 then 4
  else if pIF s >=? 0 then 5
  else 6.

End Simulator.

(** ** Example programs *)

Module Examples.
Import Isa.

Definition ADD (d s1 s2 : string) : Instr := mk_alu OP_ADD d s1 s2.
Definition SUB (d s1 s2 : string) : Instr := mk_alu OP_SUB d s1 s2.
Definition MOV (d s : string) : Instr := mk_mov d s.

Definition single : list Instr := [ADD "x1" "x2" "x3"].
Definition scenarioA : list Instr :=
  [ADD "x1" "x2" "x3"; ADD "x4" "x5" "x6"; ADD "x7" "x8" "x9"].
Definition scenarioB : list Instr :=
  [ADD "x1" "x2" "x3"; SUB "x4" "x1" "x5"].
Definition scenarioC : list Instr :=
  [MOV "x1" "x2"; ADD "x3" "x4" "x5"; SUB "x6" "x1" "x4"].
(** The third instruction reads [x1], written two instructions earlier,
    and follows an instruction that itself stalls. *)
Definition shadowed : list Instr :=
  [ADD "x1" "x2" "x3"; SUB "x4" "x1" "x5"; ADD "x6" "x1" "x7"].

End Examples.

(** ** The line parser and the reading loop (both programs share them) *)

Module Parser.
Import Isa.

Definition MAX_LINE : nat := 4096.

(** Character classes of [<ctype.h>] in the "C" locale, on the code of
    a character. *)
Definition code (c : ascii) : N := N_of_ascii c.

Definition is_digit (c : ascii) : bool :=
  ((48 <=? code c) && (code c <=? 57))%N.
Definition is_upper (c : ascii) : bool :=
  ((65 <=? code c) && (code c <=? 90))%N.
Definition is_lower (c : ascii) : bool :=
  ((97 <=? code c) && (code c <=? 122))%N.
Definition is_alpha (c : ascii) : bool := is_upper c || is_lower c.
(** [isspace]: space, [\t], [\n], [\v], [\f], [\r]; the test of
    [rtrim_ascii] names the same six characters. *)
Definition is_space (c : ascii) : bool :=
  ((code c =? 32) || ((9 <=? code c) && (code c <=? 13)))%N.
Definition to_lower (c : ascii) : ascii :=
  if is_upper c then ascii_of_N (code c + 32) else c.

(** [c == 'x' || c == 'X'], [c == '#'], [c == '\0']. *)
Definition is_x (c : ascii) : bool := ((code c =? 120) || (code c =? 88))%N.
Definition is_hash (c : ascii) : bool := (code c =? 35)%N.
Definition is_nul (c : ascii) : bool := (code c =? 0)%N.

(** Every character of [s] satisfies [f]. *)
Fixpoint all (f : ascii -> bool) (s : string) : bool :=
  match s with
  | EmptyString => true
  | String c r => f c && all f r
  end.

(** [strncpy(buf, line_in, n); buf[n] = '\0']: the characters of the
    line up to its terminator, at most [n] of them. *)
Fixpoint c_copy (n : nat) (s : string) : string :=
  match n, s with
  | S k, String c r => if is_nul c then "" else String c (c_copy k r)
  | _, _ => ""
  end.

(** Drops the three bytes EF BB BF at the start of the buffer. *)
Definition strip_bom_inplace (s : string) : string :=
  match s with
  | String a (String b (String c rest)) =>
      if ((code a =? 239) && (code b =? 187) && (code c =? 191))%N
      then rest else s
  | _ => s
  end.

(** The loop of [rtrim_ascii] walks back from the end of the string; on
    the reversed characters it drops the leading ones it tests for. *)
Fixpoint drop_trim (r : list ascii) : list ascii :=
  match r with
  | c :: r' => if is_space c then drop_trim r' else r
  | [] => []
  end.

Definition rtrim_ascii (s : string) : string :=
  string_of_list_ascii (rev (drop_trim (rev (list_ascii_of_string s)))).

(** [p = strchr(s, '#'); if (p) *p = '\0';] *)
Fixpoint strip_comment (s : string) : string :=
  match s with
  | EmptyString => ""
  | String c r => if is_hash c then "" else String c (strip_comment r)
  end.

Definition is_blank_ascii (s : string) : bool := all is_space s.

(** The loop that moves [p] over the characters that are not letters. *)
Fixpoint skip_non_alpha (p : string) : string :=
  match p with
  | EmptyString => ""
  | String c r => if is_alpha c then p else skip_non_alpha r
  end.

(** The copy loop of [find_opcode]: the lower-cased letters stored in
    [w], at most [room] of them, and the pointer [q] after them. *)
Fixpoint take_word (room : nat) (q : string) : string * string :=
  match room, q with
  | S k, String c r =>
      if is_alpha c then
        let (w, q') := take_word k r in (String (to_lower c) w, q')
      else ("", q)
  | _, _ => ("", q)
  end.

(** The outer loop of [find_opcode].  Every iteration that does not
    return moves [p] forward by at least one character, so the length
    of the string bounds the number of iterations
    (lemma [find_opcode_fuel]). *)
Fixpoint find_opcode_loop (fuel : nat) (p : string) : Op :=
  match fuel with
  | O => OP_BAD
  | S k =>
      match skip_non_alpha p with
      | EmptyString => OP_BAD
      | p' =>
          let (w, q) := take_word 15 p' in
          if String.eqb w "add" then OP_ADD
          else if String.eqb w "sub" then OP_SUB
          else if String.eqb w "mov" then OP_MOV
          else find_opcode_loop k q
      end
  end.

Definition find_opcode (s : string) : Op :=
  find_opcode_loop (String.length s) s.

(** The digit loop of [find_next_reg], entered with [j] digits already
    stored: the digits it stores (no more than 14 in all) and the
    pointer after the last digit. *)
Fixpoint take_digits (j : nat) (q : string) : string * string :=
  match q with
  | String c r =>
      if is_digit c then
        let (out, q') := take_digits (S j) r in
        (if (j <? 14)%nat then String c out else out, q')
      else ("", q)
  | EmptyString => ("", "")
  end.

(** The digits of the next token [x<digits>] and the pointer after
    them, or [None] for [NULL]. *)
Fixpoint find_next_reg (p : string) : option (string * string) :=
  match p with
  | EmptyString => None
  | String c r =>
      if is_x c then
        let (out, q) := take_digits 0 r in
        if is_empty out then find_next_reg r else Some (out, q)
      else find_next_reg r
  end.

(** The loop [while (rcount < 3)] of [parse_line]: the names
    ["x<digits>"] stored in [regs], with [todo] cells left. *)
Fixpoint collect_regs (todo : nat) (p : string) : list string :=
  match todo with
  | O => []
  | S k =>
      match find_next_reg p with
      | None => []
      | Some (digits, np) => ("x" ++ digits)%string :: collect_regs k np
      end
  end.

(** The three outcomes of [parse_line]: 0, -1 and 1 with the record it
    filled. *)
Inductive ParseResult : Type :=
| Skipped
| ParseError
| Parsed (ins : Instr).

Definition parse_line (line_in : string) : ParseResult :=
  let buf := c_copy (MAX_LINE - 1) line_in in
  let buf := strip_bom_inplace buf in
  let buf := strip_comment buf in
  let buf := rtrim_ascii buf in
  if is_blank_ascii buf then Skipped
  else
    match find_opcode buf with
    | OP_BAD => Skipped
    | OP_MOV =>
        match collect_regs 3 buf with
        | [d; s] => Parsed (mk_mov d s)
        | _ => ParseError
        end
    | o =>
        match collect_regs 3 buf with
        | [d; s1; s2] => Parsed (mk_alu o d s1 s2)
        | _ => ParseError
        end
    end.

(** The reading loop of [main] and the test that follows it.  [lines]
    are the strings the successive calls of [fgets] return; [acc] is
    [prog[0 .. n-1]]. *)
Inductive Loaded : Type :=
| LoadExit (exit_code : Z)
| LoadOk (prog : list Instr).

Fixpoint read_lines (lines : list string) (acc : list Instr) : Loaded :=
  match lines with
  | [] =>
      if Z.of_nat (List.length acc) =? 0 then LoadExit 4 else LoadOk acc
  | line :: rest =>
      match parse_line line with
      | ParseError => LoadExit 2
      | Parsed ins =>
          if Z.of_nat (List.length acc) >=? MAX_INSTR then LoadExit 3
          else read_lines rest (acc ++ [ins])
      | Skipped => read_lines rest acc
      end
  end.

Definition load (lines : list string) : Loaded := read_lines lines [].

(** [main] of the calculator and of the simulator, from the lines of
    the input file to the exit code and the numbers printed.  The
    failures of the environment are left out: a file that cannot be
    opened (exit codes 1, 5 and 6) and memory that cannot be allocated
    (exit code 5). *)
Definition calculator_main (lines : list string)
  : Z * option Timeline.Report :=
  match load lines with
  | LoadExit c => (c, None)
  | LoadOk prog => (0, Timeline.main prog)
  end.

Definition simulator_main (lines : list string)
  : Z * option Simulator.State :=
  match load lines with
  | LoadExit c => (c, None)
  | LoadOk prog => (0, Simulator.simulate prog)
  end.

(** *** Definitions used to state the properties of the parser *)

(** A register name as the parser writes it: [x] and one to fourteen
    decimal digits. *)
Definition is_reg_name (r : string) : bool :=
  match r with
  | String c ds =>
      (code c =? 120)%N && negb (is_empty ds)
      && (String.length ds <=? 14)%nat && all is_digit ds
  | EmptyString => false
  end.

(** A character that neither ends a C string nor starts a comment. *)
Definition plain (c : ascii) : bool := negb (is_nul c) && negb (is_hash c).

(** The records the parser can produce. *)
Inductive canonical : Instr -> Prop :=
| canonical_mov : forall d s,
    is_reg_name d = true -> is_reg_name s = true -> canonical (mk_mov d s)
| canonical_alu : forall o d s1 s2,
    o = OP_ADD \/ o = OP_SUB ->
    is_reg_name d = true -> is_reg_name s1 = true -> is_reg_name s2 = true ->
    canonical (mk_alu o d s1 s2).

(** The upper-case form of a letter and of a line. *)
Definition to_upper (c : ascii) : ascii :=
  if is_lower c then ascii_of_N (code c - 32) else c.

Fixpoint upcase (s : string) : string :=
  match s with
  | EmptyString => ""
  | String c r => String (to_upper c) (upcase r)
  end.

(** One of the three bytes EF BB BF. *)
Definition is_bom_byte (c : ascii) : bool :=
  ((code c =? 239) || (code c =? 187) || (code c =? 191))%N.

(** No register token starts inside [s]: none of its characters is an
    [x] or [X] directly followed by a digit of [s]. *)
Fixpoint no_reg_start (s : string) : bool :=
  match s with
  | EmptyString => true
  | String c r =>
      negb (is_x c
            && match r with
               | String d _ => is_digit d
               | EmptyString => false
               end)
      && no_reg_start r
  end.

(** The instructions of the lines that parse, in file order. *)
Fixpoint parsed_of (lines : list string) : list Instr :=
  match lines with
  | [] => []
  | line :: rest =>
      match parse_line line with
      | Parsed ins => ins :: parsed_of rest
      | _ => parsed_of rest
      end
  end.

End Parser.

(** ** The hazard rule *)

Module IsaFacts.
Import Isa.

Lemma reg_in_sources_from_In (reg : string) (ins : Instr) :
  forall (todo k : nat),
    reg_in_sources_from reg ins (Z.of_nat k) todo = true
    <-> In reg (map (rs_at ins) (map Z.of_nat (seq k todo))).
Proof.
  induction todo as [|t IH]; intros k; simpl.
  - split; [discriminate | tauto].
  - destruct (String.eqb_spec reg (rs_at ins (Z.of_nat k))) as [E|E].
    + split; auto.
    + replace (Z.of_nat k + 1) with (Z.of_nat (S k)) by lia.
      rewrite IH. split; [tauto|].
      intros [H|H]; [congruence | exact H].
Qed.

(** The loop of [reg_in_sources] decides membership in the sources. *)
Lemma reg_in_sources_In (reg : string) (ins : Instr) :
  reg_in_sources reg ins = true <-> In reg (sources ins).
Proof. apply (reg_in_sources_from_In reg ins _ 0). Qed.

Lemma reg_in_sources_dec (reg : string) (ins : Instr) :
  reg_in_sources reg ins
  = if in_dec string_dec reg (sources ins) then true else false.
Proof.
  destruct (in_dec string_dec reg (sources ins)) as [H|H].
  - now apply reg_in_sources_In.
  - destruct (reg_in_sources reg ins) eqn:E; auto.
    now apply reg_in_sources_In in E.
Qed.

Lemma valid_instr_rd (ins : Instr) :
  valid_instr ins = true -> is_empty (rd ins) = false.
Proof.
  unfold valid_instr. intros H.
  apply andb_prop in H as [_ H]. now apply negb_true_iff in H.
Qed.

End IsaFacts.

(** ** The schedule of the timeline calculator *)

Module TimelineFacts.
Import Isa IsaFacts Timeline.

Lemma stall_for_range (d1 d2 : string) (ins : Instr) :
  stall_for d1 d2 ins = 0 \/ stall_for d1 d2 ins = 1 \/ stall_for d1 d2 ins = 2.
Proof.
  unfold stall_for.
  destruct (negb (is_empty d1) && reg_in_sources d1 ins);
    destruct (negb (is_empty d2) && reg_in_sources d2 ins); simpl; auto.
Qed.

(** The inline test of the first loop is the hazard rule. *)
Lemma stall_for_rule (p1 p2 : option Instr) (c : Instr) :
  has_dest p1 -> has_dest p2 ->
  stall_for (dest_of p1) (dest_of p2) c = stallsRequired c p1 p2.
Proof.
  unfold stall_for, stallsRequired, writes_source.
  destruct p1 as [q1|], p2 as [q2|]; simpl; intros H1 H2;
    rewrite ?H1, ?H2, ?reg_in_sources_dec; simpl;
    repeat match goal with
      | |- context [in_dec ?d ?x ?l] => destruct (in_dec d x l)
      end; reflexivity.
Qed.

Lemma stalls_loop_length (prog : list Instr) :
  forall d1 d2, List.length (stalls_loop d1 d2 prog) = List.length prog.
Proof. induction prog; simpl; intros; auto. Qed.

Lemma schedule_loop_length (st : list Z) :
  forall c, List.length (schedule_loop c st) = List.length st.
Proof. induction st; simpl; intros; auto. Qed.

Lemma stalls_loop_range (prog : list Instr) :
  forall d1 d2 i, 0 <= nth i (stalls_loop d1 d2 prog) 0 <= 2.
Proof.
  induction prog as [|a l IH]; intros d1 d2 [|i]; simpl; try lia.
  - destruct (stall_for_range d1 d2 a) as [H|[H|H]]; rewrite H; lia.
  - apply IH.
Qed.

Lemma stalls_loop_nth (l : list Instr) :
  forall p1 p2 i c,
    has_dest p1 -> has_dest p2 -> forallb valid_instr l = true ->
    nth_error l i = Some c ->
    nth i (stalls_loop (dest_of p1) (dest_of p2) l) 0
    = stallsRequired c
        (match i with O => p1 | S j => nth_error l j end)
        (match i with O => p2 | 1%nat => p1 | S (S j) => nth_error l j end).
Proof.
  induction l as [|a l IH]; intros p1 p2 i c H1 H2 Hv Hi.
  - destruct i; discriminate.
  - simpl in Hv. apply andb_prop in Hv as [Ha Hl].
    destruct i as [|j]; simpl in Hi |- *.
    + injection Hi as <-. now apply stall_for_rule.
    + change (rd a) with (dest_of (Some a)).
      rewrite (IH (Some a) p1 j c); auto.
      * destruct j as [|[|j']]; reflexivity.
      * now apply valid_instr_rd.
Qed.

(** [stalls[i]] is the hazard rule applied to instruction [i] and its two
    predecessors. *)
Lemma stalls_at_rule (prog : list Instr) (i : nat) (c : Instr) :
  forallb valid_instr prog = true ->
  nth_error prog i = Some c ->
  stalls_at prog i = stallsRequired c (before prog i 1) (before prog i 2).
Proof.
  intros Hv Hi. unfold stalls_at, stalls.
  change "" with (dest_of None).
  rewrite (@stalls_loop_nth prog None None i c); simpl; auto.
  unfold before. destruct i as [|[|j]]; simpl; rewrite ?Nat.sub_0_r; reflexivity.
Qed.

Lemma first_stall_zero (prog : list Instr) : stalls_at prog 0 = 0.
Proof. destruct prog; reflexivity. Qed.

Lemma schedule_loop_row (st : list Z) :
  forall c i, (i < List.length st)%nat ->
    let r := nth i (schedule_loop c st) row0 in
    IDc r = IFc r + 1 /\ EXc r = IFc r + 2
    /\ MEMc r = IFc r + 3 /\ WBc r = IFc r + 4.
Proof.
  induction st as [|s l IH]; intros c [|i] Hi; simpl in *; try lia.
  apply IH. lia.
Qed.

Lemma schedule_loop_first (st : list Z) (c : Z) :
  (0 < List.length st)%nat ->
  IFc (nth 0 (schedule_loop c st) row0) = c + nth 0 st 0.
Proof. destruct st; simpl; intros; [lia | reflexivity]. Qed.

Lemma schedule_loop_next (st : list Z) :
  forall c i, (S i < List.length st)%nat ->
    IFc (nth (S i) (schedule_loop c st) row0)
    = IFc (nth i (schedule_loop c st) row0) + 1 + nth (S i) st 0.
Proof.
  induction st as [|s l IH]; intros c i Hi; simpl in Hi; [lia|].
  destruct i as [|i].
  - simpl. rewrite schedule_loop_first by lia. reflexivity.
  - change (IFc (nth (S i) (schedule_loop (c + s + 1) l) row0)
            = IFc (nth i (schedule_loop (c + s + 1) l) row0) + 1 + nth (S i) l 0).
    apply IH. lia.
Qed.

(** The closed form behind [WBc[n-1]]: one cycle per instruction, the
    four cycles of fill and drain, and the stalls. *)
Lemma schedule_loop_last (st : list Z) :
  forall c, st <> [] ->
    WBc (nth (List.length st - 1) (schedule_loop c st) row0)
    = c + Z.of_nat (List.length st) + 3 + fold_left Z.add st 0.
Proof.
  assert (Hf : forall l a, fold_left Z.add l a = a + fold_left Z.add l 0).
  { induction l as [|x l IH]; intros a; simpl; [lia|].
    rewrite (IH (a + x)), (IH x). lia. }
  induction st as [|s l IH]; intros c Hne; [congruence|].
  destruct l as [|s' l'] eqn:El.
  - simpl. lia.
  - rewrite <- El in *.
    assert (Hl : l <> []) by (rewrite El; discriminate).
    replace (List.length (s :: l) - 1)%nat with (S (List.length l - 1))
      by (rewrite El; simpl; lia).
    simpl. rewrite (IH _ Hl), (Hf l s). lia.
Qed.

Lemma total_cycles_formula (prog : list Instr) :
  prog <> [] ->
  total_cycles prog = base_cycles prog + sum_stalls prog.
Proof.
  intros Hne. unfold total_cycles, base_cycles, sum_stalls, row_at, schedule.
  assert (Hs : stalls prog <> []).
  { intros E. apply (f_equal (@List.length Z)) in E.
    unfold stalls in E. rewrite stalls_loop_length in E.
    destruct prog; [congruence | discriminate]. }
  pose proof (@schedule_loop_last (stalls prog) 1 Hs) as H.
  unfold stalls in H at 1 3. rewrite stalls_loop_length in H.
  rewrite H. lia.
Qed.

Lemma fold_add_bounds (l : list Z) :
  (forall i, 0 <= nth i l 0 <= 2) ->
  0 <= fold_left Z.add l 0 <= 2 * Z.of_nat (List.length l).
Proof.
  assert (Hf : forall l a, fold_left Z.add l a = a + fold_left Z.add l 0).
  { induction l0 as [|x l0 IH]; intros a; simpl; [lia|].
    rewrite (IH (a + x)), (IH x). lia. }
  induction l as [|x l IH]; intros H; simpl; [lia|].
  rewrite Hf. pose proof (H 0%nat) as H0. simpl in H0.
  assert (forall i, 0 <= nth i l 0 <= 2) as H1 by (intros i; apply (H (S i))).
  specialize (IH H1). lia.
Qed.

(** Every cycle number the calculator stores fits a C [int]. *)
Lemma schedule_in_int_range (prog : list Instr) :
  valid_program prog ->
  0 <= sum_stalls prog <= 2 * MAX_INSTR
  /\ 1 <= total_cycles prog <= 3 * MAX_INSTR + 4
  /\ 3 * MAX_INSTR + 4 < 2 ^ 31.
Proof.
  intros [[Hlo Hhi] _].
  assert (Hne : prog <> []) by (destruct prog; [simpl in Hlo; lia | discriminate]).
  pose proof (@fold_add_bounds (stalls prog) (stalls_loop_range prog "" "")) as Hb.
  unfold stalls in Hb at 3. rewrite stalls_loop_length in Hb.
  rewrite (total_cycles_formula Hne). unfold base_cycles, sum_stalls, MAX_INSTR in *.
  lia.
Qed.

Lemma hazard_free_rule (prog : list Instr) (i : nat) (c : Instr) :
  hazard_free prog -> nth_error prog i = Some c ->
  stallsRequired c (before prog i 1) (before prog i 2) = 0.
Proof.
  intros Hf Hc.
  assert (H1 : forall p, before prog i 1 = Some p -> ~ In (rd p) (sources c))
    by (intros p E; exact (Hf i 1%nat c p (or_introl eq_refl) Hc E)).
  assert (H2 : forall p, before prog i 2 = Some p -> ~ In (rd p) (sources c))
    by (intros p E; exact (Hf i 2%nat c p (or_intror eq_refl) Hc E)).
  unfold stallsRequired, writes_source.
  destruct (before prog i 1) as [p1|]; destruct (before prog i 2) as [p2|];
    repeat (destruct (in_dec _ _ _) as [?Hin|?Hin];
            [exfalso; first [now apply (H1 _ eq_refl) | now apply (H2 _ eq_refl)] |]);
    reflexivity.
Qed.

Lemma hazard_free_stalls (prog : list Instr) :
  forallb valid_instr prog = true -> hazard_free prog ->
  forall i, stalls_at prog i = 0.
Proof.
  intros Hv Hf i.
  destruct (nth_error prog i) as [c|] eqn:E.
  - rewrite (stalls_at_rule prog i Hv E). now apply hazard_free_rule.
  - unfold stalls_at. apply nth_overflow.
    unfold stalls. rewrite stalls_loop_length. now apply nth_error_None.
Qed.

Lemma fold_add_zero (l : list Z) :
  (forall i, nth i l 0 = 0) -> fold_left Z.add l 0 = 0.
Proof.
  intros H.
  assert (Hb : forall i, 0 <= nth i l 0 <= 2) by (intros i; rewrite H; lia).
  induction l as [|x l IH]; [reflexivity|].
  pose proof (H 0%nat) as H0. simpl in H0. subst x. simpl.
  apply IH; intros i; [apply (H (S i)) | apply (Hb (S i))].
Qed.

(** Without hazards the calculator reports [N + 4] cycles. *)
Lemma hazard_free_total_cycles (prog : list Instr) :
  valid_program prog -> hazard_free prog ->
  sum_stalls prog = 0 /\ total_cycles prog = Z.of_nat (List.length prog) + 4.
Proof.
  intros [[Hlo _] Hv] Hf.
  assert (Hne : prog <> []) by (destruct prog; [simpl in Hlo; lia | discriminate]).
  assert (Hs : sum_stalls prog = 0).
  { apply fold_add_zero. apply (hazard_free_stalls Hv Hf). }
  split; [exact Hs|].
  rewrite (total_cycles_formula Hne), Hs. unfold base_cycles. lia.
Qed.

End TimelineFacts.

(** ** The state machine of the cycle simulator *)

Module SimulatorFacts.
Import Isa IsaFacts Simulator.

#[local] Arguments needed_stalls_for_id : simpl never.
#[local] Arguments Z.mul : simpl never.
#[local] Arguments Z.add : simpl never.
#[local] Arguments Z.sub : simpl never.
#[local] Arguments Z.eqb : simpl never.
#[local] Arguments Z.geb : simpl never.
#[local] Arguments Z.gtb : simpl never.
#[local] Arguments Z.ltb : simpl never.
#[local] Arguments tick : simpl never.
#[local] Arguments write_back : simpl never.
#[local] Arguments move_mem_wb : simpl never.
#[local] Arguments move_ex_mem : simpl never.
#[local] Arguments move_id_ex : simpl never.
#[local] Arguments move_if_id : simpl never.
#[local] Arguments fetch : simpl never.
#[local] Arguments stall_cycle : simpl never.
#[local] Arguments hazard_check : simpl never.
#[local] Arguments shift : simpl never.
#[local] Arguments required : simpl never.
#[local] Arguments step : simpl never.

Lemma needed_cases (id ex mem : Z) (prog : list Instr) :
  needed_stalls_for_id id ex mem prog = 0
  \/ (needed_stalls_for_id id ex mem prog = 1 /\ id >= 0 /\ mem >= 0)
  \/ (needed_stalls_for_id id ex mem prog = 2 /\ id >= 0 /\ ex >= 0).
Proof.
  unfold needed_stalls_for_id.
  destruct (Z.ltb_spec id 0); auto.
  destruct (Z.geb_spec ex 0); simpl.
  - destruct (reg_in_sources _ _); [right; right; lia|].
    destruct (Z.geb_spec mem 0); simpl; auto.
    destruct (reg_in_sources _ _); [right; left; lia | auto].
  - destruct (Z.geb_spec mem 0); simpl; auto.
    destruct (reg_in_sources _ _); [right; left; lia | auto].
Qed.

(** Decide one test of the goal, or of a hypothesis, from the context. *)
Ltac settle_goal :=
  match goal with
  | |- context [if ?b then _ else _] =>
      first [ replace b with true by lia | replace b with false by lia ]
  end.

Ltac settle_hyp :=
  match goal with
  | H : context [if ?b then _ else _] |- _ =>
      first [ replace b with true in H by lia
            | replace b with false in H by lia ]
  end.

Ltac settle := repeat (simpl; settle_goal); simpl.
Ltac settle_all :=
  repeat (simpl in *; first [settle_goal | settle_hyp]); simpl in *.

(** Split on a test that the context leaves open. *)
Ltac split_test :=
  match goal with
  | |- context [if ?b then _ else _] =>
      let E := fresh "E" in destruct b eqn:E
  end.

Ltac splits := repeat match goal with |- _ /\ _ => split end.

(** Split on which slots are occupied. *)
Ltac slot_cases H :=
  simpl in H;
  repeat match type of H with
         | if ?q >=? 0 then _ else _ =>
             destruct (Z.geb_spec q 0); destruct H as [? H]
         end.

Ltac norm_state :=
  cbv beta iota delta
    [set_pIF set_pID set_pEX set_pMEM set_pWB set_pc set_completed
     set_total_stalls set_cycle set_stall_counter
     pIF pID pEX pMEM pWB pc completed total_stalls cycle stall_counter].

Ltac by_tests :=
  repeat (settle; try split_test); norm_state; try (f_equal; lia).

(** *** The phases of the loop body on well-formed slots *)

Lemma write_back_wf (s : State) :
  -1 <= pWB s ->
  write_back s
  = set_pWB (-1) (set_completed (completed s + occ (pWB s)) s).
Proof.
  destruct s as [f d e m w p cp ts cy sc]; unfold write_back, occ; simpl.
  intros H. by_tests.
Qed.

Lemma move_mem_wb_wf (s : State) :
  pWB s = -1 -> -1 <= pMEM s ->
  move_mem_wb s = set_pMEM (-1) (set_pWB (pMEM s) s).
Proof.
  destruct s as [f d e m w p cp ts cy sc]; unfold move_mem_wb; simpl.
  intros H1 H2. by_tests.
Qed.

Lemma move_ex_mem_wf (s : State) :
  pMEM s = -1 -> -1 <= pEX s ->
  move_ex_mem s = set_pEX (-1) (set_pMEM (pEX s) s).
Proof.
  destruct s as [f d e m w p cp ts cy sc]; unfold move_ex_mem; simpl.
  intros H1 H2. by_tests.
Qed.

Lemma move_id_ex_wf (s : State) :
  pEX s = -1 -> -1 <= pID s ->
  move_id_ex s = set_pID (-1) (set_pEX (pID s) s).
Proof.
  destruct s as [f d e m w p cp ts cy sc]; unfold move_id_ex; simpl.
  intros H1 H2. by_tests.
Qed.

Lemma move_if_id_wf (s : State) :
  pID s = -1 -> -1 <= pIF s ->
  move_if_id s = set_pIF (-1) (set_pID (pIF s) s).
Proof.
  destruct s as [f d e m w p cp ts cy sc]; unfold move_if_id; simpl.
  intros H1 H2. by_tests.
Qed.

(** A stall cycle, once Write-back has been emptied. *)
Lemma stall_cycle_wf (s : State) :
  wf_slots s -> pWB s = -1 ->
  stall_cycle s
  = mkState (pIF s) (pID s) (-1) (pEX s) (pMEM s) (pc s) (completed s)
      (total_stalls s + 1) (cycle s) (stall_counter s - 1).
Proof.
  intros (Hf & Hd & He & Hm & Hw) Hw1. unfold stall_cycle.
  rewrite (move_mem_wb_wf s Hw1 Hm).
  rewrite move_ex_mem_wf by (simpl; auto).
  destruct s; reflexivity.
Qed.

(** The four moves and the fetch, once Write-back has been emptied. *)
Lemma shift_wf (n : Z) (s : State) :
  wf_slots s -> pWB s = -1 ->
  shift n s
  = mkState (if pc s <? n then pc s else -1) (pIF s) (pID s) (pEX s) (pMEM s)
      (if pc s <? n then pc s + 1 else pc s) (completed s)
      (total_stalls s) (cycle s) (stall_counter s).
Proof.
  intros (Hf & Hd & He & Hm & Hw) Hw1. unfold shift.
  rewrite (move_mem_wb_wf s Hw1 Hm).
  rewrite move_ex_mem_wf by (simpl; auto).
  rewrite move_id_ex_wf by (simpl; auto).
  rewrite move_if_id_wf by (simpl; auto).
  unfold fetch. destruct s as [f d e m w p cp ts cy sc]; simpl.
  destruct (p <? n); reflexivity.
Qed.

(** The hazard check when the slots of Decode and Execute differ. *)
Lemma hazard_check_plain (prog : list Instr) (s : State) :
  (pID s >= 0 -> pEX s <> pID s) -> stall_counter s = 0 ->
  undo_taken prog s = false
  /\ hazard_check prog s = set_stall_counter (required prog s) s.
Proof.
  intros Hne Hsc. unfold undo_taken, hazard_check, required.
  destruct (needed_cases (pID s) (pEX s) (pMEM s) prog) as [R|[[R ?]|[R ?]]];
    rewrite R; destruct s as [f d e m w p cp ts cy sc]; simpl in *; subst;
    (split; [by_tests | by_tests]).
Qed.

Lemma inv_wf_slots (prog : list Instr) (s : State) :
  Inv prog s -> wf_slots s.
Proof.
  intros [Ho Hc _ _ _ _ _ _]. unfold wf_slots.
  destruct s as [f d e m w p cp ts cy sc]; simpl in *.
  slot_cases Ho; lia.
Qed.

Lemma inv_if_id_differ (prog : list Instr) (s : State) :
  Inv prog s -> pIF s >= 0 -> pID s <> pIF s.
Proof.
  intros [Ho Hc _ _ _ _ _ _].
  destruct s as [f d e m w p cp ts cy sc]; simpl in *.
  slot_cases Ho; lia.
Qed.

Lemma step_stall (prog : list Instr) (s : State) :
  Inv prog s -> stall_counter s > 0 -> step prog s = stall_result s.
Proof.
  intros HI Hsc. pose proof (inv_wf_slots HI) as (Hf & Hd & He & Hm & Hw).
  unfold step. rewrite write_back_wf by (simpl; auto).
  cbv zeta. replace (stall_counter _ >? 0) with true by (simpl; lia).
  rewrite stall_cycle_wf by (unfold wf_slots; simpl; auto with zarith).
  destruct s; reflexivity.
Qed.

Lemma step_normal (prog : list Instr) (s : State) :
  Inv prog s -> stall_counter s = 0 -> step prog s = normal_result prog s.
Proof.
  intros HI Hsc. pose proof (inv_wf_slots HI) as (Hf & Hd & He & Hm & Hw).
  pose proof (inv_if_id_differ HI) as Hne.
  unfold step. rewrite write_back_wf by (simpl; auto).
  cbv zeta. replace (stall_counter _ >? 0) with false by (simpl; lia).
  rewrite shift_wf by (unfold wf_slots; simpl; auto with zarith).
  match goal with
  | |- hazard_check prog ?t = _ =>
      destruct (@hazard_check_plain prog t) as [_ ->]
  end.
  - simpl. intros H E. apply Hne; congruence.
  - simpl. exact Hsc.
  - unfold required. destruct s; reflexivity.
Qed.

Lemma init_inv (prog : list Instr) : 1 <= len prog -> Inv prog init.
Proof.
  intros Hn. constructor; unfold phase, occ; simpl; try lia.
  replace (0 <? len prog) with true by lia. lia.
Qed.

Lemma step_inv (prog : list Instr) (s : State) :
  Inv prog s -> completed s < len prog -> Inv prog (step prog s).
Proof.
  intros HI Hlt.
  assert (Hsc : stall_counter s = 0 \/ stall_counter s > 0)
    by (destruct (inv_sc HI); lia).
  destruct Hsc as [Hsc|Hsc].
  - rewrite (step_normal HI Hsc).
    destruct HI as [Ho Hc Hp Hs Hs2 Hs1 Hcy Hst].
    destruct s as [f d e m w p cp ts cy sc]; simpl in *.
    unfold normal_result, phase, occ in *; simpl in *.
    destruct (needed_cases f d e prog) as [R|[[R ?]|[R ?]]]; rewrite R;
      destruct (Z.ltb_spec p (len prog)) as [Hpn|Hpn];
      slot_cases Ho; subst; try lia;
      (constructor; unfold phase, occ; settle_all;
       repeat (split_test; settle_all); lia).
  - rewrite (step_stall HI Hsc).
    destruct HI as [Ho Hc Hp Hs Hs2 Hs1 Hcy Hst].
    destruct s as [f d e m w p cp ts cy sc]; simpl in *.
    unfold stall_result, phase, occ in *; simpl in *.
    assert (Hsc' : sc = 1 \/ sc = 2) by lia.
    destruct Hsc' as [-> | ->];
      destruct (Z.ltb_spec p (len prog)) as [Hpn|Hpn];
      slot_cases Ho; subst; try lia;
      (constructor; unfold phase, occ; settle_all;
       repeat (split_test; settle_all); lia).
Qed.

(** The simulator's hazard check is the hazard rule, applied to the
    instruction in Decode and the occupants of Execute and Memory. *)
Lemma needed_rule (prog : list Instr) (id ex mem : Z) :
  0 <= id ->
  needed_stalls_for_id id ex mem prog
  = stallsRequired (prog_at prog id) (slot_instr prog ex) (slot_instr prog mem).
Proof.
  intros Hid.
  unfold needed_stalls_for_id, stallsRequired, writes_source, slot_instr.
  replace (id <? 0) with false by lia.
  rewrite !reg_in_sources_dec.
  destruct (ex >=? 0); destruct (mem >=? 0); simpl;
    repeat (destruct (in_dec _ _ _) as [?Hin|?Hin]); reflexivity.
Qed.

Lemma inv_final_fetch (prog : list Instr) (s : State) :
  Inv prog s -> completed s = len prog -> pIF s = -1.
Proof.
  intros [Ho Hc Hp _ _ _ _ _] Hfin.
  destruct s as [f d e m w p cp ts cy sc]; simpl in *.
  slot_cases Ho; lia.
Qed.

Lemma reachable_inv (prog : list Instr) (s : State) :
  1 <= len prog -> reachable prog s -> Inv prog s.
Proof.
  intros Hn Hr. induction Hr as [|s Hr IH Hlt].
  - now apply init_inv.
  - now apply step_inv.
Qed.

(** Every index the simulator uses to read [prog[]] is in range. *)
Lemma reads_in_range (prog : list Instr) (s : State) :
  Inv prog s ->
  Forall (fun q => q = -1 \/ 0 <= q < len prog)
    [pIF s; pID s; pEX s; pMEM s; pWB s].
Proof.
  intros [Ho Hc Hp _ _ _ _ _].
  destruct s as [f d e m w p cp ts cy sc]; simpl in *.
  slot_cases Ho; subst;
    repeat (apply Forall_cons; [lia|]); apply Forall_nil.
Qed.

Lemma completed_step (prog : list Instr) (s : State) :
  Inv prog s -> completed (step prog s) = completed s + occ (pWB s).
Proof.
  intros HI.
  assert (Hsc : stall_counter s = 0 \/ stall_counter s > 0)
    by (destruct (inv_sc HI); lia).
  destruct Hsc as [Hsc|Hsc];
    [rewrite (step_normal HI Hsc) | rewrite (step_stall HI Hsc)]; reflexivity.
Qed.

Lemma completed_le_pc (prog : list Instr) (s : State) :
  Inv prog s -> completed s <= pc s.
Proof.
  intros [Ho Hc _ _ _ _ _ _].
  destruct s as [f d e m w p cp ts cy sc]; simpl in *.
  slot_cases Ho; lia.
Qed.

(** When the loop exits, the pipeline is empty. *)
Lemma inv_final (prog : list Instr) (s : State) :
  Inv prog s -> completed s = len prog ->
  pc s = len prog /\ occupants s = [] /\ stall_counter s = 0
  /\ cycle s = len prog + 5 + total_stalls s
  /\ 0 <= total_stalls s <= 2 * len prog.
Proof.
  intros [Ho Hc Hp Hs Hs2 Hs1 Hcy Hst] Hfin. unfold occupants.
  destruct s as [f d e m w p cp ts cy sc]; simpl in *.
  unfold phase, occ in *; simpl in *.
  slot_cases Ho; subst; try lia; settle_all;
    splits; try reflexivity; lia.
Qed.

(** The variant decreases with every iteration. *)
Lemma step_measure (prog : list Instr) (s : State) :
  Inv prog s -> completed s < len prog ->
  0 <= measure (len prog) (step prog s) < measure (len prog) s.
Proof.
  intros HI Hlt.
  assert (Hsc : stall_counter s = 0 \/ stall_counter s > 0)
    by (destruct (inv_sc HI); lia).
  destruct Hsc as [Hsc|Hsc].
  - rewrite (step_normal HI Hsc).
    destruct HI as [Ho Hc Hp Hs Hs2 Hs1 Hcy Hst].
    destruct s as [f d e m w p cp ts cy sc]; simpl in *.
    unfold measure, normal_result, phase, occ in *; simpl in *.
    destruct (needed_cases f d e prog) as [R|[[R ?]|[R ?]]]; rewrite R;
      destruct (Z.ltb_spec p (len prog)) as [Hpn|Hpn];
      slot_cases Ho; subst; try lia;
      settle_all; repeat (split_test; settle_all); lia.
  - rewrite (step_stall HI Hsc).
    destruct HI as [Ho Hc Hp Hs Hs2 Hs1 Hcy Hst].
    destruct s as [f d e m w p cp ts cy sc]; simpl in *.
    unfold measure, stall_result, phase, occ in *; simpl in *.
    destruct (Z.ltb_spec p (len prog)) as [Hpn|Hpn];
      slot_cases Ho; subst; try lia;
      settle_all; repeat (split_test; settle_all); lia.
Qed.

Lemma iter_shift (prog : list Instr) (k : nat) (s : State) :
  iter prog (S k) s = iter prog k (step prog s).
Proof. induction k as [|k IH]; simpl in *; congruence. Qed.

Lemma iter_add (prog : list Instr) (j d : nat) (s : State) :
  iter prog (j + d) s = iter prog d (iter prog j s).
Proof.
  induction d as [|d IH]; simpl.
  - now rewrite Nat.add_0_r.
  - rewrite Nat.add_succ_r. simpl. now rewrite IH.
Qed.

(** The loop returns: with enough fuel, [run] stops after some number
    [k] of iterations, at the first state whose [completed] is [n]. *)
Lemma run_terminates (prog : list Instr) :
  forall (fuel : nat) (s : State),
    Inv prog s -> measure (len prog) s <= Z.of_nat fuel ->
    exists k : nat,
      (k <= fuel)%nat
      /\ run prog fuel s = Some (iter prog k s)
      /\ completed (iter prog k s) = len prog
      /\ (forall j, (j < k)%nat -> completed (iter prog j s) < len prog)
      /\ (forall j, (j <= k)%nat -> Inv prog (iter prog j s)).
Proof.
  induction fuel as [|fuel IH]; intros s HI Hm.
  - destruct (Z.ltb_spec (completed s) (len prog)) as [Hlt|Hge].
    + pose proof (step_measure HI Hlt). simpl in Hm. lia.
    + exists 0%nat. simpl.
      replace (completed s <? len prog) with false by lia.
      pose proof (completed_le_pc HI). pose proof (inv_pc HI).
      splits; auto; try lia.
      intros j Hj. now replace j with 0%nat by lia.
  - destruct (Z.ltb_spec (completed s) (len prog)) as [Hlt|Hge].
    + pose proof (step_measure HI Hlt) as Hd.
      destruct (IH (step prog s) (step_inv HI Hlt)) as (k & Hk & Hrun & Hfin & Hbefore & Hinv);
        [lia|].
      exists (S k). rewrite iter_shift.
      splits; auto; try lia.
      * simpl. replace (completed s <? len prog) with true by lia. exact Hrun.
      * intros [|j] Hj; [exact Hlt|]. rewrite iter_shift. apply Hbefore. lia.
      * intros [|j] Hj; [exact HI|]. rewrite iter_shift. apply Hinv. lia.
    + exists 0%nat. simpl.
      replace (completed s <? len prog) with false by lia.
      pose proof (completed_le_pc HI). pose proof (inv_pc HI).
      splits; auto; try lia.
      intros j Hj. now replace j with 0%nat by lia.
Qed.

Lemma measure_init (prog : list Instr) :
  1 <= len prog -> measure (len prog) init = Z.of_nat (fuel_for prog).
Proof.
  intros Hn. unfold measure, phase, fuel_for, len in *. simpl.
  replace (0 <? Z.of_nat (List.length prog)) with true by lia. lia.
Qed.

(** [main] returns for every non-empty program, and the state it ends in
    is the one reached by iterating the loop body. *)
Lemma simulate_total (prog : list Instr) :
  1 <= len prog ->
  exists k : nat,
    simulate prog = Some (iter prog k init)
    /\ completed (iter prog k init) = len prog
    /\ (forall j, (j < k)%nat -> completed (iter prog j init) < len prog)
    /\ (forall j, (j <= k)%nat -> Inv prog (iter prog j init)).
Proof.
  intros Hn.
  destruct (@run_terminates prog (fuel_for prog) init (init_inv prog Hn))
    as (k & Hk & Hrun & Hfin & Hbefore & Hinv).
  - rewrite measure_init; auto. lia.
  - exists k. splits; auto.
    unfold simulate. destruct prog; [unfold len in Hn; simpl in Hn; lia | exact Hrun].
Qed.

(** The cycle count of a finished run: one cycle per instruction, five
    more until the last one has retired, and the stall cycles. *)
Lemma simulate_cycles (prog : list Instr) (final : State) :
  simulate prog = Some final ->
  cycle final = len prog + 5 + total_stalls final
  /\ 0 <= total_stalls final <= 2 * len prog
  /\ completed final = len prog.
Proof.
  intros Hsim.
  assert (Hn : 1 <= len prog).
  { destruct prog; [discriminate | unfold len; simpl; lia]. }
  destruct (simulate_total prog Hn) as (k & Hrun & Hfin & _ & Hinv).
  rewrite Hrun in Hsim. injection Hsim as <-.
  destruct (inv_final (Hinv k (le_n k)) Hfin) as (_ & _ & _ & Hc & Hs).
  auto.
Qed.

(** No counter of the simulator leaves the range of a C [int]. *)
Lemma counters_in_int_range (prog : list Instr) (s : State) :
  valid_program prog -> Inv prog s ->
  0 <= cycle s <= 3 * MAX_INSTR + 5
  /\ 0 <= total_stalls s <= 2 * MAX_INSTR
  /\ 0 <= completed s <= pc s /\ pc s <= MAX_INSTR
  /\ 3 * MAX_INSTR + 5 < 2 ^ 31.
Proof.
  intros [[Hlo Hhi] _] [Ho Hc Hp Hs Hs2 Hs1 Hcy Hst].
  fold (len prog) in Hlo, Hhi. unfold MAX_INSTR in *.
  destruct s as [f d e m w p cp ts cy sc]; simpl in *.
  unfold phase, occ in *; simpl in *.
  slot_cases Ho; subst; settle_all; repeat (split_test; settle_all); lia.
Qed.

(** *** Progress: the next retirement is at most six cycles away *)

Lemma dist_range (s : State) : 1 <= dist s <= 6.
Proof. unfold dist. repeat (settle; try split_test); lia. Qed.

Lemma dist_step (prog : list Instr) (s : State) :
  Inv prog s -> completed s < len prog -> pWB s < 0 ->
  dist (step prog s) < dist s.
Proof.
  intros HI Hlt Hw.
  assert (Hsc : stall_counter s = 0 \/ stall_counter s > 0)
    by (destruct (inv_sc HI); lia).
  destruct Hsc as [Hsc|Hsc].
  - rewrite (step_normal HI Hsc).
    destruct HI as [Ho Hc Hp Hs Hs2 Hs1 _ _].
    destruct s as [f d e m w p cp ts cy sc]; simpl in *.
    unfold dist, normal_result; simpl.
    destruct (Z.ltb_spec p (len prog)) as [Hpn|Hpn];
      slot_cases Ho; subst; try lia; settle; lia.
  - rewrite (step_stall HI Hsc).
    destruct HI as [Ho Hc Hp Hs Hs2 Hs1 _ _].
    destruct s as [f d e m w p cp ts cy sc]; simpl in *.
    unfold dist, stall_result; simpl.
    slot_cases Ho; subst; try lia; settle; lia.
Qed.

Lemma progress (prog : list Instr) :
  forall (d : nat) (s : State),
    Inv prog s -> completed s < len prog -> dist s <= Z.of_nat d ->
    exists j : nat,
      (1 <= j <= d)%nat
      /\ completed (iter prog j s) = completed s + 1
      /\ (forall i, (i < j)%nat -> completed (iter prog i s) = completed s).
Proof.
  induction d as [|d IH]; intros s HI Hlt Hd.
  - pose proof (dist_range s). lia.
  - destruct (Z.ltb_spec (pWB s) 0) as [Hw|Hw].
    + pose proof (dist_step HI Hlt Hw) as Hds.
      assert (Hc : completed (step prog s) = completed s).
      { rewrite (completed_step HI). unfold occ.
        replace (pWB s >=? 0) with false by lia. lia. }
      destruct (IH (step prog s) (step_inv HI Hlt)) as (j & Hj & Hinc & Hsame);
        [lia | lia |].
      exists (S j). rewrite iter_shift. splits; try lia.
      intros [|i] Hi; [reflexivity|]. rewrite iter_shift, Hsame; [lia | lia].
    + exists 1%nat. splits; try lia.
      * simpl. rewrite (completed_step HI). unfold occ.
        replace (pWB s >=? 0) with true by lia. lia.
      * intros i Hi. now replace i with 0%nat by lia.
Qed.

(** *** Slot occupancy *)

Lemma occupants_NoDup (prog : list Instr) (s : State) :
  Inv prog s -> NoDup (occupants s).
Proof.
  intros [Ho Hc _ _ _ _ _ _]. unfold occupants.
  destruct s as [f d e m w p cp ts cy sc]; simpl in *.
  slot_cases Ho; subst; settle;
    repeat (apply NoDup_cons; [simpl; lia|]); apply NoDup_nil.
Qed.

(** One cycle moves an instruction by at most one stage; only an
    instruction in Fetch or Decode can be held, and only by a stall. *)
Lemma pos_step (prog : list Instr) (s : State) (i : Z) :
  Inv prog s -> completed s < len prog -> 0 <= i < len prog ->
  (pos (step prog s) i = pos s i \/ pos (step prog s) i = pos s i + 1)
  /\ (pos (step prog s) i = pos s i ->
      pos s i = 0 \/ pos s i = 6
      \/ ((pos s i = 1 \/ pos s i = 2) /\ stall_counter s > 0)).
Proof.
  intros HI Hlt Hi.
  assert (Hsc : stall_counter s = 0 \/ stall_counter s > 0)
    by (destruct (inv_sc HI); lia).
  destruct Hsc as [Hsc|Hsc].
  - rewrite (step_normal HI Hsc).
    destruct HI as [Ho Hc Hp _ _ _ _ _].
    destruct s as [f d e m w p cp ts cy sc]; simpl in *.
    unfold pos, normal_result, occ; simpl.
    destruct (Z.ltb_spec p (len prog)) as [Hpn|Hpn];
      slot_cases Ho; subst; try lia;
      repeat (settle; try split_test); lia.
  - rewrite (step_stall HI Hsc).
    destruct HI as [Ho Hc Hp _ _ _ _ _].
    destruct s as [f d e m w p cp ts cy sc]; simpl in *.
    unfold pos, stall_result, occ; simpl.
    slot_cases Ho; subst; try lia;
      repeat (settle; try split_test); lia.
Qed.

Lemma pos_init (i : Z) : 0 <= i -> pos init i = 0.
Proof. intros Hi. unfold pos; simpl. settle. reflexivity. Qed.

Lemma pos_final (prog : list Instr) (s : State) (i : Z) :
  Inv prog s -> completed s = len prog -> 0 <= i < len prog -> pos s i = 6.
Proof.
  intros [Ho Hc Hp _ _ _ _ _] Hfin Hi.
  destruct s as [f d e m w p cp ts cy sc]; simpl in *.
  unfold pos; simpl.
  slot_cases Ho; subst; try lia; settle; reflexivity.
Qed.

(** A sequence that starts at [a], ends at [b] and climbs by at most one
    per step takes every value in between. *)
Lemma climbs_through (g : nat -> Z) :
  forall (k : nat) (v : Z),
    (forall j, (j < k)%nat -> g (S j) = g j \/ g (S j) = g j + 1) ->
    g 0%nat <= v <= g k ->
    exists j, (j <= k)%nat /\ g j = v.
Proof.
  induction k as [|k IH]; intros v Hstep Hv.
  - exists 0%nat. split; [lia | lia].
  - destruct (Z.eq_dec v (g (S k))) as [->|Hne].
    + exists (S k). split; [lia | reflexivity].
    + destruct (IH v) as (j & Hj & Hg).
      * intros j Hj. apply Hstep. lia.
      * destruct (Hstep k (Nat.lt_succ_diag_r k)); lia.
      * exists j. split; [lia | exact Hg].
Qed.

(** *** Programs without hazards *)

Lemma hazard_free_reg (prog : list Instr) (q f : Z) :
  Timeline.hazard_free prog ->
  0 <= q -> q < f -> f < len prog -> f - q <= 2 ->
  reg_in_sources (rd (prog_at prog q)) (prog_at prog f) = false.
Proof.
  intros Hf Hq Hqf Hfn Hd.
  destruct (reg_in_sources _ _) eqn:E; [exfalso | reflexivity].
  apply reg_in_sources_In in E. revert E.
  apply (Hf (Z.to_nat f) (Z.to_nat (f - q))).
  - lia.
  - apply nth_error_nth'. unfold len in Hfn. lia.
  - unfold Timeline.before.
    replace (Z.to_nat f <? Z.to_nat (f - q))%nat with false by lia.
    replace (Z.to_nat f - Z.to_nat (f - q))%nat with (Z.to_nat q) by lia.
    apply nth_error_nth'. unfold len in Hfn. lia.
Qed.

Lemma hazard_free_needed (prog : list Instr) (s : State) :
  Timeline.hazard_free prog -> Inv prog s ->
  needed_stalls_for_id (pIF s) (pID s) (pEX s) prog = 0.
Proof.
  intros Hf [Ho Hc Hp _ _ _ _ _]. unfold needed_stalls_for_id.
  destruct s as [f d e m w p cp ts cy sc]; simpl in *.
  destruct (Z.ltb_spec f 0) as [Hneg|Hpos]; [reflexivity|].
  assert (Hd : d >= 0 -> reg_in_sources (rd (prog_at prog d)) (prog_at prog f) = false).
  { intros Hd. apply hazard_free_reg; auto; slot_cases Ho; lia. }
  assert (He : e >= 0 -> reg_in_sources (rd (prog_at prog e)) (prog_at prog f) = false).
  { intros He. apply hazard_free_reg; auto; slot_cases Ho; lia. }
  destruct (Z.geb_spec d 0); [rewrite Hd by lia|];
    (destruct (Z.geb_spec e 0); [rewrite He by lia|]); reflexivity.
Qed.

Lemma hazard_free_reachable (prog : list Instr) (s : State) :
  1 <= len prog -> Timeline.hazard_free prog -> reachable prog s ->
  total_stalls s = 0 /\ stall_counter s = 0.
Proof.
  intros Hn Hf Hr. induction Hr as [|s Hr [IHt IHs] Hlt].
  - split; reflexivity.
  - pose proof (reachable_inv Hn Hr) as HI.
    rewrite (step_normal HI IHs). simpl.
    split; [exact IHt | now apply hazard_free_needed].
Qed.

Lemma iter_reachable (prog : list Instr) (k : nat) :
  (forall j, (j < k)%nat -> completed (iter prog j init) < len prog) ->
  forall j, (j <= k)%nat -> reachable prog (iter prog j init).
Proof.
  intros Hlt j. induction j as [|j IH]; intros Hj.
  - apply reach_init.
  - simpl. apply reach_step; [apply IH | apply Hlt]; lia.
Qed.

(** Without hazards the simulator stops after [N + 5] cycles. *)
Lemma hazard_free_simulate (prog : list Instr) :
  1 <= len prog -> Timeline.hazard_free prog ->
  exists final,
    simulate prog = Some final
    /\ total_stalls final = 0 /\ cycle final = len prog + 5.
Proof.
  intros Hn Hf.
  destruct (simulate_total prog Hn) as (k & Hrun & Hfin & Hbefore & Hinv).
  exists (iter prog k init). split; [exact Hrun|].
  destruct (hazard_free_reachable Hn Hf (@iter_reachable prog k Hbefore k (le_n k)))
    as [Ht _].
  destruct (inv_final (Hinv k (le_n k)) Hfin) as (_ & _ & _ & Hc & _).
  split; [exact Ht | lia].
Qed.

End SimulatorFacts.

(** ** The simulator against the calculator *)

Module Agreement.
Import Isa IsaFacts Timeline TimelineFacts Simulator SimulatorFacts.

#[local] Arguments needed_stalls_for_id : simpl never.
#[local] Arguments sim_stall : simpl never.
#[local] Arguments Z.of_nat : simpl never.
#[local] Arguments Z.to_nat : simpl never.
#[local] Arguments Z.sub : simpl never.
#[local] Arguments Z.add : simpl never.
#[local] Arguments Z.eqb : simpl never.
#[local] Arguments Z.geb : simpl never.
#[local] Arguments Z.ltb : simpl never.

Lemma sim_stall_succ (prog : list Instr) (f : Z) :
  1 <= f ->
  sim_stall prog (Z.to_nat f)
  = needed_stalls_for_id f (f - 1)
      (if sim_stall prog (Z.to_nat (f - 1)) =? 0 then f - 1 - 1 else -1) prog.
Proof.
  intros Hf. replace (Z.to_nat f) with (S (Z.to_nat (f - 1))) by lia.
  unfold sim_stall at 1. fold (sim_stall prog (Z.to_nat (f - 1))).
  replace (Z.of_nat (S (Z.to_nat (f - 1)))) with f by lia.
  replace (Z.of_nat (Z.to_nat (f - 1))) with (f - 1) by lia.
  reflexivity.
Qed.

Lemma sum_upto_succ (g : nat -> Z) (k : Z) :
  0 <= k ->
  sum_upto g (Z.to_nat (k + 1)) = sum_upto g (Z.to_nat k) + g (Z.to_nat k).
Proof.
  intros Hk. replace (Z.to_nat (k + 1)) with (S (Z.to_nat k)) by lia.
  reflexivity.
Qed.

(** The hazard check of a normal cycle returns the stall charged to the
    instruction that enters Decode. *)
Lemma needed_is_sim_stall (prog : list Instr) (s : State) :
  Inv prog s -> Inv2 prog s -> stall_counter s = 0 ->
  needed_stalls_for_id (pIF s) (pID s) (pEX s) prog
  = if pIF s >=? 0 then sim_stall prog (Z.to_nat (pIF s)) else 0.
Proof.
  intros [Ho Hc _ _ _ _ _ _] [Jif _ _ _ Jex] Hsc.
  destruct s as [f d e m w p cp ts cy sc]; simpl in *.
  destruct (Z.geb_spec f 0) as [Hf|Hf].
  - specialize (Jif ltac:(lia)). subst d.
    destruct (Z.eq_dec f 0) as [->|Hf0].
    + assert (e = -1) by (slot_cases Ho; lia). subst e. reflexivity.
    + rewrite sim_stall_succ by lia. rewrite (Jex Hsc) by lia. reflexivity.
  - unfold needed_stalls_for_id. now replace (f <? 0) with true by lia.
Qed.

Ltac settle_tests :=
  repeat match goal with
         | |- context [?a >=? 0] =>
             first [ replace (a >=? 0) with true by lia
                   | replace (a >=? 0) with false by lia ]
         end.

(** Close a goal about [sum_upto] with an equation whose bound is equal. *)
Ltac to_sum H :=
  match type of H with
  | _ = sum_upto _ (Z.to_nat ?b) =>
      match goal with
      | |- _ = sum_upto _ (Z.to_nat ?a) =>
          replace a with b by lia; rewrite <- H; lia
      end
  end.

Lemma init_inv2 (prog : list Instr) : Inv2 prog init.
Proof.
  constructor; simpl; intros; try lia; reflexivity.
Qed.

Lemma step_inv2 (prog : list Instr) (s : State) :
  Inv prog s -> Inv2 prog s -> completed s < len prog ->
  Inv2 prog (step prog s).
Proof.
  intros HI HJ Hlt.
  assert (Hsc : stall_counter s = 0 \/ stall_counter s > 0)
    by (destruct (inv_sc HI); lia).
  destruct Hsc as [Hsc|Hsc].
  - rewrite (step_normal HI Hsc).
    pose proof (needed_is_sim_stall HI HJ Hsc) as Hr.
    pose proof (inv_wf_slots HI) as (Hwf & _).
    pose proof (inv_pc HI) as Hp.
    assert (Hfp : pIF s >= 0 -> pIF s = pc s - 1).
    { destruct HI as [Ho Hc _ _ _ _ _ _].
      destruct s as [f d e m w p cp ts cy sc]; simpl in *.
      intros Hf. slot_cases Ho; lia. }
    destruct HJ as [Jif Jfetch Jsum Jbusy Jex].
    rewrite Hsc in Jsum. unfold normal_result, occ in *. rewrite Hr.
    destruct (Z.geb_spec (pIF s) 0) as [Hf|Hf].
    + (* an instruction enters Decode and is charged its stall *)
      specialize (Hfp ltac:(lia)). specialize (Jif ltac:(lia)).
      assert (Hsum : total_stalls s + sim_stall prog (Z.to_nat (pIF s))
                     = sum_upto (sim_stall prog) (Z.to_nat (pc s))).
      { replace (pc s) with (pc s - 1 + 1) at 1 by lia.
        rewrite sum_upto_succ by lia. rewrite <- Jsum, Hfp. lia. }
      destruct (Z.ltb_spec (pc s) (len prog)) as [Hpn|Hpn];
        constructor; simpl; unfold occ; intros; try lia; settle_tests;
        first [ to_sum Hsum
              | replace (sim_stall prog (Z.to_nat (pIF s)) =? 0) with true by lia;
                lia ].
    + (* nothing enters Decode *)
      specialize (Jfetch ltac:(lia)).
      destruct (Z.ltb_spec (pc s) (len prog)) as [Hpn|Hpn];
        constructor; simpl; unfold occ; intros; try lia; settle_tests;
        to_sum Jsum.
  - rewrite (step_stall HI Hsc).
    destruct HJ as [Jif Jfetch Jsum Jbusy Jex].
    unfold stall_result. constructor; simpl; intros; auto; try lia.
    replace (sim_stall prog (Z.to_nat (pID s)) =? 0) with false; [reflexivity|].
    specialize (Jbusy Hsc). lia.
Qed.

Lemma iter_inv2 (prog : list Instr) (k : nat) :
  (forall j, (j < k)%nat -> completed (iter prog j init) < len prog) ->
  (forall j, (j <= k)%nat -> Inv prog (iter prog j init)) ->
  forall j, (j <= k)%nat -> Inv2 prog (iter prog j init).
Proof.
  intros Hlt Hinv j. induction j as [|j IH]; intros Hj.
  - apply init_inv2.
  - cbn [iter]. apply step_inv2; [apply Hinv | apply IH | apply Hlt]; lia.
Qed.

(** The stall total of a finished run is the sum of the stalls charged
    to the instructions. *)
Lemma simulate_stalls (prog : list Instr) :
  1 <= len prog ->
  exists final,
    simulate prog = Some final
    /\ total_stalls final = sum_upto (sim_stall prog) (List.length prog)
    /\ cycle final = len prog + 5 + total_stalls final.
Proof.
  intros Hn.
  destruct (simulate_total prog Hn) as (k & Hrun & Hfin & Hbefore & Hinv).
  exists (iter prog k init). split; [exact Hrun|].
  pose proof (Hinv k (le_n k)) as HI.
  pose proof (@iter_inv2 prog k Hbefore Hinv k (le_n k)) as HJ.
  destruct (inv_final HI Hfin) as (Hpc & _ & Hsc & Hcy & _).
  pose proof (inv_final_fetch HI Hfin) as Hf.
  split; [|exact Hcy].
  pose proof (j_sum HJ) as Hs. rewrite Hsc, Hpc, Hf in Hs.
  unfold occ, len in Hs. replace (-1 >=? 0) with false in Hs by lia.
  replace (Z.to_nat (Z.of_nat (List.length prog) - 0)) with (List.length prog)
    in Hs by lia.
  lia.
Qed.

Lemma stallsRequired_drop (c : Instr) (p1 p2 : option Instr) :
  stallsRequired c p1 None <= stallsRequired c p1 p2.
Proof.
  unfold stallsRequired, writes_source.
  destruct p1 as [q1|]; destruct p2 as [q2|];
    repeat (destruct (in_dec _ _ _) as [?Hin|?Hin]); lia.
Qed.

(** The simulator never charges more than the calculator, and charges
    the same unless the previous instruction was itself stalled. *)
Lemma sim_stall_le (prog : list Instr) (i : nat) :
  forallb valid_instr prog = true -> (i < List.length prog)%nat ->
  sim_stall prog i <= stalls_at prog i
  /\ (match i with
      | O => True
      | S j => sim_stall prog j = 0
      end -> sim_stall prog i = stalls_at prog i).
Proof.
  intros Hv Hi.
  rewrite (stalls_at_rule prog i Hv (nth_error_nth' prog instr0 Hi)).
  destruct i as [|j].
  - unfold before; simpl. split; [reflexivity | reflexivity].
  - assert (Hj : (j < List.length prog)%nat) by lia.
    assert (E1 : before prog (S j) 1 = slot_instr prog (Z.of_nat j)).
    { unfold before, slot_instr, prog_at.
      replace (S j <? 1)%nat with false by lia.
      replace (Z.of_nat j >=? 0) with true by lia.
      replace (S j - 1)%nat with j by lia. rewrite Nat2Z.id.
      now apply nth_error_nth'. }
    assert (E2 : before prog (S j) 2 = slot_instr prog (Z.of_nat j - 1)).
    { unfold before, slot_instr, prog_at. destruct j as [|j'].
      - reflexivity.
      - replace (S (S j') <? 2)%nat with false by lia.
        replace (Z.of_nat (S j') - 1 >=? 0) with true by lia.
        replace (S (S j') - 2)%nat with j' by lia.
        replace (Z.to_nat (Z.of_nat (S j') - 1)) with j' by lia.
        apply nth_error_nth'. lia. }
    assert (E0 : prog_at prog (Z.of_nat (S j)) = nth (S j) prog instr0)
      by (unfold prog_at; now rewrite Nat2Z.id).
    unfold sim_stall; fold (sim_stall prog j).
    rewrite needed_rule by lia. rewrite E0, E1, E2.
    destruct (Z.eqb_spec (sim_stall prog j) 0) as [Hz|Hz].
    + split; [lia | reflexivity].
    + split; [apply stallsRequired_drop | intros H; contradiction].
Qed.

Lemma sum_upto_le (g h : nat -> Z) (k : nat) :
  (forall i, (i < k)%nat -> g i <= h i) -> sum_upto g k <= sum_upto h k.
Proof.
  induction k as [|k IH]; intros H; simpl; [lia|].
  specialize (H k (Nat.lt_succ_diag_r k)) as Hk.
  assert (sum_upto g k <= sum_upto h k) by (apply IH; intros; apply H; lia).
  lia.
Qed.

Lemma sum_upto_ext (g h : nat -> Z) (k : nat) :
  (forall i, (i < k)%nat -> g i = h i) -> sum_upto g k = sum_upto h k.
Proof.
  induction k as [|k IH]; intros H; simpl; [reflexivity|].
  rewrite (H k (Nat.lt_succ_diag_r k)), IH; [reflexivity|].
  intros; apply H; lia.
Qed.

Lemma fold_add_sum_upto (l : list Z) :
  fold_left Z.add l 0 = sum_upto (fun i => nth i l 0) (List.length l).
Proof.
  induction l as [|x l IH] using rev_ind; [reflexivity|].
  rewrite fold_left_app, length_app, Nat.add_1_r. simpl.
  rewrite IH, app_nth2, Nat.sub_diag by lia. simpl.
  f_equal. apply sum_upto_ext. intros i Hi. now rewrite app_nth1.
Qed.

(** The exact relation between the two programs: the simulator's stall
    total never exceeds the calculator's, and its cycle count is the
    calculator's [WB[N-1]] plus one, minus the stalls it does not
    charge. *)
Theorem simulator_against_timeline (prog : list Instr) :
  valid_program prog ->
  exists final,
    simulate prog = Some final
    /\ total_stalls final = sum_upto (sim_stall prog) (List.length prog)
    /\ total_stalls final <= sum_stalls prog
    /\ cycle final
       = total_cycles prog + 1 - (sum_stalls prog - total_stalls final).
Proof.
  intros [[Hlo Hhi] Hv].
  assert (Hne : prog <> []) by (destruct prog; [simpl in Hlo; lia | discriminate]).
  destruct (@simulate_stalls prog Hlo) as (final & Hrun & Hts & Hcy).
  exists final. split; [exact Hrun|]. split; [exact Hts|].
  assert (Hle : total_stalls final <= sum_stalls prog).
  { rewrite Hts. unfold sum_stalls. rewrite fold_add_sum_upto.
    unfold stalls at 2. rewrite stalls_loop_length.
    apply sum_upto_le. intros i Hi. now apply sim_stall_le. }
  split; [exact Hle|].
  rewrite (total_cycles_formula Hne), Hcy. unfold base_cycles, len. lia.
Qed.

End Agreement.

(** ** The parser *)

Module ParserFacts.
Import Isa IsaFacts Parser.

#[local] Arguments parse_line : simpl never.

(** Facts about single characters are settled by running through the
    256 of them. *)
Ltac by_chars c :=
  destruct c as [[] [] [] [] [] [] [] []]; vm_compute; intros;
  solve [reflexivity | discriminate | congruence | auto].

Lemma digit_not_space c : is_digit c = true -> is_space c = false.
Proof. by_chars c. Qed.
Lemma digit_not_hash c : is_digit c = true -> is_hash c = false.
Proof. by_chars c. Qed.
Lemma digit_not_nul c : is_digit c = true -> is_nul c = false.
Proof. by_chars c. Qed.
Lemma space_not_hash c : is_space c = true -> is_hash c = false.
Proof. by_chars c. Qed.
Lemma space_not_nul c : is_space c = true -> is_nul c = false.
Proof. by_chars c. Qed.

Lemma all_app (f : ascii -> bool) (a b : string) :
  all f (a ++ b) = all f a && all f b.
Proof.
  induction a as [|c a IH]; simpl; [reflexivity|].
  now rewrite IH, andb_assoc.
Qed.

Lemma all_impl (f g : ascii -> bool) (s : string) :
  (forall c, f c = true -> g c = true) -> all f s = true -> all g s = true.
Proof.
  intros H. induction s as [|c s IH]; simpl; [reflexivity|].
  intros E. apply andb_prop in E as [E1 E2].
  now rewrite (H c E1), IH.
Qed.

Lemma string_length_app (a b : string) :
  String.length (a ++ b) = (String.length a + String.length b)%nat.
Proof. induction a as [|c a IH]; simpl; [reflexivity | now rewrite IH]. Qed.

(** *** What [find_next_reg] returns *)

Lemma take_digits_out (q : string) :
  forall j out q',
    take_digits j q = (out, q') ->
    all is_digit out = true /\ (String.length out + j <= 14 \/ out = "")%nat.
Proof.
  induction q as [|c r IH]; intros j out q' E; simpl in E.
  - injection E as <- <-. split; [reflexivity | now right].
  - destruct (is_digit c) eqn:Hc.
    + destruct (take_digits (S j) r) as [o q1] eqn:E1.
      destruct (IH _ _ _ E1) as [Hd Hl].
      injection E as <- <-.
      destruct (Nat.ltb_spec j 14) as [Hj|Hj].
      * split; [simpl; now rewrite Hc, Hd|].
        left. simpl. destruct Hl as [Hl| ->]; simpl; lia.
      * split; [exact Hd|]. destruct Hl as [Hl| ->]; [|now right].
        destruct o; [now right | simpl in Hl; lia].
    + injection E as <- <-. split; [reflexivity | now right].
Qed.

Lemma find_next_reg_out (p : string) :
  forall out q,
    find_next_reg p = Some (out, q) ->
    is_reg_name ("x" ++ out) = true.
Proof.
  induction p as [|c r IH]; intros out q E; simpl in E; [discriminate|].
  destruct (is_x c); [|now apply IH in E].
  destruct (take_digits 0 r) as [o q1] eqn:E1.
  destruct (is_empty o) eqn:Ho; [now apply IH in E|].
  injection E as <- <-.
  destruct (take_digits_out _ _ E1) as [Hd Hl].
  simpl. rewrite Ho, Hd. simpl.
  destruct Hl as [Hl| ->]; [|discriminate].
  now replace (String.length o <=? 14)%nat with true by lia.
Qed.

Lemma collect_regs_names (todo : nat) :
  forall p, Forall (fun r => is_reg_name r = true) (collect_regs todo p).
Proof.
  induction todo as [|k IH]; intros p; simpl; [constructor|].
  destruct (find_next_reg p) as [[digits np]|] eqn:E; [|constructor].
  constructor; [now apply (find_next_reg_out _ E) | apply IH].
Qed.

Lemma collect_regs_length (todo : nat) :
  forall p, (List.length (collect_regs todo p) <= todo)%nat.
Proof.
  induction todo as [|k IH]; intros p; simpl; [lia|].
  destruct (find_next_reg p) as [[digits np]|]; simpl; [|lia].
  specialize (IH np). lia.
Qed.

(** *** What [parse_line] stores *)

Lemma parse_line_canonical (line : string) (ins : Instr) :
  parse_line line = Parsed ins -> canonical ins.
Proof.
  unfold parse_line.
  set (buf := rtrim_ascii _).
  destruct (is_blank_ascii buf); [discriminate|].
  pose proof (collect_regs_names 3 buf) as Hn.
  destruct (find_opcode buf); try discriminate;
    destruct (collect_regs 3 buf) as [|d [|s1 [|s2 [|x l]]]];
    try discriminate; intros E; injection E as <-;
    repeat match goal with
      | H : Forall _ (_ :: _) |- _ => inversion H; subst; clear H
      end.
  - apply canonical_alu; auto.
  - apply canonical_alu; auto.
  - apply canonical_mov; auto.
Qed.

Lemma reg_name_not_empty (r : string) :
  is_reg_name r = true -> is_empty r = false.
Proof. destruct r; [discriminate | reflexivity]. Qed.

Lemma reg_name_length (r : string) :
  is_reg_name r = true -> (2 <= String.length r <= 15)%nat.
Proof.
  destruct r as [|c ds]; [discriminate|]. simpl. intros H.
  apply andb_prop in H as [H _]. apply andb_prop in H as [H Hl].
  apply andb_prop in H as [_ He].
  destruct ds; [discriminate|]. simpl in *.
  apply Nat.leb_le in Hl. lia.
Qed.

Lemma canonical_valid (ins : Instr) : canonical ins -> valid_instr ins = true.
Proof.
  intros [d s Hd Hs | o d s1 s2 [-> | ->] Hd H1 H2];
    unfold valid_instr; simpl; now rewrite (reg_name_not_empty _ Hd).
Qed.

(** *** The outer loop of [find_opcode] *)

Lemma skip_non_alpha_length (p : string) :
  (String.length (skip_non_alpha p) <= String.length p)%nat.
Proof.
  induction p as [|c r IH]; simpl; [lia|].
  destruct (is_alpha c); simpl; lia.
Qed.

Lemma take_word_length (room : nat) :
  forall q w q',
    take_word room q = (w, q') ->
    (String.length q' <= String.length q)%nat
    /\ (w <> "" -> String.length q' < String.length q)%nat.
Proof.
  induction room as [|k IH]; intros q w q' E; simpl in E.
  - injection E as <- <-. split; [lia | congruence].
  - destruct q as [|c r]; [injection E as <- <-; split; [lia | congruence]|].
    destruct (is_alpha c).
    + destruct (take_word k r) as [w1 q1] eqn:E1.
      injection E as <- <-. destruct (IH _ _ _ E1) as [Hl _].
      simpl. split; [lia | intros _; lia].
    + injection E as <- <-. split; [lia | congruence].
Qed.

Lemma take_word_first (k : nat) (c : ascii) (r : string) :
  is_alpha c = true -> fst (take_word (S k) (String c r)) <> "".
Proof.
  intros Hc. simpl. rewrite Hc.
  destruct (take_word k r). simpl. discriminate.
Qed.

Lemma skip_non_alpha_head (p : string) :
  match skip_non_alpha p with
  | EmptyString => True
  | String c _ => is_alpha c = true
  end.
Proof.
  induction p as [|c r IH]; simpl; [exact I|].
  destruct (is_alpha c) eqn:E; [exact E | exact IH].
Qed.

(** The length of the string is fuel enough: more changes nothing. *)
Lemma find_opcode_fuel (fuel1 : nat) :
  forall fuel2 p,
    (String.length p <= fuel1)%nat -> (String.length p <= fuel2)%nat ->
    find_opcode_loop fuel1 p = find_opcode_loop fuel2 p.
Proof.
  induction fuel1 as [|k1 IH]; intros fuel2 p H1 H2.
  - destruct p; [|simpl in H1; lia]. destruct fuel2; reflexivity.
  - destruct fuel2 as [|k2].
    + destruct p; [reflexivity | simpl in H2; lia].
    + cbn [find_opcode_loop].
      pose proof (skip_non_alpha_length p) as Hs.
      pose proof (skip_non_alpha_head p) as Hh.
      destruct (skip_non_alpha p) as [|c r]; [reflexivity|].
      pose proof (@take_word_first 14 c r Hh) as Hw.
      destruct (take_word 15 (String c r)) as [w q] eqn:E.
      destruct (take_word_length _ _ E) as [_ Hq]. simpl in Hw.
      specialize (Hq Hw).
      destruct (String.eqb w "add"); [reflexivity|].
      destruct (String.eqb w "sub"); [reflexivity|].
      destruct (String.eqb w "mov"); [reflexivity|].
      apply IH; lia.
Qed.

(** *** Lines without an instruction *)

Lemma c_copy_spaces (ws : string) :
  forall n h r,
    all is_space ws = true -> is_hash h = true ->
    strip_comment (c_copy n (ws ++ String h r)) = c_copy n ws
    /\ strip_comment (c_copy n ws) = c_copy n ws
    /\ all is_space (c_copy n ws) = true.
Proof.
  induction ws as [|c ws IH]; intros n h r Hw Hh.
  - destruct n; simpl; [auto|].
    destruct (is_nul h); simpl; [auto|]. now rewrite Hh.
  - simpl in Hw. apply andb_prop in Hw as [Hc Hw].
    destruct n; simpl; [auto|].
    rewrite (space_not_nul _ Hc). simpl. rewrite (space_not_hash _ Hc), Hc.
    destruct (IH n h r Hw Hh) as (E1 & E2 & E3).
    now rewrite E1, E2, E3.
Qed.

Lemma strip_bom_keeps (s : string) :
  match s with
  | String a _ => is_space a = true \/ is_hash a = true \/ is_alpha a = true
  | EmptyString => True
  end ->
  strip_bom_inplace s = s.
Proof.
  destruct s as [|a [|b [|c r]]]; try reflexivity.
  intros H. unfold strip_bom_inplace.
  replace (code a =? 239)%N with false; [reflexivity|].
  revert H. clear.
  destruct a as [[] [] [] [] [] [] [] []]; vm_compute; try reflexivity;
    intros [H|[H|H]]; discriminate.
Qed.

Lemma all_forallb (f : ascii -> bool) (s : string) :
  all f s = forallb f (list_ascii_of_string s).
Proof. induction s as [|c s IH]; simpl; [reflexivity | now rewrite IH]. Qed.

Lemma drop_trim_spaces (l : list ascii) :
  forallb is_space l = true -> drop_trim l = [].
Proof.
  induction l as [|c l IH]; simpl; [reflexivity|].
  intros H. apply andb_prop in H as [-> H]. now apply IH.
Qed.

Lemma rtrim_spaces (s : string) :
  all is_space s = true -> rtrim_ascii s = "".
Proof.
  intros H. unfold rtrim_ascii. rewrite drop_trim_spaces; [reflexivity|].
  rewrite all_forallb in H. rewrite forallb_forall in *.
  intros c Hc. apply H. now apply in_rev.
Qed.

Lemma c_copy_head (n : nat) (s : string) :
  match c_copy n s, s with
  | String a _, String b _ => a = b
  | String _ _, EmptyString => False
  | EmptyString, _ => True
  end.
Proof.
  destruct n, s as [|b r]; simpl; auto. now destruct (is_nul b).
Qed.

(** A line that holds only white space, or only white space before a
    [#], yields no instruction and no error. *)
Lemma blank_or_comment_skipped (ws : string) :
  all is_space ws = true ->
  parse_line ws = Skipped
  /\ forall h r, is_hash h = true -> parse_line (ws ++ String h r) = Skipped.
Proof.
  intros Hw.
  assert (Hh : is_hash "#"%char = true) by reflexivity.
  destruct (@c_copy_spaces ws (MAX_LINE - 1) "#"%char "" Hw Hh) as (_ & E2 & E3).
  assert (Hblank : forall b,
             strip_comment (strip_bom_inplace b) = c_copy (MAX_LINE - 1) ws ->
             (let buf := rtrim_ascii (strip_comment (strip_bom_inplace b)) in
              if is_blank_ascii buf then Skipped
              else match find_opcode buf with
                   | OP_BAD => Skipped
                   | OP_MOV =>
                       match collect_regs 3 buf with
                       | [d; s] => Parsed (mk_mov d s)
                       | _ => ParseError
                       end
                   | o =>
                       match collect_regs 3 buf with
                       | [d; s1; s2] => Parsed (mk_alu o d s1 s2)
                       | _ => ParseError
                       end
                   end) = Skipped).
  { intros b ->. cbv zeta. now rewrite (rtrim_spaces _ E3). }
  split.
  - apply Hblank. rewrite strip_bom_keeps; [exact E2|].
    pose proof (c_copy_head (MAX_LINE - 1) ws) as Hd.
    destruct (c_copy (MAX_LINE - 1) ws) as [|a t]; [exact I|].
    simpl in E3. apply andb_prop in E3 as [Ha _]. now left.
  - intros h r Hr. apply Hblank.
    destruct (@c_copy_spaces ws (MAX_LINE - 1) h r Hw Hr) as (E1 & _ & _).
    rewrite strip_bom_keeps; [exact E1|].
    pose proof (c_copy_head (MAX_LINE - 1) (ws ++ String h r)) as Hd.
    destruct (c_copy (MAX_LINE - 1) (ws ++ String h r)) as [|a t]; [exact I|].
    destruct ws as [|w ws']; simpl in Hd; subst a.
    + right; now left.
    + simpl in Hw. apply andb_prop in Hw as [Ha _]. now left.
Qed.

(** *** Parsing the canonical text again *)

Lemma digit_plain (ds : string) : all is_digit ds = true -> all plain ds = true.
Proof.
  apply all_impl. intros c Hc. unfold plain.
  now rewrite (digit_not_nul _ Hc), (digit_not_hash _ Hc).
Qed.

Lemma c_copy_id (s : string) :
  forall n, (String.length s <= n)%nat -> all plain s = true -> c_copy n s = s.
Proof.
  induction s as [|c s IH]; intros n Hn Hp; [now destruct n|].
  simpl in Hn, Hp. destruct n; [lia|].
  apply andb_prop in Hp as [Hc Hp]. unfold plain in Hc.
  apply andb_prop in Hc as [Hc _]. apply negb_true_iff in Hc.
  simpl. rewrite Hc, IH; [reflexivity | lia | exact Hp].
Qed.

Lemma strip_comment_id (s : string) :
  all plain s = true -> strip_comment s = s.
Proof.
  induction s as [|c s IH]; simpl; [reflexivity|]. intros Hp.
  apply andb_prop in Hp as [Hc Hp]. unfold plain in Hc.
  apply andb_prop in Hc as [_ Hc]. apply negb_true_iff in Hc.
  now rewrite Hc, IH.
Qed.

Lemma list_ascii_app (a b : string) :
  list_ascii_of_string (a ++ b)
  = (list_ascii_of_string a ++ list_ascii_of_string b)%list.
Proof. induction a as [|c a IH]; simpl; [reflexivity | now rewrite IH]. Qed.

Lemma rtrim_last (a : string) (c : ascii) :
  is_space c = false ->
  rtrim_ascii (a ++ String c "") = a ++ String c "".
Proof.
  intros Hc. unfold rtrim_ascii.
  rewrite list_ascii_app. simpl. rewrite rev_app_distr. simpl.
  rewrite Hc. change (c :: rev (list_ascii_of_string a))
    with (rev [c] ++ rev (list_ascii_of_string a))%list.
  rewrite <- rev_app_distr, rev_involutive.
  change [c] with (list_ascii_of_string (String c "")).
  now rewrite <- list_ascii_app, string_of_list_ascii_of_string.
Qed.

Lemma split_last (s : string) :
  is_empty s = false ->
  exists a c, s = a ++ String c ""
    /\ forall f, all f s = true -> f c = true.
Proof.
  induction s as [|c s IH]; [discriminate|]. intros _.
  destruct s as [|d s'].
  - exists "", c. split; [reflexivity|]. intros f H. simpl in H.
    now apply andb_prop in H as [H _].
  - destruct (IH eq_refl) as (a & l & E & Hl).
    exists (String c a), l. split; [simpl; now rewrite <- E|].
    intros f H. apply Hl. change (all f (String c (String d s')))
      with (f c && all f (String d s')) in H.
    now apply andb_prop in H as [_ H].
Qed.

Lemma append_assoc (a b c : string) : (a ++ b) ++ c = a ++ (b ++ c).
Proof. induction a as [|x a IH]; simpl; [reflexivity | now rewrite IH]. Qed.

(** A text that ends in a digit is left alone by [rtrim_ascii]. *)
Lemma rtrim_digits (pre ds : string) :
  is_empty ds = false -> all is_digit ds = true ->
  rtrim_ascii (pre ++ ds) = pre ++ ds.
Proof.
  intros He Hd. destruct (split_last ds He) as (a & c & -> & Hc).
  rewrite <- append_assoc. apply rtrim_last.
  apply digit_not_space. now apply Hc.
Qed.

Lemma take_digits_app (ds : string) :
  forall j rest,
    all is_digit ds = true -> (String.length ds + j <= 14)%nat ->
    match rest with
    | String c _ => is_digit c = false
    | EmptyString => True
    end ->
    take_digits j (ds ++ rest) = (ds, rest).
Proof.
  induction ds as [|c ds IH]; intros j rest Hd Hl Hr.
  - destruct rest as [|c r]; simpl; [reflexivity | now rewrite Hr].
  - simpl in Hd, Hl. apply andb_prop in Hd as [Hc Hd].
    simpl. rewrite Hc, (IH (S j) rest Hd) by (auto; lia).
    now replace (j <? 14)%nat with true by lia.
Qed.

Lemma reg_name_inv (r : string) :
  is_reg_name r = true ->
  exists ds, r = String "x"%char ds /\ is_empty ds = false
    /\ (String.length ds <= 14)%nat /\ all is_digit ds = true.
Proof.
  destruct r as [|c ds]; [discriminate|]. simpl. intros H.
  apply andb_prop in H as [H Hd]. apply andb_prop in H as [H Hl].
  apply andb_prop in H as [Hx He].
  exists ds. apply negb_true_iff in He. apply Nat.leb_le in Hl.
  repeat split; auto. f_equal.
  apply N.eqb_eq in Hx. unfold code in Hx.
  rewrite <- (ascii_N_embedding c), Hx. reflexivity.
Qed.

(** The next token of a string that starts with [x], one to fourteen
    digits and then no further digit. *)
Lemma find_next_reg_here (ds rest : string) :
  is_empty ds = false -> (String.length ds <= 14)%nat ->
  all is_digit ds = true ->
  match rest with
  | String c _ => is_digit c = false
  | EmptyString => True
  end ->
  find_next_reg (String "x"%char (ds ++ rest)) = Some (ds, rest).
Proof.
  intros He Hl Hd Hr. cbn [find_next_reg].
  change (is_x "x"%char) with true. cbv iota.
  rewrite take_digits_app by (auto; lia). now rewrite He.
Qed.

Lemma find_opcode_add (rest : string) :
  find_opcode ("add " ++ rest) = OP_ADD.
Proof. reflexivity. Qed.
Lemma find_opcode_sub (rest : string) :
  find_opcode ("sub " ++ rest) = OP_SUB.
Proof. reflexivity. Qed.
Lemma find_opcode_mov (rest : string) :
  find_opcode ("mov " ++ rest) = OP_MOV.
Proof. reflexivity. Qed.

Lemma append_nil_r (s : string) : s ++ "" = s.
Proof. induction s as [|c s IH]; simpl; [reflexivity | now rewrite IH]. Qed.

Lemma find_next_reg_after (pre ds rest : string) :
  all (fun c => negb (is_x c)) pre = true ->
  is_empty ds = false -> (String.length ds <= 14)%nat ->
  all is_digit ds = true ->
  match rest with
  | String c _ => is_digit c = false
  | EmptyString => True
  end ->
  find_next_reg (pre ++ String "x"%char (ds ++ rest)) = Some (ds, rest).
Proof.
  intros Hp He Hl Hd Hr. induction pre as [|c pre IH].
  - now apply find_next_reg_here.
  - simpl in Hp. apply andb_prop in Hp as [Hc Hp].
    apply negb_true_iff in Hc. cbn [append find_next_reg].
    rewrite Hc. now apply IH.
Qed.

(** The cleaning steps of [parse_line] leave alone a short text that
    starts with a letter, holds neither a NUL nor a [#], and ends in a
    digit. *)
Lemma clean_text_id (T : string) (first : ascii) (pre ds : string) :
  T = String first pre ++ ds ->
  is_alpha first = true ->
  (String.length T <= MAX_LINE - 1)%nat ->
  all plain T = true ->
  is_empty ds = false -> all is_digit ds = true ->
  rtrim_ascii (strip_comment (strip_bom_inplace (c_copy (MAX_LINE - 1) T)))
  = T.
Proof.
  intros -> Hf Hl Hp He Hd.
  rewrite (c_copy_id _ Hl Hp).
  rewrite strip_bom_keeps by (simpl; auto).
  rewrite (strip_comment_id _ Hp).
  now apply rtrim_digits.
Qed.

Ltac norm_app := repeat first [rewrite !append_assoc | progress simpl].

Lemma short_enough (n : nat) : (n <= 53)%nat -> (n <= MAX_LINE - 1)%nat.
Proof.
  intros H. apply Nat.le_trans with (1 := H). apply Nat.leb_le. reflexivity.
Qed.

(** The text [<word> x<d>, x<a>, x<b>] parses to its three registers,
    for a word [c w] of three letters without [x]. *)
Lemma reparse_three (c : ascii) (w dd da db : string) :
  is_alpha c = true -> is_space c = false ->
  all plain (String c w) = true ->
  all (fun c => negb (is_x c)) (String c w) = true ->
  String.length w = 2%nat ->
  is_empty dd = false -> (String.length dd <= 14)%nat -> all is_digit dd = true ->
  is_empty da = false -> (String.length da <= 14)%nat -> all is_digit da = true ->
  is_empty db = false -> (String.length db <= 14)%nat -> all is_digit db = true ->
  let T := String c w ++ " " ++ String "x" dd ++ ", " ++ String "x" da
             ++ ", " ++ String "x" db in
  rtrim_ascii (strip_comment (strip_bom_inplace (c_copy (MAX_LINE - 1) T))) = T
  /\ is_blank_ascii T = false
  /\ collect_regs 3 T = [String "x" dd; String "x" da; String "x" db].
Proof.
  intros Hc Hs Hp Hx Hw Ed Ld Dd Ea La Da Eb Lb Db T.
  assert (ET : T = String c (w ++ " x" ++ dd ++ ", x" ++ da ++ ", x") ++ db).
  { unfold T. norm_app. reflexivity. }
  assert (E : T = (String c w ++ " ")
                  ++ String "x" (dd ++ ", " ++ String "x" (da ++ ", "
                       ++ String "x" (db ++ "")))).
  { unfold T. rewrite append_nil_r. norm_app. reflexivity. }
  split; [|split].
  - apply (clean_text_id ET); auto.
    + apply short_enough. rewrite E.
      repeat first [rewrite !string_length_app | progress simpl]. lia.
    + rewrite E. simpl in Hp.
      repeat first [rewrite !all_app | progress simpl].
      now rewrite Hp, !digit_plain.
  - unfold T, is_blank_ascii. simpl. now rewrite Hs.
  - rewrite E. cbn [collect_regs].
    rewrite find_next_reg_after
      by first [assumption | reflexivity | rewrite all_app, Hx; reflexivity].
    rewrite (@find_next_reg_after ", " da) by first [assumption | reflexivity].
    rewrite (@find_next_reg_after ", " db) by first [assumption | reflexivity].
    rewrite ?append_nil_r. reflexivity.
Qed.

Lemma reparse_alu (o : Op) (d a b : string) :
  o = OP_ADD \/ o = OP_SUB ->
  is_reg_name d = true -> is_reg_name a = true -> is_reg_name b = true ->
  parse_line (text (mk_alu o d a b)) = Parsed (mk_alu o d a b).
Proof.
  intros Ho Hd Ha Hb.
  destruct (reg_name_inv _ Hd) as (dd & -> & Ed & Ld & Dd).
  destruct (reg_name_inv _ Ha) as (da & -> & Ea & La & Da).
  destruct (reg_name_inv _ Hb) as (db & -> & Eb & Lb & Db).
  unfold parse_line.
  destruct Ho as [-> | ->]; cbn [text mk_alu op_name].
  - destruct (@reparse_three "a"%char "dd" dd da db) as (E1 & E2 & E3); auto.
    cbv zeta in E1, E2, E3 |- *. rewrite E1, E2, E3. reflexivity.
  - destruct (@reparse_three "s"%char "ub" dd da db) as (E1 & E2 & E3); auto.
    cbv zeta in E1, E2, E3 |- *. rewrite E1, E2, E3. reflexivity.
Qed.

Lemma reparse_mov (d a : string) :
  is_reg_name d = true -> is_reg_name a = true ->
  parse_line (text (mk_mov d a)) = Parsed (mk_mov d a).
Proof.
  intros Hd Ha.
  destruct (reg_name_inv _ Hd) as (dd & -> & Ed & Ld & Dd).
  destruct (reg_name_inv _ Ha) as (da & -> & Ea & La & Da).
  set (T := text (mk_mov (String "x" dd) (String "x" da))).
  assert (ET : T = String "m" ("ov x" ++ dd ++ ", x") ++ da).
  { unfold T. norm_app. reflexivity. }
  assert (E : T = "mov " ++ String "x" (dd ++ ", " ++ String "x" (da ++ ""))).
  { unfold T. rewrite append_nil_r. reflexivity. }
  assert (E1 : rtrim_ascii
                 (strip_comment (strip_bom_inplace (c_copy (MAX_LINE - 1) T)))
               = T).
  { apply (clean_text_id ET); auto.
    - apply short_enough. rewrite E.
      repeat first [rewrite !string_length_app | progress simpl]. lia.
    - rewrite E. repeat first [rewrite !all_app | progress simpl].
      now rewrite !digit_plain. }
  assert (E3 : collect_regs 3 T = [String "x" dd; String "x" da]).
  { rewrite E. cbn [collect_regs].
    rewrite (@find_next_reg_after "mov " dd) by first [assumption | reflexivity].
    rewrite (@find_next_reg_after ", " da) by first [assumption | reflexivity].
    rewrite ?append_nil_r. reflexivity. }
  unfold parse_line. fold T. cbv zeta. rewrite E1, E3. reflexivity.
Qed.

(** Parsing the text of a canonical record gives the record back. *)
Lemma reparse (ins : Instr) :
  canonical ins -> parse_line (text ins) = Parsed ins.
Proof.
  intros [d s Hd Hs | o d s1 s2 Ho Hd H1 H2];
    [now apply reparse_mov | now apply reparse_alu].
Qed.

(** *** The reading loop *)

Lemma parsed_of_cons (l : string) (rest : list string) :
  parsed_of (l :: rest)
  = match parse_line l with
    | Parsed ins => ins :: parsed_of rest
    | _ => parsed_of rest
    end.
Proof. reflexivity. Qed.

Lemma parsed_of_app (a b : list string) :
  parsed_of (a ++ b) = (parsed_of a ++ parsed_of b)%list.
Proof.
  induction a as [|l a IH]; simpl; [reflexivity|].
  destruct (parse_line l); simpl; now rewrite IH.
Qed.

Lemma parsed_of_canonical (lines : list string) :
  Forall canonical (parsed_of lines).
Proof.
  induction lines as [|l lines IH]; simpl; [constructor|].
  destruct (parse_line l) as [| |ins] eqn:E; auto.
  constructor; [now apply (parse_line_canonical l) | exact IH].
Qed.

(** [read_lines] succeeds exactly when no line is in error and the
    program does not outgrow the array, and then returns what was
    stored followed by the instructions of the lines, in order. *)
Lemma read_lines_ok (lines : list string) :
  forall acc prog,
    read_lines lines acc = LoadOk prog
    <-> (forall l, In l lines -> parse_line l <> ParseError)
        /\ prog = (acc ++ parsed_of lines)%list
        /\ prog <> []
        /\ (parsed_of lines = []
            \/ Z.of_nat (List.length prog) <= MAX_INSTR).
Proof.
  induction lines as [|l lines IH]; intros acc prog; simpl.
  - rewrite app_nil_r. destruct acc as [|i acc]; simpl.
    + split; [discriminate | intros (_ & -> & H & _); congruence].
    + split.
      * intros E; injection E as <-.
        split; [tauto|]. split; [reflexivity|]. split; [discriminate | now left].
      * intros (_ & -> & _). reflexivity.
  - destruct (parse_line l) as [| |ins] eqn:E.
    + rewrite IH. split; intros (H1 & H2 & H3 & H4); repeat split; auto.
      intros l' [<- | Hl]; [congruence | auto].
    + split; [discriminate|]. intros (H & _). exfalso. apply (H l); auto.
    + destruct (Z.geb_spec (Z.of_nat (List.length acc)) MAX_INSTR) as [Hge|Hlt].
      * split; [discriminate|]. intros (_ & -> & _ & [H|H]); [discriminate|].
        rewrite length_app in H. simpl in H. lia.
      * rewrite IH. rewrite <- app_assoc. simpl.
        split; intros (H1 & H2 & H3 & H4); repeat split; auto.
        -- intros l' [<- | Hl]; [congruence | auto].
        -- right. destruct H4 as [H4|H4]; [|exact H4].
           subst prog. rewrite H4, length_app. simpl. lia.
        -- destruct H4 as [H4|H4]; [discriminate | now right].
Qed.

Lemma read_lines_empty_exit (lines : list string) :
  forall acc,
    read_lines lines acc = LoadExit 4
    <-> acc = [] /\ forall l, In l lines -> parse_line l = Skipped.
Proof.
  induction lines as [|l lines IH]; intros acc; simpl.
  - destruct acc; simpl; split; try discriminate; try tauto.
    intros [H _]; discriminate.
  - destruct (parse_line l) as [| |ins] eqn:E.
    + rewrite IH. split; intros [H1 H2]; split; auto.
      intros l' [<- | Hl]; auto.
    + split; [discriminate|]. intros [_ H].
      specialize (H l (or_introl eq_refl)). congruence.
    + destruct (Z.of_nat (List.length acc) >=? MAX_INSTR).
      * split; [discriminate|]. intros [_ H].
        specialize (H l (or_introl eq_refl)). congruence.
      * rewrite IH. split.
        -- intros [H _]. destruct acc; discriminate.
        -- intros [_ H]. specialize (H l (or_introl eq_refl)). congruence.
Qed.

(** A malformed line stops the run with code 2 whatever follows it,
    provided the lines before it were accepted. *)
Lemma read_lines_error (pre : list string) :
  forall acc l post,
    (forall l', In l' pre -> parse_line l' <> ParseError) ->
    Z.of_nat (List.length (acc ++ parsed_of pre)) <= MAX_INSTR ->
    parse_line l = ParseError ->
    read_lines (pre ++ l :: post) acc = LoadExit 2.
Proof.
  induction pre as [|p pre IH]; intros acc l post Hok Hlen Hl;
    cbn [app read_lines].
  - now rewrite Hl.
  - rewrite parsed_of_cons in Hlen. destruct (parse_line p) as [| |ins] eqn:E.
    + apply IH; auto. intros l' H'. apply Hok. now right.
    + exfalso. apply (Hok p); auto. now left.
    + rewrite length_app in Hlen. cbn [List.length app] in Hlen.
      replace (Z.of_nat (List.length acc) >=? MAX_INSTR) with false by lia.
      apply IH; auto.
      * intros l' H'. apply Hok. now right.
      * rewrite <- app_assoc. cbn [app]. rewrite length_app.
        cbn [List.length app]. lia.
Qed.

(** The instruction after the [MAX_INSTR]-th one stops the run with
    code 3. *)
Lemma read_lines_overflow (pre : list string) :
  forall acc l post ins,
    (forall l', In l' pre -> parse_line l' <> ParseError) ->
    Z.of_nat (List.length (acc ++ parsed_of pre)) = MAX_INSTR ->
    parse_line l = Parsed ins ->
    read_lines (pre ++ l :: post) acc = LoadExit 3.
Proof.
  induction pre as [|p pre IH]; intros acc l post ins Hok Hlen Hl;
    cbn [app read_lines].
  - rewrite Hl. cbn [parsed_of] in Hlen. rewrite app_nil_r in Hlen.
    now replace (Z.of_nat (List.length acc) >=? MAX_INSTR) with true by lia.
  - rewrite parsed_of_cons in Hlen. destruct (parse_line p) as [| |i] eqn:E.
    + apply (IH acc l post ins); auto. intros l' H'. apply Hok. now right.
    + exfalso. apply (Hok p); auto. now left.
    + rewrite length_app in Hlen. cbn [List.length app] in Hlen.
      replace (Z.of_nat (List.length acc) >=? MAX_INSTR) with false by lia.
      apply (IH _ l post ins); auto.
      * intros l' H'. apply Hok. now right.
      * rewrite <- app_assoc. cbn [app]. rewrite length_app.
        cbn [List.length app]. lia.
Qed.

Lemma read_lines_codes (lines : list string) :
  forall acc c,
    read_lines lines acc = LoadExit c -> c = 2 \/ c = 3 \/ c = 4.
Proof.
  induction lines as [|l lines IH]; intros acc c; simpl.
  - destruct (_ =? 0); [|discriminate]. intros E; injection E as <-. auto.
  - destruct (parse_line l).
    + apply IH.
    + intros E; injection E as <-. auto.
    + destruct (_ >=? MAX_INSTR); [|apply IH].
      intros E; injection E as <-. auto.
Qed.

End ParserFacts.

(** ** More about the parser: what a line may carry without effect *)

Module ParserTolerance.
Import Isa IsaFacts Parser ParserFacts.

#[local] Arguments parse_line : simpl never.

(** [strncpy] of a concatenation: the copy of the first part, followed
    by a copy of the second with the room that is left (none after a
    NUL). *)
Lemma c_copy_app (l r : string) :
  forall n, exists k, c_copy n (l ++ r) = c_copy n l ++ c_copy k r.
Proof.
  induction l as [|c l IH]; intros n.
  - exists n. now destruct n.
  - destruct n as [|m]; [exists 0%nat; reflexivity|].
    simpl. destruct (is_nul c); [exists 0%nat; reflexivity|].
    destruct (IH m) as (k & E). exists k. simpl. now rewrite E.
Qed.

Lemma hash_not_bom (h : ascii) : is_hash h = true -> is_bom_byte h = false.
Proof. by_chars h. Qed.

Lemma space_not_bom (h : ascii) : is_space h = true -> is_bom_byte h = false.
Proof. by_chars h. Qed.

(** A suffix that does not start with a byte of the mark is carried
    through [strip_bom_inplace]. *)
Lemma strip_bom_app (v w : string) :
  match w with
  | String h _ => is_bom_byte h = false
  | EmptyString => True
  end ->
  strip_bom_inplace (v ++ w) = strip_bom_inplace v ++ w.
Proof.
  intros Hw.
  destruct w as [|h w]; [now rewrite !append_nil_r|].
  unfold is_bom_byte in Hw.
  apply orb_false_elim in Hw as [Hw H3].
  apply orb_false_elim in Hw as [H1 H2].
  destruct v as [|a [|b [|c r]]]; cbn [append].
  - destruct w as [|b [|c r]]; try reflexivity.
    unfold strip_bom_inplace. now rewrite H1.
  - destruct w as [|c r]; [reflexivity|].
    unfold strip_bom_inplace. now rewrite H2, andb_false_r.
  - unfold strip_bom_inplace. now rewrite H3, andb_false_r.
  - unfold strip_bom_inplace.
    destruct ((code a =? 239) && (code b =? 187) && (code c =? 191))%N;
      reflexivity.
Qed.

Lemma strip_comment_app_hash (v w : string) (h : ascii) :
  is_hash h = true -> strip_comment (v ++ String h w) = strip_comment v.
Proof.
  intros Hh. induction v as [|c v IH]; simpl; [now rewrite Hh|].
  now rewrite IH.
Qed.

Lemma space_plain (ws : string) : all is_space ws = true -> all plain ws = true.
Proof.
  apply all_impl. intros c Hc. unfold plain.
  now rewrite (space_not_nul _ Hc), (space_not_hash _ Hc).
Qed.

Lemma strip_comment_app_spaces (v ws : string) :
  all is_space ws = true ->
  exists ws', strip_comment (v ++ ws) = strip_comment v ++ ws'
              /\ all is_space ws' = true.
Proof.
  intros Hw. induction v as [|c v IH]; simpl.
  - exists ws. split; [|exact Hw]. apply strip_comment_id. now apply space_plain.
  - destruct (is_hash c); [exists ""; split; reflexivity|].
    destruct IH as (ws' & E & H). exists ws'. split; [|exact H].
    simpl. now rewrite E.
Qed.

Lemma drop_trim_app (sp l : list ascii) :
  forallb is_space sp = true -> drop_trim (sp ++ l) = drop_trim l.
Proof.
  induction sp as [|c sp IH]; simpl; [reflexivity|].
  intros H. apply andb_prop in H as [-> H]. now apply IH.
Qed.

Lemma rtrim_app_spaces (a ws : string) :
  all is_space ws = true -> rtrim_ascii (a ++ ws) = rtrim_ascii a.
Proof.
  intros H. unfold rtrim_ascii.
  rewrite list_ascii_app, rev_app_distr, drop_trim_app; [reflexivity|].
  rewrite all_forallb in H. rewrite forallb_forall in *.
  intros c Hc. apply H. now apply in_rev.
Qed.

(** The buffer [parse_line] works on, after the three cleaning steps. *)
Lemma parse_line_buffer (l1 l2 : string) :
  rtrim_ascii (strip_comment (strip_bom_inplace (c_copy (MAX_LINE - 1) l1)))
  = rtrim_ascii (strip_comment (strip_bom_inplace (c_copy (MAX_LINE - 1) l2))) ->
  parse_line l1 = parse_line l2.
Proof. unfold parse_line. cbv zeta. now intros ->. Qed.

Lemma trailing_comment (l c : string) (h : ascii) :
  is_hash h = true -> parse_line (l ++ String h c) = parse_line l.
Proof.
  intros Hh. apply parse_line_buffer. f_equal.
  destruct (c_copy_app l (String h c) (MAX_LINE - 1)) as (k & ->).
  destruct k as [|k]; [cbn [c_copy]; now rewrite append_nil_r|].
  cbn [c_copy].
  replace (is_nul h) with false by (revert Hh; clear; by_chars h).
  rewrite strip_bom_app by now apply hash_not_bom.
  now apply strip_comment_app_hash.
Qed.

Lemma trailing_spaces (l ws : string) :
  all is_space ws = true -> parse_line (l ++ ws) = parse_line l.
Proof.
  intros Hw. apply parse_line_buffer.
  destruct (c_copy_app l ws (MAX_LINE - 1)) as (k & ->).
  assert (Hh : is_hash "#"%char = true) by reflexivity.
  destruct (@c_copy_spaces ws k "#"%char "" Hw Hh) as (_ & _ & Hk).
  rewrite strip_bom_app.
  - destruct (@strip_comment_app_spaces
                (strip_bom_inplace (c_copy (MAX_LINE - 1) l)) _ Hk)
      as (ws' & -> & Hs).
    now apply rtrim_app_spaces.
  - destruct (c_copy k ws) as [|a t]; [exact I|].
    simpl in Hk. apply andb_prop in Hk as [Ha _]. now apply space_not_bom.
Qed.

(** *** Letter case *)

Lemma upper_alpha c : is_alpha (to_upper c) = is_alpha c.
Proof. by_chars c. Qed.
Lemma upper_lower c : to_lower (to_upper c) = to_lower c.
Proof. by_chars c. Qed.
Lemma upper_x c : is_x (to_upper c) = is_x c.
Proof. by_chars c. Qed.
Lemma upper_digit c : is_digit (to_upper c) = is_digit c.
Proof. by_chars c. Qed.
Lemma upper_space c : is_space (to_upper c) = is_space c.
Proof. by_chars c. Qed.
Lemma upper_hash c : is_hash (to_upper c) = is_hash c.
Proof. by_chars c. Qed.
Lemma upper_nul c : is_nul (to_upper c) = is_nul c.
Proof. by_chars c. Qed.
Lemma upper_ef c : (code (to_upper c) =? 239)%N = (code c =? 239)%N.
Proof. by_chars c. Qed.
Lemma upper_bb c : (code (to_upper c) =? 187)%N = (code c =? 187)%N.
Proof. by_chars c. Qed.
Lemma upper_bf c : (code (to_upper c) =? 191)%N = (code c =? 191)%N.
Proof. by_chars c. Qed.
Lemma upper_of_digit c : is_digit c = true -> to_upper c = c.
Proof. by_chars c. Qed.

Lemma upcase_length (s : string) : String.length (upcase s) = String.length s.
Proof. induction s as [|c s IH]; simpl; [reflexivity | now rewrite IH]. Qed.

Lemma c_copy_upcase (s : string) :
  forall n, c_copy n (upcase s) = upcase (c_copy n s).
Proof.
  induction s as [|c s IH]; intros [|n]; simpl; try reflexivity.
  rewrite upper_nul. destruct (is_nul c); simpl; [reflexivity | now rewrite IH].
Qed.

Lemma strip_bom_upcase (s : string) :
  strip_bom_inplace (upcase s) = upcase (strip_bom_inplace s).
Proof.
  destruct s as [|a [|b [|c r]]]; try reflexivity.
  cbn [upcase strip_bom_inplace]. rewrite upper_ef, upper_bb, upper_bf.
  now destruct ((code a =? 239) && (code b =? 187) && (code c =? 191))%N.
Qed.

Lemma strip_comment_upcase (s : string) :
  strip_comment (upcase s) = upcase (strip_comment s).
Proof.
  induction s as [|c s IH]; simpl; [reflexivity|].
  rewrite upper_hash. destruct (is_hash c); simpl; [reflexivity | now rewrite IH].
Qed.

Lemma list_ascii_upcase (s : string) :
  list_ascii_of_string (upcase s) = map to_upper (list_ascii_of_string s).
Proof. induction s as [|c s IH]; simpl; [reflexivity | now rewrite IH]. Qed.

Lemma string_of_list_upcase (l : list ascii) :
  string_of_list_ascii (map to_upper l) = upcase (string_of_list_ascii l).
Proof. induction l as [|c l IH]; simpl; [reflexivity | now rewrite IH]. Qed.

Lemma drop_trim_upcase (l : list ascii) :
  drop_trim (map to_upper l) = map to_upper (drop_trim l).
Proof.
  induction l as [|c l IH]; simpl; [reflexivity|].
  rewrite upper_space. now destruct (is_space c).
Qed.

Lemma rtrim_upcase (s : string) :
  rtrim_ascii (upcase s) = upcase (rtrim_ascii s).
Proof.
  unfold rtrim_ascii.
  now rewrite list_ascii_upcase, <- map_rev, drop_trim_upcase, <- map_rev,
    string_of_list_upcase.
Qed.

Lemma is_blank_upcase (s : string) :
  is_blank_ascii (upcase s) = is_blank_ascii s.
Proof.
  unfold is_blank_ascii.
  induction s as [|c s IH]; simpl; [reflexivity | now rewrite upper_space, IH].
Qed.

Lemma skip_non_alpha_upcase (p : string) :
  skip_non_alpha (upcase p) = upcase (skip_non_alpha p).
Proof.
  induction p as [|c p IH]; simpl; [reflexivity|].
  rewrite upper_alpha. now destruct (is_alpha c).
Qed.

Lemma take_word_upcase (room : nat) :
  forall q,
    take_word room (upcase q)
    = (fst (take_word room q), upcase (snd (take_word room q))).
Proof.
  induction room as [|k IH]; intros [|c r]; simpl; try reflexivity.
  rewrite upper_alpha. destruct (is_alpha c); [|reflexivity].
  rewrite IH, upper_lower. now destruct (take_word k r).
Qed.

Lemma find_opcode_loop_upcase (fuel : nat) :
  forall p, find_opcode_loop fuel (upcase p) = find_opcode_loop fuel p.
Proof.
  induction fuel as [|k IH]; intros p; [reflexivity|].
  cbn [find_opcode_loop]. rewrite skip_non_alpha_upcase.
  destruct (skip_non_alpha p) as [|c r]; [reflexivity|].
  cbn [upcase].
  change (String (to_upper c) (upcase r)) with (upcase (String c r)).
  rewrite take_word_upcase.
  destruct (take_word 15 (String c r)) as [w q]. cbn [fst snd].
  now rewrite IH.
Qed.

Lemma find_opcode_upcase (s : string) :
  find_opcode (upcase s) = find_opcode s.
Proof.
  unfold find_opcode. now rewrite upcase_length, find_opcode_loop_upcase.
Qed.

Lemma take_digits_upcase (q : string) :
  forall j,
    take_digits j (upcase q)
    = (fst (take_digits j q), upcase (snd (take_digits j q))).
Proof.
  induction q as [|c r IH]; intros j; simpl; [reflexivity|].
  rewrite upper_digit. destruct (is_digit c) eqn:Hc; [|reflexivity].
  rewrite IH, (upper_of_digit _ Hc). now destruct (take_digits (S j) r).
Qed.

Lemma find_next_reg_upcase (p : string) :
  find_next_reg (upcase p)
  = match find_next_reg p with
    | Some (out, q) => Some (out, upcase q)
    | None => None
    end.
Proof.
  induction p as [|c r IH]; simpl; [reflexivity|].
  rewrite upper_x. destruct (is_x c); [|exact IH].
  rewrite take_digits_upcase.
  destruct (take_digits 0 r) as [out q]. cbn [fst snd].
  destruct (is_empty out); [exact IH | reflexivity].
Qed.

Lemma collect_regs_upcase (todo : nat) :
  forall p, collect_regs todo (upcase p) = collect_regs todo p.
Proof.
  induction todo as [|k IH]; intros p; simpl; [reflexivity|].
  rewrite find_next_reg_upcase.
  destruct (find_next_reg p) as [[out q]|]; [|reflexivity].
  now rewrite IH.
Qed.

Lemma parse_line_upcase (line : string) :
  parse_line (upcase line) = parse_line line.
Proof.
  unfold parse_line. cbv zeta.
  rewrite c_copy_upcase, strip_bom_upcase, strip_comment_upcase, rtrim_upcase.
  now rewrite is_blank_upcase, find_opcode_upcase, collect_regs_upcase.
Qed.

(** *** Long register numbers *)

Lemma substring_none (s : string) : substring 0 0 s = "".
Proof. now destruct s. Qed.

Lemma substring_nil (n : nat) : substring 0 n "" = "".
Proof. now destruct n. Qed.

(** The digit loop reads every digit and stores those that fit. *)
Lemma take_digits_cut (ds : string) :
  forall j rest,
    all is_digit ds = true ->
    match rest with
    | String c _ => is_digit c = false
    | EmptyString => True
    end ->
    take_digits j (ds ++ rest) = (substring 0 (14 - j) ds, rest).
Proof.
  induction ds as [|c ds IH]; intros j rest Hd Hr.
  - rewrite substring_nil.
    destruct rest as [|c r]; simpl; [reflexivity | now rewrite Hr].
  - simpl in Hd. apply andb_prop in Hd as [Hc Hd].
    cbn [append take_digits]. rewrite Hc, (IH (S j) rest Hd Hr).
    destruct (Nat.ltb_spec j 14) as [Hj|Hj].
    + replace (14 - j)%nat with (S (14 - S j)) by lia. reflexivity.
    + replace (14 - j)%nat with 0%nat by lia.
      replace (14 - S j)%nat with 0%nat by lia.
      now rewrite !substring_none.
Qed.

Lemma x_not_digit (c : ascii) : is_x c = true -> is_digit c = false.
Proof. by_chars c. Qed.

(** The scan passes every [x] that no digit follows and stops at the
    first one that a digit follows. *)
Lemma find_next_reg_cut (pre ds rest : string) (x : ascii) :
  no_reg_start pre = true ->
  is_x x = true ->
  is_empty ds = false -> all is_digit ds = true ->
  match rest with
  | String c _ => is_digit c = false
  | EmptyString => True
  end ->
  find_next_reg (pre ++ String x (ds ++ rest))
  = Some (substring 0 14 ds, rest).
Proof.
  intros Hp Hx He Hd Hr. induction pre as [|c pre IH].
  - cbn [append find_next_reg]. rewrite Hx, (@take_digits_cut ds 0%nat rest Hd Hr).
    destruct ds as [|d ds']; [discriminate | reflexivity].
  - cbn [no_reg_start] in Hp. apply andb_prop in Hp as [Hc Hp].
    apply negb_true_iff in Hc. specialize (IH Hp).
    cbn [append find_next_reg]. destruct (is_x c); [|exact IH].
    assert (Hnone : take_digits 0 (pre ++ String x (ds ++ rest))
                    = ("", pre ++ String x (ds ++ rest))).
    { destruct pre as [|d pre']; cbn [append take_digits].
      - now rewrite (x_not_digit _ Hx).
      - simpl in Hc. now rewrite Hc. }
    rewrite Hnone. exact IH.
Qed.

(** *** Many copies of one line *)

Lemma parsed_of_repeat (l : string) (ins : Instr) (n : nat) :
  parse_line l = Parsed ins -> parsed_of (repeat l n) = repeat ins n.
Proof.
  intros E. induction n as [|n IH]; [reflexivity|].
  cbn [repeat]. now rewrite parsed_of_cons, E, IH.
Qed.

End ParserTolerance.

(** ** From the lines of a file to the results *)

Module LoaderFacts.
Import Isa IsaFacts Timeline Simulator SimulatorFacts Parser ParserFacts.

#[local] Arguments parse_line : simpl never.

Lemma load_ok (lines : list string) (prog : list Instr) :
  load lines = LoadOk prog
  <-> (forall l, In l lines -> parse_line l <> ParseError)
      /\ prog = parsed_of lines
      /\ 1 <= Z.of_nat (List.length prog) <= MAX_INSTR.
Proof.
  unfold load. rewrite read_lines_ok. cbn [app]. split.
  - intros (H1 & -> & H3 & H4). split; [exact H1|]. split; [reflexivity|].
    destruct H4 as [H4|H4]; [congruence|].
    destruct (parsed_of lines); [congruence | simpl in *; lia].
  - intros (H1 & -> & H3). split; [exact H1|]. split; [reflexivity|].
    split; [|now right].
    destruct (parsed_of lines); [simpl in H3; lia | discriminate].
Qed.

Lemma load_valid (lines : list string) (prog : list Instr) :
  load lines = LoadOk prog -> valid_program prog /\ Forall canonical prog.
Proof.
  intros E. apply load_ok in E as (_ & -> & Hn).
  pose proof (parsed_of_canonical lines) as Hc.
  split; [|exact Hc]. split; [exact Hn|].
  apply forallb_forall. intros ins Hin. apply canonical_valid.
  rewrite Forall_forall in Hc. now apply Hc.
Qed.

(** A program that was loaded is simulated to the end and gets a
    report. *)
Lemma load_runs (lines : list string) (prog : list Instr) :
  load lines = LoadOk prog ->
  Timeline.main prog <> None /\ simulate prog <> None.
Proof.
  intros E. destruct (load_valid lines E) as [[[Hlo _] _] _].
  split.
  - destruct prog; [simpl in Hlo; lia | discriminate].
  - destruct (simulate_total prog Hlo) as (k & -> & _). discriminate.
Qed.

(** Where a run that ends with code 2 or 3 stopped. *)
Lemma read_lines_exit_2 (lines : list string) :
  forall acc,
    Z.of_nat (List.length acc) <= MAX_INSTR ->
    read_lines lines acc = LoadExit 2 ->
    exists pre l post,
      lines = (pre ++ l :: post)%list
      /\ (forall l', In l' pre -> parse_line l' <> ParseError)
      /\ Z.of_nat (List.length (acc ++ parsed_of pre)) <= MAX_INSTR
      /\ parse_line l = ParseError.
Proof.
  induction lines as [|l lines IH]; intros acc Hacc; cbn [read_lines].
  - destruct (Z.of_nat (List.length acc) =? 0); discriminate.
  - destruct (parse_line l) as [| |ins] eqn:E.
    + intros H. destruct (IH acc Hacc H) as (pre & l0 & post & -> & Hok & Hlen & Hl).
      exists (l :: pre), l0, post. split; [reflexivity|].
      split; [|split; [|exact Hl]].
      * intros l' [<- | Hin]; [congruence | now apply Hok].
      * now rewrite parsed_of_cons, E.
    + intros _. exists [], l, lines. split; [reflexivity|].
      split; [intros l' []|]. split; [|exact E].
      cbn [parsed_of]. now rewrite app_nil_r.
    + destruct (Z.geb_spec (Z.of_nat (List.length acc)) MAX_INSTR) as [Hge|Hlt];
        [discriminate|].
      intros H.
      assert (Hacc' : Z.of_nat (List.length (acc ++ [ins])) <= MAX_INSTR)
        by (rewrite length_app; cbn [List.length]; lia).
      destruct (IH _ Hacc' H) as (pre & l0 & post & -> & Hok & Hlen & Hl).
      exists (l :: pre), l0, post. split; [reflexivity|].
      split; [|split; [|exact Hl]].
      * intros l' [<- | Hin]; [congruence | now apply Hok].
      * rewrite parsed_of_cons, E. now rewrite <- app_assoc in Hlen.
Qed.

Lemma read_lines_exit_3 (lines : list string) :
  forall acc,
    Z.of_nat (List.length acc) <= MAX_INSTR ->
    read_lines lines acc = LoadExit 3 ->
    exists pre l post ins,
      lines = (pre ++ l :: post)%list
      /\ (forall l', In l' pre -> parse_line l' <> ParseError)
      /\ Z.of_nat (List.length (acc ++ parsed_of pre)) = MAX_INSTR
      /\ parse_line l = Parsed ins.
Proof.
  induction lines as [|l lines IH]; intros acc Hacc; cbn [read_lines].
  - destruct (Z.of_nat (List.length acc) =? 0); discriminate.
  - destruct (parse_line l) as [| |ins] eqn:E.
    + intros H.
      destruct (IH acc Hacc H) as (pre & l0 & post & i0 & -> & Hok & Hlen & Hl).
      exists (l :: pre), l0, post, i0. split; [reflexivity|].
      split; [|split; [|exact Hl]].
      * intros l' [<- | Hin]; [congruence | now apply Hok].
      * now rewrite parsed_of_cons, E.
    + discriminate.
    + destruct (Z.geb_spec (Z.of_nat (List.length acc)) MAX_INSTR) as [Hge|Hlt].
      * intros _. exists [], l, lines, ins. split; [reflexivity|].
        split; [intros l' []|]. split; [|exact E].
        cbn [parsed_of]. rewrite app_nil_r. lia.
      * intros H.
        assert (Hacc' : Z.of_nat (List.length (acc ++ [ins])) <= MAX_INSTR)
          by (rewrite length_app; cbn [List.length]; lia).
        destruct (IH _ Hacc' H) as (pre & l0 & post & i0 & -> & Hok & Hlen & Hl).
        exists (l :: pre), l0, post, i0. split; [reflexivity|].
        split; [|split; [|exact Hl]].
        -- intros l' [<- | Hin]; [congruence | now apply Hok].
        -- rewrite parsed_of_cons, E. now rewrite <- app_assoc in Hlen.
Qed.

(** The three ways the reading loop refuses a file, each with its
    cause. *)
Lemma load_refuses (lines : list string) (c : Z) :
  load lines = LoadExit c ->
  (c = 2
   /\ exists pre l post,
        lines = (pre ++ l :: post)%list
        /\ (forall l', In l' pre -> parse_line l' <> ParseError)
        /\ Z.of_nat (List.length (parsed_of pre)) <= MAX_INSTR
        /\ parse_line l = ParseError)
  \/ (c = 3
      /\ exists pre l post ins,
           lines = (pre ++ l :: post)%list
           /\ (forall l', In l' pre -> parse_line l' <> ParseError)
           /\ Z.of_nat (List.length (parsed_of pre)) = MAX_INSTR
           /\ parse_line l = Parsed ins)
  \/ (c = 4 /\ forall l, In l lines -> parse_line l = Skipped).
Proof.
  unfold load. intros E.
  assert (H0 : Z.of_nat (List.length (@nil Instr)) <= MAX_INSTR)
    by (unfold MAX_INSTR; simpl; lia).
  destruct (read_lines_codes _ _ E) as [-> | [-> | ->]].
  - left. split; [reflexivity|]. exact (@read_lines_exit_2 lines [] H0 E).
  - right; left. split; [reflexivity|]. exact (@read_lines_exit_3 lines [] H0 E).
  - right; right. split; [reflexivity|].
    now apply read_lines_empty_exit in E as [_ E].
Qed.

End LoaderFacts.

(** ** More about the schedule and about the two stall counts *)

Module ScheduleFacts.
Import Isa IsaFacts Timeline TimelineFacts Simulator SimulatorFacts Agreement.

#[local] Arguments needed_stalls_for_id : simpl never.
#[local] Arguments Z.of_nat : simpl never.

Lemma stalls_at_range (prog : list Instr) (i : nat) :
  0 <= stalls_at prog i <= 2.
Proof. apply stalls_loop_range. Qed.

(** [IFc[i]]: one cycle per instruction up to [i] and the stalls of the
    instructions up to [i]. *)
Lemma fetch_closed_form (prog : list Instr) (i : nat) :
  (i < List.length prog)%nat ->
  IFc (row_at prog i) = Z.of_nat i + 1 + sum_upto (stalls_at prog) (S i).
Proof.
  assert (Hl : List.length (stalls prog) = List.length prog)
    by apply stalls_loop_length.
  induction i as [|i IH]; intros Hi.
  - unfold row_at, schedule. rewrite schedule_loop_first by lia.
    unfold sum_upto, stalls_at. lia.
  - unfold row_at, schedule. rewrite schedule_loop_next by lia.
    fold (schedule prog). fold (row_at prog i). fold (stalls_at prog (S i)).
    rewrite IH by lia. cbn [sum_upto]. lia.
Qed.

Lemma fetch_increasing (prog : list Instr) (i j : nat) :
  (i < j)%nat -> (j < List.length prog)%nat ->
  IFc (row_at prog i) + Z.of_nat (j - i) <= IFc (row_at prog j).
Proof.
  intros Hij. induction j as [|j IH]; intros Hj; [lia|].
  assert (Hs : IFc (row_at prog (S j))
               = IFc (row_at prog j) + 1 + stalls_at prog (S j)).
  { unfold row_at, schedule, stalls_at. apply schedule_loop_next.
    unfold stalls. rewrite stalls_loop_length. lia. }
  pose proof (stalls_at_range prog (S j)) as Hr.
  destruct (Nat.eq_dec i j) as [->|Hne].
  - replace (S j - j)%nat with 1%nat by lia. lia.
  - assert (IFc (row_at prog i) + Z.of_nat (j - i) <= IFc (row_at prog j))
      by (apply IH; lia).
    replace (S j - i)%nat with (S (j - i)) by lia. lia.
Qed.

Lemma fold_add_zero_inv (l : list Z) :
  (forall i, 0 <= nth i l 0) -> fold_left Z.add l 0 = 0 ->
  forall i, nth i l 0 = 0.
Proof.
  assert (Hf : forall l a, fold_left Z.add l a = a + fold_left Z.add l 0).
  { induction l0 as [|x l0 IH]; intros a; simpl; [lia|].
    rewrite (IH (a + x)), (IH x). lia. }
  assert (Hpos : forall l, (forall i, 0 <= nth i l 0) -> 0 <= fold_left Z.add l 0).
  { induction l0 as [|x l0 IH]; intros H; simpl; [lia|].
    rewrite Hf. pose proof (H 0%nat) as H0. simpl in H0.
    assert (0 <= fold_left Z.add l0 0) by (apply IH; intros i; apply (H (S i))).
    lia. }
  induction l as [|x l IH]; intros H E i.
  - now destruct i.
  - simpl in E. rewrite Hf in E.
    pose proof (H 0%nat) as H0. simpl in H0.
    assert (Hl : forall i, 0 <= nth i l 0) by (intros k; apply (H (S k))).
    pose proof (Hpos l Hl) as Hp.
    destruct i as [|i]; simpl; [lia|]. apply IH; [exact Hl | lia].
Qed.

(** A program to which the calculator charges no stall has no hazard. *)
Lemma no_stall_hazard_free (prog : list Instr) :
  forallb valid_instr prog = true -> sum_stalls prog = 0 -> hazard_free prog.
Proof.
  intros Hv Hs.
  assert (Hz : forall i, stalls_at prog i = 0).
  { apply fold_add_zero_inv; [|exact Hs].
    intros i. apply (stalls_at_range prog i). }
  intros i k c p Hk Hc Hp Hin.
  pose proof (Hz i) as E. rewrite (stalls_at_rule prog i Hv Hc) in E.
  unfold stallsRequired, writes_source in E.
  destruct Hk as [-> | ->]; rewrite Hp in E.
  - destruct (in_dec string_dec (rd p) (sources c)); [discriminate | contradiction].
  - destruct (before prog i 1) as [p1|].
    + destruct (in_dec string_dec (rd p1) (sources c)); [discriminate|].
      destruct (in_dec string_dec (rd p) (sources c)); [discriminate | contradiction].
    + destruct (in_dec string_dec (rd p) (sources c)); [discriminate | contradiction].
Qed.

Lemma sim_stall_range (prog : list Instr) (i : nat) :
  0 <= sim_stall prog i <= 2.
Proof.
  destruct i as [|j]; [simpl; lia|].
  unfold sim_stall; fold (sim_stall prog j).
  destruct (needed_cases (Z.of_nat (S j)) (Z.of_nat j)
              (if sim_stall prog j =? 0 then Z.of_nat j - 1 else -1) prog)
    as [H|[[H _]|[H _]]]; rewrite H; lia.
Qed.

Lemma stallsRequired_drop_eq (c : Instr) (p1 p2 : option Instr) :
  stallsRequired c p1 p2 <> 1 ->
  stallsRequired c p1 None = stallsRequired c p1 p2.
Proof.
  unfold stallsRequired, writes_source.
  destruct p1 as [q1|]; destruct p2 as [q2|];
    repeat (destruct (in_dec _ _ _) as [?Hin|?Hin]); lia.
Qed.

(** The stall the simulator charges to an instruction, by the hazard
    rule: the producer two places back counts only if the previous
    instruction was not stalled. *)
Lemma sim_stall_rule (prog : list Instr) (j : nat) :
  (S j < List.length prog)%nat ->
  sim_stall prog (S j)
  = stallsRequired (nth (S j) prog instr0) (before prog (S j) 1)
      (if sim_stall prog j =? 0 then before prog (S j) 2 else None).
Proof.
  intros Hi.
  assert (E1 : before prog (S j) 1 = slot_instr prog (Z.of_nat j)).
  { unfold before, slot_instr, prog_at.
    replace (S j <? 1)%nat with false by lia.
    replace (Z.of_nat j >=? 0) with true by lia.
    replace (S j - 1)%nat with j by lia. rewrite Nat2Z.id.
    apply nth_error_nth'. lia. }
  assert (E2 : before prog (S j) 2 = slot_instr prog (Z.of_nat j - 1)).
  { unfold before, slot_instr, prog_at. destruct j as [|j'].
    - reflexivity.
    - replace (S (S j') <? 2)%nat with false by lia.
      replace (Z.of_nat (S j') - 1 >=? 0) with true by lia.
      replace (S (S j') - 2)%nat with j' by lia.
      replace (Z.to_nat (Z.of_nat (S j') - 1)) with j' by lia.
      apply nth_error_nth'. lia. }
  assert (E0 : prog_at prog (Z.of_nat (S j)) = nth (S j) prog instr0)
    by (unfold prog_at; now rewrite Nat2Z.id).
  unfold sim_stall; fold (sim_stall prog j).
  rewrite needed_rule by lia. rewrite E0, E1, E2.
  now destruct (sim_stall prog j =? 0).
Qed.

(** Where the two counts agree instruction by instruction. *)
Lemma sim_stall_agree (prog : list Instr) :
  forallb valid_instr prog = true ->
  (forall j, (S j < List.length prog)%nat ->
     stalls_at prog j > 0 -> stalls_at prog (S j) <> 1) ->
  forall i, (i < List.length prog)%nat -> sim_stall prog i = stalls_at prog i.
Proof.
  intros Hv Hc i. induction i as [|j IH]; intros Hi.
  - now rewrite first_stall_zero.
  - destruct (Z.eq_dec (sim_stall prog j) 0) as [Hz|Hz].
    + now apply (@sim_stall_le prog (S j) Hv Hi).
    + rewrite sim_stall_rule by exact Hi.
      rewrite (stalls_at_rule prog (S j) Hv (nth_error_nth' prog instr0 Hi)).
      replace (sim_stall prog j =? 0) with false by lia.
      apply stallsRequired_drop_eq.
      rewrite <- (stalls_at_rule prog (S j) Hv (nth_error_nth' prog instr0 Hi)).
      apply Hc; [exact Hi|].
      rewrite <- IH by lia. pose proof (sim_stall_range prog j). lia.
Qed.

End ScheduleFacts.

(** ** The properties of the specification *)

Import Isa IsaFacts Timeline TimelineFacts Simulator SimulatorFacts Examples.

Lemma scenarioA_valid : valid_program scenarioA.
Proof. split; [unfold MAX_INSTR; simpl; lia | reflexivity]. Qed.

Lemma scenarioA_hazard_free : hazard_free scenarioA.
Proof.
  intros i k c p Hk Hc Hp.
  destruct i as [|[|[|i]]]; destruct Hk as [-> | ->];
    cbv in Hc, Hp; try discriminate;
    try (destruct i; discriminate);
    injection Hc as <-; injection Hp as <-;
    simpl; intros [H|[H|[]]]; discriminate.
Qed.

(** C1 (the simulator's cycle count equals the calculator's [WB[N-1]]),
    evaluated on the one-instruction program [add x1, x2, x3]: the
    calculator reports [WB[0] = 5 = N + 4], the simulator leaves its loop
    with [cycle = 6].  By [simulate_cycles] the simulator always ends at
    [N + 5] plus its stall cycles: an instruction that enters the
    Write-back slot in cycle [c] is retired at the start of cycle
    [c + 1], and that extra iteration is counted.  The exact relation
    for every program is [Agreement.simulator_against_timeline]. *)
Theorem cycles_disagree_on_single :
  Timeline.total_cycles single = 5
  /\ Timeline.base_cycles single = 5
  /\ option_map cycle (simulate single) = Some 6.
Proof. repeat split; vm_compute; reflexivity. Qed.

(** C2 (the simulator's stall total equals the calculator's sum of
    [stalls[i]]), evaluated on [add x1,x2,x3; sub x4,x1,x5; add x6,x1,x7]:
    the calculator counts 2 + 1 = 3 stalls, the simulator inserts 2
    bubbles.  When the third instruction reaches Decode the first one has
    already left the Memory slot during the two stall cycles of the
    second, so the simulator's check of the Execute and Memory occupants
    finds no producer.  In general the simulator charges [sim_stall],
    never more than the calculator ([Agreement.sim_stall_le]). *)
Theorem stall_totals_disagree_on_shadowed :
  Timeline.stalls shadowed = [0; 2; 1]
  /\ Timeline.sum_stalls shadowed = 3
  /\ option_map total_stalls (simulate shadowed) = Some 2.
Proof. repeat split; vm_compute; reflexivity. Qed.

(** C3: both programs implement the hazard rule [stallsRequired]: the
    simulator's [needed_stalls_for_id], for an instruction in Decode and
    the occupants of Execute and Memory, and the calculator's inline
    test, for instruction [i] and its predecessors [i-1] and [i-2],
    return 2 when the nearer producer writes a source of the consumer,
    else 1 when the farther one does, else 0; when both do the result is
    2.  Both are functions of their inputs alone. *)
Theorem hazard_oracle_rule (prog : list Instr) :
  valid_program prog ->
  (forall id ex mem, 0 <= id ->
     needed_stalls_for_id id ex mem prog
     = stallsRequired (prog_at prog id) (slot_instr prog ex) (slot_instr prog mem))
  /\ (forall i c, nth_error prog i = Some c ->
        stalls_at prog i = stallsRequired c (before prog i 1) (before prog i 2))
  /\ (forall id ex mem, 0 <= id -> 0 <= ex -> 0 <= mem ->
        In (rd (prog_at prog ex)) (sources (prog_at prog id)) ->
        In (rd (prog_at prog mem)) (sources (prog_at prog id)) ->
        needed_stalls_for_id id ex mem prog = 2)
  /\ (forall i c p1 p2, nth_error prog i = Some c ->
        before prog i 1 = Some p1 -> before prog i 2 = Some p2 ->
        In (rd p1) (sources c) -> In (rd p2) (sources c) ->
        stalls_at prog i = 2).
Proof.
  intros [_ Hv].
  assert (Hsim : forall id ex mem, 0 <= id ->
            needed_stalls_for_id id ex mem prog
            = stallsRequired (prog_at prog id) (slot_instr prog ex)
                (slot_instr prog mem))
    by (intros; now apply needed_rule).
  splits.
  - exact Hsim.
  - intros i c Hc. now apply stalls_at_rule.
  - intros id ex mem Hid Hex Hmem H1 H2.
    rewrite Hsim by exact Hid. unfold slot_instr, stallsRequired, writes_source.
    replace (ex >=? 0) with true by lia.
    destruct (in_dec _ _ _) as [?Hin|?Hin]; [reflexivity | contradiction].
  - intros i c p1 p2 Hc E1 E2 H1 H2.
    rewrite (stalls_at_rule prog i Hv Hc), E1, E2.
    unfold stallsRequired, writes_source.
    destruct (in_dec _ _ _) as [?Hin|?Hin]; [reflexivity | contradiction].
Qed.

Lemma hazard_oracle_rule_witness :
  valid_program scenarioB
  /\ stalls_at scenarioB 1
     = stallsRequired (SUB "x4" "x1" "x5") (Some (ADD "x1" "x2" "x3")) None.
Proof.
  assert (Hv : valid_program scenarioB)
    by (split; [unfold MAX_INSTR; simpl; lia | reflexivity]).
  split; [exact Hv|].
  destruct (hazard_oracle_rule Hv) as (_ & H & _).
  exact (H 1%nat (SUB "x4" "x1" "x5") eq_refl).
Defined.

(** C4: the schedule of the calculator.  [IF[0] = 1]; for [i > 0],
    [IF[i] = IF[i-1] + 1 + stalls[i]]; on every row
    [ID = IF + 1], [EX = IF + 2], [MEM = IF + 3], [WB = IF + 4]; and
    every [stalls[i]] is 0, 1 or 2.  Both arrays have one entry per
    instruction. *)
Theorem timeline_schedule_shape (prog : list Instr) :
  valid_program prog ->
  List.length (stalls prog) = List.length prog
  /\ List.length (schedule prog) = List.length prog
  /\ IFc (row_at prog 0) = 1
  /\ (forall i, (0 < i < List.length prog)%nat ->
        IFc (row_at prog i) = IFc (row_at prog (i - 1)) + 1 + stalls_at prog i)
  /\ (forall i, (i < List.length prog)%nat ->
        IDc (row_at prog i) = IFc (row_at prog i) + 1
        /\ EXc (row_at prog i) = IFc (row_at prog i) + 2
        /\ MEMc (row_at prog i) = IFc (row_at prog i) + 3
        /\ WBc (row_at prog i) = IFc (row_at prog i) + 4)
  /\ (forall i, (i < List.length prog)%nat ->
        stalls_at prog i = 0 \/ stalls_at prog i = 1 \/ stalls_at prog i = 2).
Proof.
  intros [[Hlo _] _].
  assert (Hls : List.length (stalls prog) = List.length prog)
    by (unfold stalls; apply stalls_loop_length).
  splits.
  - exact Hls.
  - unfold schedule. now rewrite schedule_loop_length.
  - unfold row_at, schedule. rewrite schedule_loop_first by lia.
    fold (stalls_at prog 0). rewrite first_stall_zero. reflexivity.
  - intros i Hi. unfold row_at, schedule, stalls_at.
    replace i with (S (i - 1)) at 1 3 by lia.
    apply schedule_loop_next. lia.
  - intros i Hi. unfold row_at, schedule.
    apply schedule_loop_row. lia.
  - intros i Hi. unfold stalls_at.
    pose proof (stalls_loop_range prog "" "" i) as Hr. fold (stalls prog) in Hr.
    lia.
Qed.

Lemma timeline_schedule_shape_witness :
  valid_program scenarioB /\ IFc (row_at scenarioB 0) = 1.
Proof.
  assert (Hv : valid_program scenarioB)
    by (split; [unfold MAX_INSTR; simpl; lia | reflexivity]).
  split; [exact Hv|].
  destruct (timeline_schedule_shape Hv) as (_ & _ & H & _).
  exact H.
Defined.

(** C5 (scenario B, [add x1,x2,x3; sub x4,x1,x5]): the calculator
    reports stalls [0, 2], [IF = 1, 4] and 8 cycles in total; the
    simulator inserts the same two bubbles and leaves its loop with
    [cycle = 9]. *)
Theorem scenario_B_reports :
  Timeline.stalls scenarioB = [0; 2]
  /\ map IFc (schedule scenarioB) = [1; 4]
  /\ option_map rep_total_cycles (Timeline.main scenarioB) = Some 8
  /\ option_map total_stalls (simulate scenarioB) = Some 2
  /\ option_map cycle (simulate scenarioB) = Some 9.
Proof. repeat split; vm_compute; reflexivity. Qed.

(** C6 (programs without hazards), evaluated on scenario A, three
    independent additions: the calculator reports no stall and
    [WB[2] = 7 = N + 4]; the simulator inserts no bubble and leaves its
    loop with [cycle = 8 = N + 5].  Lemma [hazard_free_simulate] gives
    [N + 5] for every program without hazards. *)
Theorem scenario_A_reports :
  valid_program scenarioA /\ hazard_free scenarioA
  /\ Timeline.stalls scenarioA = [0; 0; 0]
  /\ Timeline.total_cycles scenarioA = 7
  /\ option_map total_stalls (simulate scenarioA) = Some 0
  /\ option_map cycle (simulate scenarioA) = Some 8.
Proof.
  split; [exact scenarioA_valid|]. split; [exact scenarioA_hazard_free|].
  repeat split; vm_compute; reflexivity.
Qed.

(** Scenario B after three cycles: the subtraction sits in Decode, the
    addition in Execute, and two stall cycles are pending. *)
Example scenarioB_after_three :
  iter scenarioB 3 init = mkState (-1) 1 0 (-1) (-1) 2 0 0 3 2.
Proof. reflexivity. Qed.

(** C7: the loop of the simulator terminates.  For a non-empty program
    [main] returns the state reached after some number [k] of
    iterations; [completed] is [N] there and below [N] before every
    earlier iteration, so the loop exits exactly when [completed = N];
    [completed] stays within [0 .. N], never decreases, grows by at
    most one per cycle, and from every state inside the loop it has
    grown by one after at most six further cycles (it cannot grow in
    every single cycle: the pipeline takes five cycles to fill). *)
Theorem simulator_terminates (prog : list Instr) :
  1 <= len prog ->
  exists (k : nat) (final : State),
    simulate prog = Some final
    /\ final = iter prog k init
    /\ completed final = len prog
    /\ (forall j, (j < k)%nat -> completed (iter prog j init) < len prog)
    /\ (forall j, (j <= k)%nat -> 0 <= completed (iter prog j init) <= len prog)
    /\ (forall j, (j < k)%nat ->
          completed (iter prog j init) <= completed (iter prog (S j) init)
          <= completed (iter prog j init) + 1)
    /\ (forall j, (j < k)%nat ->
          exists d, (1 <= d <= 6)%nat /\ (j + d <= k)%nat
            /\ completed (iter prog (j + d) init)
               = completed (iter prog j init) + 1).
Proof.
  intros Hn.
  destruct (simulate_total prog Hn) as (k & Hrun & Hfin & Hbefore & Hinv).
  exists k, (iter prog k init). splits; auto.
  - intros j Hj. pose proof (Hinv j Hj) as HI.
    pose proof (inv_completed HI). pose proof (completed_le_pc HI).
    pose proof (inv_pc HI). lia.
  - intros j Hj. simpl. rewrite (completed_step (Hinv j (Nat.lt_le_incl _ _ Hj))).
    unfold occ. destruct (_ >=? 0); lia.
  - intros j Hj.
    destruct (@progress prog 6 (iter prog j init)) as (d & Hd & Hinc & Hsame).
    + apply Hinv. lia.
    + now apply Hbefore.
    + pose proof (dist_range (iter prog j init)). lia.
    + exists d. rewrite iter_add. splits; try lia.
      destruct (Nat.le_gt_cases (j + d) k) as [Hle|Hgt]; [exact Hle | exfalso].
      specialize (Hsame (k - j)%nat). rewrite <- iter_add in Hsame.
      replace (j + (k - j))%nat with k in Hsame by lia.
      specialize (Hbefore j Hj). rewrite Hsame in Hfin by lia. lia.
Qed.

Lemma simulator_terminates_witness :
  1 <= len scenarioB
  /\ exists (k : nat) (final : State),
       simulate scenarioB = Some final /\ completed final = len scenarioB.
Proof.
  assert (Hn : 1 <= len scenarioB) by (unfold len; simpl; lia).
  split; [exact Hn|].
  destruct (simulator_terminates scenarioB Hn)
    as (k & final & Hrun & _ & Hfin & _).
  exists k, final. split; [exact Hrun | exact Hfin].
Defined.

(** C7 as stated, with [completed] growing in every cycle of the loop,
    fails on scenario B: the run takes nine cycles and [completed]
    reads 0, 0, 0, 0, 0, 0, 1, 1, 1, 2 at the head of the loop; it does
    not grow in the first cycle, while the pipeline is still empty. *)
Lemma completed_not_strictly_increasing :
  valid_program scenarioB
  /\ simulate scenarioB = Some (iter scenarioB 9 init)
  /\ map (fun j => completed (iter scenarioB j init)) (seq 0 10)
     = [0; 0; 0; 0; 0; 0; 1; 1; 1; 2]
  /\ ~ (forall j, (j < 9)%nat ->
          completed (iter scenarioB j init)
          < completed (iter scenarioB (S j) init)).
Proof.
  split; [split; [unfold MAX_INSTR; simpl; lia | reflexivity]|].
  split; [vm_compute; reflexivity|]. split; [vm_compute; reflexivity|].
  intros H. specialize (H 0%nat ltac:(lia)). vm_compute in H. discriminate.
Qed.

(** C8: a cycle taken with [stall_counter > 0].  Memory's occupant moves
    to Write-back, Execute's to Memory, Execute becomes a bubble; Decode,
    Fetch and the program counter keep their values; [stall_counter]
    drops by one, [total_stalls] and [cycle] grow by one.  The iteration
    is the stall branch, which contains no hazard check: its result does
    not depend on the instructions of the program. *)
Theorem stall_cycle_frame (prog : list Instr) (s : State) :
  1 <= len prog -> reachable prog s -> stall_counter s > 0 ->
  let s' := step prog s in
  pWB s' = pMEM s /\ pMEM s' = pEX s /\ pEX s' = -1
  /\ pID s' = pID s /\ pIF s' = pIF s /\ pc s' = pc s
  /\ stall_counter s' = stall_counter s - 1
  /\ total_stalls s' = total_stalls s + 1
  /\ cycle s' = cycle s + 1
  /\ s' = stall_cycle (write_back (tick s))
  /\ (forall prog', step prog' s = s').
Proof.
  intros Hn Hr Hsc. pose proof (reachable_inv Hn Hr) as HI.
  assert (Hbranch : forall q, step q s = stall_cycle (write_back (tick s))).
  { intros q. unfold step. cbv zeta.
    replace (stall_counter (write_back (tick s)) >? 0) with true; [reflexivity|].
    pose proof (inv_wf_slots HI) as (_ & _ & _ & _ & Hw).
    rewrite write_back_wf by (simpl; auto). simpl. lia. }
  cbv zeta. rewrite (step_stall HI Hsc) at 1 2 3 4 5 6 7 8 9.
  unfold stall_result; simpl. splits; try reflexivity.
  - apply Hbranch.
  - intros q. now rewrite !Hbranch.
Qed.

Lemma stall_cycle_frame_witness :
  1 <= len scenarioB
  /\ reachable scenarioB (iter scenarioB 3 init)
  /\ stall_counter (iter scenarioB 3 init) > 0
  /\ pWB (step scenarioB (iter scenarioB 3 init)) = pMEM (iter scenarioB 3 init)
  /\ total_stalls (step scenarioB (iter scenarioB 3 init))
     = total_stalls (iter scenarioB 3 init) + 1.
Proof.
  assert (Hn : 1 <= len scenarioB) by (unfold len; simpl; lia).
  assert (Hr : reachable scenarioB (iter scenarioB 3 init)).
  { simpl. repeat (apply reach_step; [|reflexivity]). apply reach_init. }
  assert (Hsc : stall_counter (iter scenarioB 3 init) > 0) by reflexivity.
  split; [exact Hn|]. split; [exact Hr|]. split; [exact Hsc|].
  destruct (stall_cycle_frame Hn Hr Hsc)
    as (H1 & _ & _ & _ & _ & _ & _ & H2 & _).
  split; [exact H1 | exact H2].
Defined.

(** C9: slot occupancy.  In every reachable state no instruction index
    occupies two slots.  Over one cycle an instruction stays where it is
    or moves to the next stage of
    not fetched, Fetch, Decode, Execute, Memory, Write-back, retired;
    it stays only when it has not been fetched, has retired, or sits in
    Fetch or Decode during a stall cycle.  Every instruction starts not
    fetched and ends retired, so it occupies each of the five stages in
    that order at some cycle of the run. *)
Theorem slot_occupancy_invariant (prog : list Instr) :
  1 <= len prog ->
  (forall s, reachable prog s -> NoDup (occupants s))
  /\ (forall s i, reachable prog s -> completed s < len prog ->
        0 <= i < len prog ->
        (pos (step prog s) i = pos s i \/ pos (step prog s) i = pos s i + 1)
        /\ (pos (step prog s) i = pos s i ->
            pos s i = 0 \/ pos s i = 6
            \/ ((pos s i = 1 \/ pos s i = 2) /\ stall_counter s > 0)))
  /\ (exists k,
        simulate prog = Some (iter prog k init)
        /\ forall i, 0 <= i < len prog ->
             pos init i = 0 /\ pos (iter prog k init) i = 6
             /\ forall v, 1 <= v <= 5 ->
                  exists j, (j <= k)%nat /\ pos (iter prog j init) i = v).
Proof.
  intros Hn. splits.
  - intros s Hr. apply (occupants_NoDup (reachable_inv Hn Hr)).
  - intros s i Hr Hlt Hi. apply (pos_step (reachable_inv Hn Hr) Hlt Hi).
  - destruct (simulate_total prog Hn) as (k & Hrun & Hfin & Hbefore & Hinv).
    exists k. split; [exact Hrun|]. intros i Hi.
    assert (H0 : pos init i = 0) by (apply pos_init; lia).
    assert (H6 : pos (iter prog k init) i = 6)
      by (apply (pos_final (Hinv k (le_n k)) Hfin Hi)).
    splits; auto. intros v Hv.
    apply (climbs_through (fun j => pos (iter prog j init) i)).
    + intros j Hj. simpl.
      apply (pos_step (Hinv j (Nat.lt_le_incl _ _ Hj)) (Hbefore j Hj) Hi).
    + simpl. lia.
Qed.

Lemma slot_occupancy_invariant_witness :
  1 <= len scenarioB /\ NoDup (occupants (iter scenarioB 3 init)).
Proof.
  assert (Hn : 1 <= len scenarioB) by (unfold len; simpl; lia).
  assert (Hr : reachable scenarioB (iter scenarioB 3 init)).
  { simpl. repeat (apply reach_step; [|reflexivity]). apply reach_init. }
  split; [exact Hn|].
  destruct (slot_occupancy_invariant scenarioB Hn) as (H & _).
  exact (H _ Hr).
Defined.

(** C10: the undo branch of the hazard check is dead code.  In a normal
    cycle, after the moves, Decode holds the former Fetch occupant and
    Execute the former Decode occupant; whenever the check asks for a
    stall these two differ, so the assignments that move an instruction
    back from Execute to Decode are never executed and the check only
    sets [stall_counter]. *)
Theorem undo_never_taken (prog : list Instr) (s : State) :
  1 <= len prog -> reachable prog s -> completed s < len prog ->
  stall_counter s = 0 ->
  let s1 := shift (len prog) (write_back (tick s)) in
  step prog s = hazard_check prog s1
  /\ pID s1 = pIF s /\ pEX s1 = pID s
  /\ (required prog s1 > 0 -> pEX s1 <> pID s1)
  /\ undo_taken prog s1 = false
  /\ hazard_check prog s1 = set_stall_counter (required prog s1) s1.
Proof.
  intros Hn Hr Hlt Hsc s1. pose proof (reachable_inv Hn Hr) as HI.
  pose proof (inv_wf_slots HI) as (Hf & Hd & He & Hm & Hw).
  pose proof (inv_if_id_differ HI) as Hne.
  assert (E0 : write_back (tick s)
               = set_pWB (-1) (set_completed (completed s + occ (pWB s)) (tick s)))
    by (exact (@write_back_wf (tick s) Hw)).
  assert (E1 : s1
               = mkState (if pc s <? len prog then pc s else -1) (pIF s) (pID s)
                   (pEX s) (pMEM s) (if pc s <? len prog then pc s + 1 else pc s)
                   (completed s + occ (pWB s)) (total_stalls s) (cycle s + 1) 0).
  { unfold s1. rewrite E0.
    rewrite shift_wf by (unfold wf_slots; simpl; auto with zarith).
    simpl. now rewrite Hsc. }
  assert (Hdiff : pID s1 >= 0 -> pEX s1 <> pID s1).
  { rewrite E1. simpl. intros H E. apply Hne; congruence. }
  destruct (@hazard_check_plain prog s1 Hdiff) as [Hu Hh];
    [rewrite E1; reflexivity|].
  splits; auto.
  - unfold step. cbv zeta.
    replace (stall_counter (write_back (tick s)) >? 0) with false; [reflexivity|].
    rewrite E0. simpl. lia.
  - rewrite E1. reflexivity.
  - rewrite E1. reflexivity.
  - intros Hreq. apply Hdiff. unfold required in Hreq.
    destruct (needed_cases (pID s1) (pEX s1) (pMEM s1) prog)
      as [R|[[R ?]|[R ?]]]; lia.
Qed.

Lemma undo_never_taken_witness :
  1 <= len scenarioB
  /\ reachable scenarioB (iter scenarioB 2 init)
  /\ completed (iter scenarioB 2 init) < len scenarioB
  /\ stall_counter (iter scenarioB 2 init) = 0
  /\ undo_taken scenarioB
       (shift (len scenarioB) (write_back (tick (iter scenarioB 2 init))))
     = false.
Proof.
  assert (Hn : 1 <= len scenarioB) by (unfold len; simpl; lia).
  assert (Hr : reachable scenarioB (iter scenarioB 2 init)).
  { simpl. repeat (apply reach_step; [|reflexivity]). apply reach_init. }
  split; [exact Hn|]. split; [exact Hr|].
  split; [reflexivity|]. split; [reflexivity|].
  destruct (@undo_never_taken scenarioB (iter scenarioB 2 init)
              Hn Hr eq_refl eq_refl) as (_ & _ & _ & _ & H & _).
  exact H.
Defined.

(** ** Further properties of the code *)

Import Agreement ScheduleFacts Parser ParserFacts ParserTolerance LoaderFacts.

(** *** The line parser *)

(** X1: what [parse_line] stores.  When it returns 1 the record holds
    the opcode [add], [sub] or [mov] with two, two and one sources; the
    destination and every source are names [x<digits>] with one to
    fourteen digits, at most 15 characters, so each fits its buffer of
    16; the unused second source of a [mov] is empty; and the text is
    the canonical rendering, at most 53 characters, so it fits its
    buffer of 128 and no [snprintf] cuts anything. *)
Theorem parse_line_record (line : string) (ins : Instr) :
  parse_line line = Parsed ins ->
  valid_instr ins = true
  /\ rs_count ins = arity (op ins)
  /\ (ins = mk_mov (rd ins) (rs0 ins)
      \/ (op ins = OP_ADD \/ op ins = OP_SUB)
         /\ ins = mk_alu (op ins) (rd ins) (rs0 ins) (rs1 ins))
  /\ is_reg_name (rd ins) = true
  /\ Forall (fun r => is_reg_name r = true) (sources ins)
  /\ (String.length (rd ins) <= 15)%nat
  /\ (String.length (rs0 ins) <= 15)%nat
  /\ (String.length (rs1 ins) <= 15)%nat
  /\ (String.length (text ins) <= 53)%nat.
Proof.
  intros E. pose proof (parse_line_canonical line E) as Hc.
  split; [now apply canonical_valid|].
  destruct Hc as [d s Hd Hs | o d s1 s2 Ho Hd H1 H2].
  - pose proof (reg_name_length _ Hd). pose proof (reg_name_length _ Hs).
    cbn [mk_mov op rd rs0 rs1 rs_count text arity].
    splits; auto; try lia.
    + repeat constructor. exact Hs.
    + simpl. lia.
    + repeat first [rewrite !string_length_app | progress simpl]. lia.
  - pose proof (reg_name_length _ Hd). pose proof (reg_name_length _ H1).
    pose proof (reg_name_length _ H2).
    cbn [mk_alu op rd rs0 rs1 rs_count text].
    splits; auto; try lia.
    + destruct Ho as [-> | ->]; reflexivity.
    + repeat constructor; assumption.
    + destruct Ho as [-> | ->];
        repeat first [rewrite !string_length_app | progress simpl]; lia.
Qed.

Lemma parse_line_record_witness :
  parse_line "add x1, x2, x3" = Parsed (ADD "x1" "x2" "x3")
  /\ valid_instr (ADD "x1" "x2" "x3") = true.
Proof.
  assert (E : parse_line "add x1, x2, x3" = Parsed (ADD "x1" "x2" "x3"))
    by (vm_compute; reflexivity).
  split; [exact E|].
  destruct (parse_line_record _ E) as (H & _). exact H.
Defined.

(** X2: the canonical text parses back to the record.  Whatever line an
    instruction was read from, parsing its [text] (the instruction
    column of the CSV files and of the trace) returns 1 with the same
    opcode, registers and text. *)
Theorem parse_line_round_trip (line : string) (ins : Instr) :
  parse_line line = Parsed ins -> parse_line (text ins) = Parsed ins.
Proof.
  intros E. apply reparse. exact (parse_line_canonical line E).
Qed.

Lemma parse_line_round_trip_witness :
  parse_line "  SUB X4 ,x1;;X5 # difference" = Parsed (SUB "x4" "x1" "x5")
  /\ parse_line (text (SUB "x4" "x1" "x5")) = Parsed (SUB "x4" "x1" "x5").
Proof.
  assert (E : parse_line "  SUB X4 ,x1;;X5 # difference"
              = Parsed (SUB "x4" "x1" "x5")) by (vm_compute; reflexivity).
  split; [exact E|]. exact (parse_line_round_trip _ E).
Defined.

(** X3: lines without an instruction.  A line that holds only white
    space (the empty line included), or only white space before a [#],
    makes [parse_line] return 0: it is neither stored nor an error. *)
Theorem blank_and_comment_lines (ws : string) :
  all is_space ws = true ->
  parse_line ws = Skipped
  /\ forall r, parse_line (ws ++ String "#" r) = Skipped.
Proof.
  intros Hw. destruct (blank_or_comment_skipped ws Hw) as [H1 H2].
  split; [exact H1|]. intros r. now apply H2.
Qed.

Lemma blank_and_comment_lines_witness :
  all is_space "  " = true
  /\ parse_line "  " = Skipped
  /\ parse_line ("  " ++ "# add x1, x2, x3") = Skipped.
Proof.
  assert (Hw : all is_space "  " = true) by reflexivity.
  split; [exact Hw|].
  destruct (blank_and_comment_lines "  " Hw) as [H1 H2].
  split; [exact H1 | exact (H2 " add x1, x2, x3")].
Defined.

(** X4: what follows an instruction on its line.  White space at the
    end of a line (the line terminator for one) and a comment started
    by [#] never change the result of [parse_line], whatever the line
    and whatever the comment hold. *)
Theorem trailing_text_ignored (l ws c : string) :
  all is_space ws = true ->
  parse_line (l ++ ws) = parse_line l
  /\ parse_line (l ++ String "#" c) = parse_line l
  /\ parse_line (l ++ ws ++ String "#" c) = parse_line l.
Proof.
  intros Hw. split; [now apply trailing_spaces|].
  split; [now apply trailing_comment|].
  rewrite <- append_assoc.
  rewrite trailing_comment by reflexivity. now apply trailing_spaces.
Qed.

Lemma trailing_text_ignored_witness :
  all is_space "  " = true
  /\ parse_line ("mov x1, x2" ++ "  " ++ String "#" " copy")
     = parse_line "mov x1, x2".
Proof.
  assert (Hw : all is_space "  " = true) by reflexivity.
  split; [exact Hw|].
  destruct (trailing_text_ignored "mov x1, x2" "  " " copy" Hw) as (_ & _ & H).
  exact H.
Defined.

(** X5: letter case.  Two lines that differ only in the case of their
    letters get the same result: the opcode is compared in lower case
    and a register may be written [x] or [X]; the stored names always
    start with a lower-case [x]. *)
Theorem parse_line_ignores_case (l1 l2 : string) :
  upcase l1 = upcase l2 -> parse_line l1 = parse_line l2.
Proof.
  intros E. rewrite <- (parse_line_upcase l1), <- (parse_line_upcase l2).
  now rewrite E.
Qed.

Lemma parse_line_ignores_case_witness :
  upcase "Add X1, x2, X3" = upcase "aDD x1, X2, x3"
  /\ parse_line "Add X1, x2, X3" = parse_line "aDD x1, X2, x3".
Proof.
  assert (E : upcase "Add X1, x2, X3" = upcase "aDD x1, X2, x3")
    by reflexivity.
  split; [exact E|]. exact (parse_line_ignores_case _ _ E).
Defined.

(** X6: long register numbers.  At the first [x] or [X] that is
    followed by a digit, [find_next_reg] reads the whole run of digits,
    stores its first 14 and returns the position after the run: the
    digits beyond the fourteenth are dropped, so two registers whose
    numbers share their first 14 digits get the same name.  What
    precedes that [x] is any text [pre] in which no [x] or [X] is
    directly followed by a digit; it may hold letters [x] that start
    no register, as in [fix] or [xx7]. *)
Theorem find_next_reg_keeps_14_digits (pre ds rest : string) (x : ascii) :
  no_reg_start pre = true ->
  is_x x = true ->
  is_empty ds = false -> all is_digit ds = true ->
  match rest with
  | String c _ => is_digit c = false
  | EmptyString => True
  end ->
  find_next_reg (pre ++ String x (ds ++ rest))
  = Some (substring 0 14 ds, rest).
Proof. apply find_next_reg_cut. Qed.

Lemma find_next_reg_keeps_14_digits_witness :
  find_next_reg ("fix xx" ++ String "X" ("12345678901234567" ++ ", x2"))
  = Some ("12345678901234", ", x2").
Proof.
  exact (@find_next_reg_keeps_14_digits "fix xx" "12345678901234567" ", x2"
           "X"%char eq_refl eq_refl eq_refl eq_refl eq_refl).
Defined.

(** *** The reading loop of [main] *)

(** X7: which files are accepted.  The reading loop of both programs
    ends with a program exactly when no line of the file is in error
    and the lines that hold an instruction number between 1 and
    [MAX_INSTR]; the program is then the instructions of those lines in
    file order, the other lines leaving no trace. *)
Theorem load_accepts (lines : list string) (prog : list Instr) :
  load lines = LoadOk prog
  <-> (forall l, In l lines -> parse_line l <> ParseError)
      /\ prog = parsed_of lines
      /\ 1 <= Z.of_nat (List.length prog) <= MAX_INSTR.
Proof. apply load_ok. Qed.

(** X8: an accepted file gives a program the two cores can run: between
    1 and [MAX_INSTR] instructions, each with a known opcode, the
    matching number of sources and a non-empty destination, and each in
    the canonical form of [parse_line]. *)
Theorem loaded_program_valid (lines : list string) (prog : list Instr) :
  load lines = LoadOk prog -> valid_program prog /\ Forall canonical prog.
Proof. apply load_valid. Qed.

Lemma loaded_program_valid_witness :
  load ["# scenario B"; "add x1, x2, x3"; ""; "sub x4, x1, x5"]
  = LoadOk scenarioB
  /\ valid_program scenarioB.
Proof.
  assert (E : load ["# scenario B"; "add x1, x2, x3"; ""; "sub x4, x1, x5"]
              = LoadOk scenarioB) by (vm_compute; reflexivity).
  split; [exact E|].
  destruct (loaded_program_valid _ E) as [H _]. exact H.
Defined.

(** X9: exit code 4.  The reading loop ends with "No instructions
    parsed" exactly when every line of the file is skipped; the empty
    file is one such file. *)
Theorem load_exit_4 (lines : list string) :
  load lines = LoadExit 4
  <-> forall l, In l lines -> parse_line l = Skipped.
Proof.
  unfold load. rewrite read_lines_empty_exit. split; [tauto | auto].
Qed.

(** X10: exit code 2.  The first line in error ends the run with code
    2, whatever the rest of the file holds, provided the lines before
    it did not overflow the program array. *)
Theorem load_exit_2 (pre post : list string) (l : string) :
  (forall l', In l' pre -> parse_line l' <> ParseError) ->
  Z.of_nat (List.length (parsed_of pre)) <= MAX_INSTR ->
  parse_line l = ParseError ->
  load (pre ++ l :: post) = LoadExit 2.
Proof.
  intros Hok Hlen Hl. unfold load. now apply read_lines_error.
Qed.

Lemma load_exit_2_witness :
  load (["add x1, x2, x3"] ++ "mov x7" :: ["sub x4, x1, x5"]) = LoadExit 2.
Proof.
  apply load_exit_2.
  - intros l' [<- | []]. vm_compute. discriminate.
  - vm_compute. discriminate.
  - vm_compute. reflexivity.
Defined.

(** X11: exit code 3.  When [MAX_INSTR] instructions have been stored,
    the next line that holds an instruction ends the run with "Too many
    instructions", whatever follows; skipped lines in between change
    nothing. *)
Theorem load_exit_3 (pre post : list string) (l : string) (ins : Instr) :
  (forall l', In l' pre -> parse_line l' <> ParseError) ->
  Z.of_nat (List.length (parsed_of pre)) = MAX_INSTR ->
  parse_line l = Parsed ins ->
  load (pre ++ l :: post) = LoadExit 3.
Proof.
  intros Hok Hlen Hl. unfold load. now apply (@read_lines_overflow pre [] l post ins).
Qed.

Lemma load_exit_3_witness :
  load (repeat "add x1, x2, x3" 4096 ++ "mov x1, x2" :: []) = LoadExit 3.
Proof.
  assert (E : parse_line "add x1, x2, x3" = Parsed (ADD "x1" "x2" "x3"))
    by (vm_compute; reflexivity).
  apply (@load_exit_3 (repeat "add x1, x2, x3" 4096) [] "mov x1, x2"
           (MOV "x1" "x2")).
  - intros l' Hl'. apply repeat_spec in Hl'. rewrite Hl', E. discriminate.
  - rewrite (@parsed_of_repeat _ _ 4096%nat E), repeat_length. reflexivity.
  - vm_compute. reflexivity.
Defined.

(** X12: the four ways [main] ends.  Apart from the failures of the
    environment (a file that cannot be opened, memory that cannot be
    allocated) each program ends in exactly one of four ways, each with
    its cause: with code 0 and its results (the calculator's report,
    the final state of a simulation that has terminated); with code 2
    and no result, at a line in error before which no line was in
    error and at most [MAX_INSTR] instructions were read; with code 3
    and no result, at a line that holds an instruction when
    [MAX_INSTR] instructions were already stored; with code 4 and no
    result, when every line of the file was skipped. *)
Theorem mains_exit_codes (lines : list string) :
  let error_stop :=
    exists pre l post,
      lines = (pre ++ l :: post)%list
      /\ (forall l', In l' pre -> parse_line l' <> ParseError)
      /\ Z.of_nat (List.length (parsed_of pre)) <= MAX_INSTR
      /\ parse_line l = ParseError in
  let overflow_stop :=
    exists pre l post ins,
      lines = (pre ++ l :: post)%list
      /\ (forall l', In l' pre -> parse_line l' <> ParseError)
      /\ Z.of_nat (List.length (parsed_of pre)) = MAX_INSTR
      /\ parse_line l = Parsed ins in
  let empty_stop := forall l, In l lines -> parse_line l = Skipped in
  ((exists rep, calculator_main lines = (0, Some rep))
   \/ (calculator_main lines = (2, None) /\ error_stop)
   \/ (calculator_main lines = (3, None) /\ overflow_stop)
   \/ (calculator_main lines = (4, None) /\ empty_stop))
  /\ ((exists final, simulator_main lines = (0, Some final))
      \/ (simulator_main lines = (2, None) /\ error_stop)
      \/ (simulator_main lines = (3, None) /\ overflow_stop)
      \/ (simulator_main lines = (4, None) /\ empty_stop)).
Proof.
  intros error_stop overflow_stop empty_stop.
  unfold calculator_main, simulator_main.
  destruct (load lines) as [c|prog] eqn:E.
  - destruct (load_refuses lines E) as [[-> H] | [[-> H] | [-> H]]].
    + split; right; left; (split; [reflexivity | exact H]).
    + split; right; right; left; (split; [reflexivity | exact H]).
    + split; right; right; right; (split; [reflexivity | exact H]).
  - destruct (load_runs lines E) as [H1 H2].
    destruct (Timeline.main prog) as [rep|]; [|congruence].
    destruct (simulate prog) as [final|]; [|congruence].
    split; left; eexists; reflexivity.
Qed.

(** X13: from an accepted file to the two results.  When the
    calculator prints a report for a file, the simulator runs the same
    program to the end; the calculator's total is its base count plus
    its stalls; the simulator never counts more stalls than the
    calculator, and its cycle count is the calculator's total plus one,
    minus the stalls it does not count. *)
Theorem accepted_file_results (lines : list string) (rep : Report) :
  calculator_main lines = (0, Some rep) ->
  exists final,
    simulator_main lines = (0, Some final)
    /\ rep_total_cycles rep = rep_base_cycles rep + rep_sum_stalls rep
    /\ total_stalls final <= rep_sum_stalls rep
    /\ cycle final
       = rep_total_cycles rep + 1 - (rep_sum_stalls rep - total_stalls final).
Proof.
  unfold calculator_main, simulator_main.
  destruct (load lines) as [c|prog] eqn:E; [discriminate|].
  intros Hrep. destruct (load_valid lines E) as [Hv _].
  destruct (simulator_against_timeline Hv) as (final & Hrun & _ & Hle & Hcy).
  exists final. rewrite Hrun. split; [reflexivity|].
  assert (Hne : prog <> []).
  { destruct Hv as [[Hlo _] _]. destruct prog; [simpl in Hlo; lia | discriminate]. }
  destruct prog as [|i0 prog']; [congruence|].
  unfold Timeline.main in Hrep. injection Hrep as <-.
  cbn [rep_total_cycles rep_base_cycles rep_sum_stalls].
  split; [now apply total_cycles_formula|]. split; [exact Hle | exact Hcy].
Qed.

Lemma accepted_file_results_witness :
  exists final,
    simulator_main ["add x1, x2, x3"; "sub x4, x1, x5"; "add x6, x1, x7"]
    = (0, Some final)
    /\ total_stalls final <= 3
    /\ cycle final = 10 + 1 - (3 - total_stalls final).
Proof.
  destruct (@accepted_file_results
              ["add x1, x2, x3"; "sub x4, x1, x5"; "add x6, x1, x7"]
              (mkReport (stalls shadowed) (schedule shadowed)
                 (base_cycles shadowed) (sum_stalls shadowed)
                 (total_cycles shadowed)) eq_refl)
    as (final & H1 & _ & H2 & H3).
  exists final. split; [exact H1|]. split; [exact H2 | exact H3].
Defined.

(** *** The calculator *)

(** X14: the totals of the calculator.  For every non-empty program the
    reported total [WBc[n-1]] is the base count [n + 4] plus the sum of
    the per-instruction stalls, and lies between [n + 4] and
    [3 n + 4]. *)
Theorem timeline_total_is_base_plus_stalls (prog : list Instr) :
  prog <> [] ->
  total_cycles prog = base_cycles prog + sum_stalls prog
  /\ base_cycles prog = Z.of_nat (List.length prog) + 4
  /\ Z.of_nat (List.length prog) + 4 <= total_cycles prog
     <= 3 * Z.of_nat (List.length prog) + 4.
Proof.
  intros Hne. rewrite (total_cycles_formula Hne).
  pose proof (@fold_add_bounds (stalls prog) (stalls_loop_range prog "" "")) as Hb.
  unfold stalls in Hb at 3. rewrite stalls_loop_length in Hb.
  unfold base_cycles, sum_stalls. splits; lia.
Qed.

Lemma timeline_total_is_base_plus_stalls_witness :
  total_cycles shadowed = base_cycles shadowed + sum_stalls shadowed.
Proof.
  assert (Hne : shadowed <> []) by discriminate.
  destruct (timeline_total_is_base_plus_stalls Hne) as (H & _). exact H.
Defined.

(** X15: the fetch cycle in closed form.  Instruction [i] is fetched in
    cycle [i + 1] plus the stalls charged to the instructions up to and
    including [i]; its write-back comes four cycles later and never
    after the reported total. *)
Theorem timeline_fetch_closed_form (prog : list Instr) (i : nat) :
  (i < List.length prog)%nat ->
  IFc (row_at prog i) = Z.of_nat i + 1 + sum_upto (stalls_at prog) (S i)
  /\ WBc (row_at prog i) = IFc (row_at prog i) + 4
  /\ WBc (row_at prog i) <= total_cycles prog.
Proof.
  intros Hi.
  assert (Hl : List.length (stalls prog) = List.length prog)
    by apply stalls_loop_length.
  assert (Hrow : forall k, (k < List.length prog)%nat ->
            WBc (row_at prog k) = IFc (row_at prog k) + 4).
  { intros k Hk. unfold row_at, schedule. apply schedule_loop_row. lia. }
  split; [now apply fetch_closed_form|]. split; [now apply Hrow|].
  unfold total_cycles. rewrite !Hrow by lia.
  destruct (Nat.eq_dec i (List.length prog - 1)) as [->|Hne]; [lia|].
  pose proof (@fetch_increasing prog i (List.length prog - 1)). lia.
Qed.

Lemma timeline_fetch_closed_form_witness :
  IFc (row_at shadowed 2) = 2 + 1 + sum_upto (stalls_at shadowed) 3.
Proof.
  assert (Hi : (2 < List.length shadowed)%nat) by (simpl; lia).
  destruct (timeline_fetch_closed_form shadowed Hi) as (H & _). exact H.
Defined.

(** X16: one instruction per stage and cycle.  In the computed schedule
    a later instruction enters every stage strictly after an earlier
    one, at least one cycle per place between them: no two instructions
    are given the same stage in the same cycle, and program order is
    kept in every stage. *)
Theorem timeline_stages_exclusive (prog : list Instr) (i j : nat) :
  (i < j)%nat -> (j < List.length prog)%nat ->
  IFc (row_at prog i) + Z.of_nat (j - i) <= IFc (row_at prog j)
  /\ IDc (row_at prog i) < IDc (row_at prog j)
  /\ EXc (row_at prog i) < EXc (row_at prog j)
  /\ MEMc (row_at prog i) < MEMc (row_at prog j)
  /\ WBc (row_at prog i) < WBc (row_at prog j).
Proof.
  intros Hij Hj.
  assert (Hl : List.length (stalls prog) = List.length prog)
    by apply stalls_loop_length.
  pose proof (fetch_increasing prog Hij Hj) as Hf.
  assert (Hi : (i < List.length (stalls prog))%nat) by lia.
  assert (Hj' : (j < List.length (stalls prog))%nat) by lia.
  pose proof (@schedule_loop_row (stalls prog) 1 i Hi) as Ri.
  pose proof (@schedule_loop_row (stalls prog) 1 j Hj') as Rj.
  cbv zeta in Ri, Rj. fold (schedule prog) in Ri, Rj.
  fold (row_at prog i) in Ri. fold (row_at prog j) in Rj.
  splits; lia.
Qed.

Lemma timeline_stages_exclusive_witness :
  EXc (row_at scenarioB 0) < EXc (row_at scenarioB 1).
Proof.
  assert (Hij : (0 < 1)%nat) by lia.
  assert (Hj : (1 < List.length scenarioB)%nat) by (simpl; lia).
  destruct (timeline_stages_exclusive scenarioB Hij Hj) as (_ & _ & H & _).
  exact H.
Defined.

(** X17: no overflow in the calculator.  For a program of at most
    [MAX_INSTR] instructions every cycle number stored in the five
    arrays lies between 1 and [3 * MAX_INSTR + 4], and the stall sum
    between 0 and [2 * MAX_INSTR]: far below the limit of a C [int]. *)
Theorem timeline_numbers_fit_int (prog : list Instr) (i : nat) :
  valid_program prog -> (i < List.length prog)%nat ->
  1 <= IFc (row_at prog i)
  /\ IFc (row_at prog i) < IDc (row_at prog i) < EXc (row_at prog i)
  /\ EXc (row_at prog i) < MEMc (row_at prog i) < WBc (row_at prog i)
  /\ WBc (row_at prog i) <= 3 * MAX_INSTR + 4
  /\ 0 <= sum_stalls prog <= 2 * MAX_INSTR
  /\ 3 * MAX_INSTR + 4 < 2 ^ 31.
Proof.
  intros Hv Hi.
  destruct (schedule_in_int_range Hv) as (Hs & Ht & Hm).
  assert (Hl : List.length (stalls prog) = List.length prog)
    by apply stalls_loop_length.
  assert (Hi' : (i < List.length (stalls prog))%nat) by lia.
  pose proof (@schedule_loop_row (stalls prog) 1 i Hi') as Ri.
  cbv zeta in Ri. fold (schedule prog) in Ri. fold (row_at prog i) in Ri.
  assert (Hlow : 1 <= IFc (row_at prog i)).
  { destruct i as [|i'].
    - unfold row_at, schedule. rewrite schedule_loop_first by lia.
      fold (stalls_at prog 0). rewrite first_stall_zero. lia.
    - assert (H0 : (0 < S i')%nat) by lia.
      pose proof (fetch_increasing prog H0 Hi) as Hf.
      assert (IFc (row_at prog 0) = 1).
      { unfold row_at, schedule. rewrite schedule_loop_first by lia.
        fold (stalls_at prog 0). rewrite first_stall_zero. lia. }
      lia. }
  assert (Hhigh : WBc (row_at prog i) <= total_cycles prog).
  { unfold total_cycles.
    destruct (Nat.eq_dec i (List.length prog - 1)) as [->|Hne]; [lia|].
    assert (Hlast : (List.length prog - 1 < List.length (stalls prog))%nat) by lia.
    pose proof (@schedule_loop_row (stalls prog) 1 _ Hlast) as Rl.
    cbv zeta in Rl. fold (schedule prog) in Rl.
    fold (row_at prog (List.length prog - 1)) in Rl.
    pose proof (@fetch_increasing prog i (List.length prog - 1)). lia. }
  splits; try lia.
Qed.

Lemma timeline_numbers_fit_int_witness :
  1 <= IFc (row_at scenarioB 1)
  /\ WBc (row_at scenarioB 1) <= 3 * MAX_INSTR + 4.
Proof.
  assert (Hv : valid_program scenarioB)
    by (split; [unfold MAX_INSTR; simpl; lia | reflexivity]).
  assert (Hi : (1 < List.length scenarioB)%nat) by (simpl; lia).
  destruct (timeline_numbers_fit_int Hv Hi) as (H1 & _ & _ & H2 & _).
  split; [exact H1 | exact H2].
Defined.

(** X18: when the calculator reports no stall.  For a valid program the
    stall sum is 0 exactly when no instruction reads the register
    written by one of its two predecessors; the total is then
    [n + 4]. *)
Theorem timeline_no_stall_iff_hazard_free (prog : list Instr) :
  valid_program prog ->
  (sum_stalls prog = 0 <-> hazard_free prog)
  /\ (hazard_free prog ->
      total_cycles prog = Z.of_nat (List.length prog) + 4).
Proof.
  intros Hv. split; [split|].
  - intros Hs. destruct Hv as [_ Hv]. now apply no_stall_hazard_free.
  - intros Hf. now apply hazard_free_total_cycles.
  - intros Hf. now apply hazard_free_total_cycles.
Qed.

Lemma timeline_no_stall_iff_hazard_free_witness :
  sum_stalls scenarioA = 0 <-> hazard_free scenarioA.
Proof.
  destruct (timeline_no_stall_iff_hazard_free scenarioA_valid) as (H & _).
  exact H.
Defined.

(** *** The simulator *)

(** X19: no read outside the program.  At the head of the loop and at
    the end of every iteration, where the traces and the CSV rows read
    [prog[]], every slot of the pipeline holds -1 or an index below [n];
    so do the three slots the hazard check reads after the moves of a
    normal cycle.  The simulator never reads [prog[]] out of bounds. *)
Theorem simulator_slots_in_range (prog : list Instr) (s : State) :
  1 <= len prog -> reachable prog s ->
  let ok := fun q => q = -1 \/ 0 <= q < len prog in
  Forall ok [pIF s; pID s; pEX s; pMEM s; pWB s]
  /\ (completed s < len prog ->
      Forall ok
        [pIF (step prog s); pID (step prog s); pEX (step prog s);
         pMEM (step prog s); pWB (step prog s)])
  /\ (stall_counter s = 0 ->
      let s1 := shift (len prog) (write_back (tick s)) in
      Forall ok [pID s1; pEX s1; pMEM s1]).
Proof.
  intros Hn Hr ok. pose proof (reachable_inv Hn Hr) as HI.
  pose proof (reads_in_range HI) as Hs. fold ok in Hs.
  split; [exact Hs|]. split.
  - intros Hlt. apply (reads_in_range (step_inv HI Hlt)).
  - intros Hsc s1.
    pose proof (inv_wf_slots HI) as (Hf & Hd & He & Hm & Hw).
    assert (E0 : write_back (tick s)
                 = set_pWB (-1) (set_completed (completed s + occ (pWB s)) (tick s)))
      by (exact (@write_back_wf (tick s) Hw)).
    assert (E1 : pID s1 = pIF s /\ pEX s1 = pID s /\ pMEM s1 = pEX s).
    { unfold s1. rewrite E0.
      rewrite shift_wf by (unfold wf_slots; simpl; auto with zarith).
      simpl. auto. }
    destruct E1 as (-> & -> & ->).
    inversion Hs as [|? ? H1 Hs1]; subst.
    inversion Hs1 as [|? ? H2 Hs2]; subst.
    inversion Hs2 as [|? ? H3 Hs3]; subst.
    repeat (apply Forall_cons; [assumption|]). apply Forall_nil.
Qed.

Lemma simulator_slots_in_range_witness :
  Forall (fun q => q = -1 \/ 0 <= q < len scenarioB)
    [pIF (iter scenarioB 3 init); pID (iter scenarioB 3 init);
     pEX (iter scenarioB 3 init); pMEM (iter scenarioB 3 init);
     pWB (iter scenarioB 3 init)].
Proof.
  assert (Hn : 1 <= len scenarioB) by (unfold len; simpl; lia).
  assert (Hr : reachable scenarioB (iter scenarioB 3 init)).
  { simpl. repeat (apply reach_step; [|reflexivity]). apply reach_init. }
  destruct (simulator_slots_in_range Hn Hr) as (H & _). exact H.
Defined.

(** X20: no overflow in the simulator.  For a program of at most
    [MAX_INSTR] instructions, in every state of the run the cycle
    counter is at most [3 * MAX_INSTR + 5], the stall total at most
    [2 * MAX_INSTR], and [0 <= completed <= pc <= MAX_INSTR]: far below
    the limit of a C [int]. *)
Theorem simulator_counters_fit_int (prog : list Instr) (s : State) :
  valid_program prog -> reachable prog s ->
  0 <= cycle s <= 3 * MAX_INSTR + 5
  /\ 0 <= total_stalls s <= 2 * MAX_INSTR
  /\ 0 <= completed s <= pc s /\ pc s <= MAX_INSTR
  /\ 3 * MAX_INSTR + 5 < 2 ^ 31.
Proof.
  intros Hv Hr. apply (counters_in_int_range Hv).
  destruct Hv as [[Hlo _] _]. now apply reachable_inv.
Qed.

Lemma simulator_counters_fit_int_witness :
  0 <= cycle (iter scenarioB 3 init) <= 3 * MAX_INSTR + 5.
Proof.
  assert (Hv : valid_program scenarioB)
    by (split; [unfold MAX_INSTR; simpl; lia | reflexivity]).
  assert (Hr : reachable scenarioB (iter scenarioB 3 init)).
  { simpl. repeat (apply reach_step; [|reflexivity]). apply reach_init. }
  destruct (simulator_counters_fit_int Hv Hr) as (H & _). exact H.
Defined.

(** X21: the state the simulator ends in.  When the loop exits every
    instruction has been fetched and retired, the five slots are empty,
    no stall is pending, and the cycle counter is [n + 5] plus the stall
    cycles, which number at most [2 n]. *)
Theorem simulator_final_state (prog : list Instr) (final : State) :
  simulate prog = Some final ->
  completed final = len prog /\ pc final = len prog
  /\ occupants final = [] /\ stall_counter final = 0
  /\ cycle final = len prog + 5 + total_stalls final
  /\ 0 <= total_stalls final <= 2 * len prog.
Proof.
  intros Hrun.
  assert (Hn : 1 <= len prog).
  { destruct prog; [discriminate | unfold len; simpl; lia]. }
  destruct (simulate_total prog Hn) as (k & Hk & Hfin & _ & Hinv).
  rewrite Hk in Hrun. injection Hrun as <-.
  destruct (inv_final (Hinv k (le_n k)) Hfin) as (H1 & H2 & H3 & H4 & H5).
  splits; auto; lia.
Qed.

Lemma simulator_final_state_witness :
  simulate scenarioB = Some (mkState (-1) (-1) (-1) (-1) (-1) 2 2 2 9 0)
  /\ occupants (mkState (-1) (-1) (-1) (-1) (-1) 2 2 2 9 0) = [].
Proof.
  assert (E : simulate scenarioB
              = Some (mkState (-1) (-1) (-1) (-1) (-1) 2 2 2 9 0))
    by (vm_compute; reflexivity).
  split; [exact E|].
  destruct (simulator_final_state _ E) as (_ & _ & H & _). exact H.
Defined.

(** X22: pending stalls.  At the head of the loop [stall_counter] is 0,
    1 or 2.  When it is 2 the stalled instruction sits in Decode and its
    producer in Execute; when it is 1 the stalled instruction sits in
    Decode and Memory is occupied.  The stalls counted so far and those
    pending number at most two for every instruction that has left
    Fetch. *)
Theorem simulator_pending_stalls (prog : list Instr) (s : State) :
  1 <= len prog -> reachable prog s ->
  0 <= stall_counter s <= 2
  /\ (stall_counter s = 2 -> pEX s >= 0 /\ pID s >= 0)
  /\ (stall_counter s = 1 -> pMEM s >= 0 /\ pID s >= 0)
  /\ 0 <= total_stalls s
  /\ total_stalls s + stall_counter s <= 2 * (pc s - occ (pIF s)).
Proof.
  intros Hn Hr. destruct (reachable_inv Hn Hr) as [_ _ _ H1 H2 H3 _ H4].
  splits; auto; lia.
Qed.

Lemma simulator_pending_stalls_witness :
  stall_counter (iter scenarioB 3 init) = 2
  /\ pEX (iter scenarioB 3 init) >= 0 /\ pID (iter scenarioB 3 init) >= 0.
Proof.
  assert (Hn : 1 <= len scenarioB) by (unfold len; simpl; lia).
  assert (Hr : reachable scenarioB (iter scenarioB 3 init)).
  { simpl. repeat (apply reach_step; [|reflexivity]). apply reach_init. }
  split; [reflexivity|].
  destruct (simulator_pending_stalls Hn Hr) as (_ & H & _).
  exact (H eq_refl).
Defined.

(** X23: program order in the pipeline.  At the head of the loop the
    occupied slots, read from Write-back to Fetch, hold the consecutive
    indices from [completed] to [pc - 1]: instructions never overtake
    each other, the one in Write-back is the next to retire, the one in
    Fetch is the last one fetched, and at most five are in flight. *)
Theorem simulator_program_order (prog : list Instr) (s : State) :
  1 <= len prog -> reachable prog s ->
  in_order (completed s) [pWB s; pMEM s; pEX s; pID s; pIF s] (pc s)
  /\ (pWB s >= 0 -> pWB s = completed s)
  /\ (pIF s >= 0 -> pIF s = pc s - 1)
  /\ 0 <= completed s <= pc s /\ pc s <= len prog
  /\ pc s - completed s = Z.of_nat (List.length (occupants s))
  /\ pc s - completed s <= 5.
Proof.
  intros Hn Hr. destruct (reachable_inv Hn Hr) as [Ho Hc Hp _ _ _ _ _].
  split; [exact Ho|].
  destruct s as [f d e m w p cp ts cy sc]; unfold occupants; simpl in *.
  slot_cases Ho; simpl; splits; lia.
Qed.

Lemma simulator_program_order_witness :
  pIF (iter scenarioB 2 init) >= 0
  /\ pIF (iter scenarioB 2 init) = pc (iter scenarioB 2 init) - 1.
Proof.
  assert (Hn : 1 <= len scenarioB) by (unfold len; simpl; lia).
  assert (Hr : reachable scenarioB (iter scenarioB 2 init)).
  { simpl. repeat (apply reach_step; [|reflexivity]). apply reach_init. }
  assert (Hf : pIF (iter scenarioB 2 init) >= 0) by (simpl; lia).
  split; [exact Hf|].
  destruct (simulator_program_order Hn Hr) as (_ & _ & H & _).
  exact (H Hf).
Defined.

(** X24: a cycle taken with [stall_counter = 0].  Every occupant moves
    to the next stage, the instruction that leaves Write-back is
    counted as completed, the next instruction is fetched while one is
    left, the stall total is unchanged, and [stall_counter] becomes the
    number of stalls needed by the instruction that enters Decode,
    measured against the instructions that enter Execute and Memory. *)
Theorem normal_cycle_frame (prog : list Instr) (s : State) :
  1 <= len prog -> reachable prog s -> stall_counter s = 0 ->
  let s' := step prog s in
  pWB s' = pMEM s /\ pMEM s' = pEX s /\ pEX s' = pID s /\ pID s' = pIF s
  /\ pIF s' = (if pc s <? len prog then pc s else -1)
  /\ pc s' = (if pc s <? len prog then pc s + 1 else pc s)
  /\ completed s' = completed s + occ (pWB s)
  /\ total_stalls s' = total_stalls s
  /\ cycle s' = cycle s + 1
  /\ stall_counter s' = needed_stalls_for_id (pIF s) (pID s) (pEX s) prog.
Proof.
  intros Hn Hr Hsc. cbv zeta.
  rewrite (step_normal (reachable_inv Hn Hr) Hsc).
  unfold normal_result; simpl. splits; reflexivity.
Qed.

Lemma normal_cycle_frame_witness :
  pID (step scenarioB (iter scenarioB 2 init)) = pIF (iter scenarioB 2 init)
  /\ stall_counter (step scenarioB (iter scenarioB 2 init))
     = needed_stalls_for_id (pIF (iter scenarioB 2 init))
         (pID (iter scenarioB 2 init)) (pEX (iter scenarioB 2 init)) scenarioB.
Proof.
  assert (Hn : 1 <= len scenarioB) by (unfold len; simpl; lia).
  assert (Hr : reachable scenarioB (iter scenarioB 2 init)).
  { simpl. repeat (apply reach_step; [|reflexivity]). apply reach_init. }
  destruct (@normal_cycle_frame scenarioB (iter scenarioB 2 init) Hn Hr eq_refl)
    as (_ & _ & _ & H1 & _ & _ & _ & _ & _ & H2).
  split; [exact H1 | exact H2].
Defined.

(** *** The two programs side by side *)

(** X25: programs without hazards.  When no instruction reads the
    register written by one of its two predecessors, the calculator
    reports no stall and [n + 4] cycles, and the simulator ends with no
    stall and [cycle = n + 5]: it counts one cycle more, the one in
    which the last instruction is retired from Write-back. *)
Theorem hazard_free_results (prog : list Instr) :
  valid_program prog -> hazard_free prog ->
  sum_stalls prog = 0
  /\ total_cycles prog = len prog + 4
  /\ exists final,
       simulate prog = Some final
       /\ total_stalls final = 0 /\ cycle final = len prog + 5.
Proof.
  intros Hv Hf. destruct (hazard_free_total_cycles Hv Hf) as [H1 H2].
  split; [exact H1|]. split; [exact H2|].
  destruct Hv as [[Hlo _] _]. now apply hazard_free_simulate.
Qed.

Lemma hazard_free_results_witness :
  exists final,
    simulate scenarioA = Some final
    /\ total_stalls final = 0 /\ cycle final = len scenarioA + 5.
Proof.
  destruct (hazard_free_results scenarioA_valid scenarioA_hazard_free)
    as (_ & _ & H).
  exact H.
Defined.

(** X26: the simulator against the calculator.  For every valid program
    the simulator runs to the end, never counts more stalls than the
    calculator, and its cycle count is the calculator's total plus one,
    minus the stalls it does not count. *)
Theorem simulator_vs_calculator (prog : list Instr) :
  valid_program prog ->
  exists final,
    simulate prog = Some final
    /\ 0 <= total_stalls final <= sum_stalls prog
    /\ cycle final
       = total_cycles prog + 1 - (sum_stalls prog - total_stalls final)
    /\ base_cycles prog + 1 <= cycle final <= total_cycles prog + 1.
Proof.
  intros Hv.
  destruct (simulator_against_timeline Hv) as (final & Hrun & _ & Hle & Hcy).
  destruct (simulate_cycles prog Hrun) as (Hc & Hts & _).
  exists final. split; [exact Hrun|].
  unfold base_cycles. unfold len in Hc. splits; lia.
Qed.

Lemma simulator_vs_calculator_witness :
  exists final,
    simulate shadowed = Some final
    /\ 0 <= total_stalls final <= sum_stalls shadowed.
Proof.
  assert (Hv : valid_program shadowed)
    by (split; [unfold MAX_INSTR; simpl; lia | reflexivity]).
  destruct (simulator_vs_calculator Hv) as (final & H1 & H2 & _).
  exists final. split; [exact H1 | exact H2].
Defined.

(** X27: the stalls the simulator counts.  Its total is the sum over
    the instructions of the stall charged to each; the first
    instruction is charged none, and instruction [j + 1] is charged by
    the hazard rule against instruction [j] and, only when instruction
    [j] was charged no stall, against instruction [j - 1]: after a
    stalled instruction the Memory slot has drained.  The charge is
    never more than the calculator's [stalls[j + 1]]. *)
Theorem simulator_stall_count (prog : list Instr) :
  valid_program prog ->
  (exists final,
     simulate prog = Some final
     /\ total_stalls final = sum_upto (sim_stall prog) (List.length prog))
  /\ sim_stall prog 0 = 0
  /\ (forall j, (S j < List.length prog)%nat ->
        sim_stall prog (S j)
        = stallsRequired (nth (S j) prog instr0) (before prog (S j) 1)
            (if sim_stall prog j =? 0 then before prog (S j) 2 else None)
        /\ 0 <= sim_stall prog (S j) <= stalls_at prog (S j)).
Proof.
  intros [[Hlo Hhi] Hv]. split; [|split].
  - destruct (@simulate_stalls prog Hlo) as (final & Hrun & Hts & _).
    exists final. split; [exact Hrun | exact Hts].
  - reflexivity.
  - intros j Hj. split; [now apply sim_stall_rule|].
    pose proof (sim_stall_range prog (S j)).
    pose proof (@sim_stall_le prog (S j) Hv Hj) as [Hle _]. lia.
Qed.

Lemma simulator_stall_count_witness :
  sim_stall shadowed 2
  = stallsRequired (nth 2 shadowed instr0) (before shadowed 2 1)
      (if sim_stall shadowed 1 =? 0 then before shadowed 2 2 else None).
Proof.
  assert (Hv : valid_program shadowed)
    by (split; [unfold MAX_INSTR; simpl; lia | reflexivity]).
  destruct (simulator_stall_count Hv) as (_ & _ & H).
  assert (Hj : (2 < List.length shadowed)%nat) by (simpl; lia).
  destruct (H 1%nat Hj) as (H1 & _). exact H1.
Defined.

(** X28: when the two programs agree.  If no instruction to which the
    calculator charges exactly one stall directly follows an
    instruction to which it charges a stall, the simulator counts the
    same stalls, and its cycle count is the calculator's total plus
    one. *)
Theorem agreement_without_shadowing (prog : list Instr) :
  valid_program prog ->
  (forall j, (S j < List.length prog)%nat ->
     stalls_at prog j > 0 -> stalls_at prog (S j) <> 1) ->
  exists final,
    simulate prog = Some final
    /\ total_stalls final = sum_stalls prog
    /\ cycle final = total_cycles prog + 1.
Proof.
  intros Hv Hc.
  destruct (simulator_against_timeline Hv) as (final & Hrun & Hts & _ & Hcy).
  exists final. split; [exact Hrun|].
  assert (E : total_stalls final = sum_stalls prog).
  { rewrite Hts. unfold sum_stalls. rewrite fold_add_sum_upto.
    unfold stalls at 2. rewrite stalls_loop_length.
    apply sum_upto_ext. intros i Hi.
    destruct Hv as [_ Hv]. now apply sim_stall_agree. }
  split; [exact E | lia].
Qed.

Lemma agreement_without_shadowing_witness :
  exists final,
    simulate scenarioB = Some final
    /\ total_stalls final = sum_stalls scenarioB
    /\ cycle final = total_cycles scenarioB + 1.
Proof.
  assert (Hv : valid_program scenarioB)
    by (split; [unfold MAX_INSTR; simpl; lia | reflexivity]).
  apply (agreement_without_shadowing Hv).
  intros [|j] Hj; [intros H; vm_compute in H; discriminate | simpl in Hj; lia].
Defined.

(** *** The test of a register against the sources *)

(** X29: [reg_in_sources] on a parsed instruction.  The loop compares
    the register with the first [rs_count] sources only: with the one
    source of a [mov], whose empty second cell is never compared, and
    with both sources of an [add] or [sub]. *)
Theorem reg_in_sources_parsed (line reg : string) (ins : Instr) :
  parse_line line = Parsed ins ->
  reg_in_sources reg ins
  = if rs_count ins =? 1 then String.eqb reg (rs0 ins)
    else String.eqb reg (rs0 ins) || String.eqb reg (rs1 ins).
Proof.
  intros E.
  destruct (parse_line_canonical line E) as [d s Hd Hs | o d s1 s2 Ho Hd H1 H2];
    unfold reg_in_sources; simpl.
  - change (rs_at (mk_mov d s) 0) with s. now destruct (String.eqb reg s).
  - change (rs_at (mk_alu o d s1 s2) 0) with s1.
    change (rs_at (mk_alu o d s1 s2) 1) with s2.
    destruct (String.eqb reg s1); [reflexivity|].
    now destruct (String.eqb reg s2).
Qed.

Lemma reg_in_sources_parsed_witness :
  reg_in_sources "" (MOV "x1" "x2") = false.
Proof.
  assert (E : parse_line "mov x1, x2" = Parsed (MOV "x1" "x2"))
    by (vm_compute; reflexivity).
  rewrite (reg_in_sources_parsed "mov x1, x2" "" E). reflexivity.
Defined.
